(** * Document segmentation and deduplication engine

    A shallow embedding of the Python sources
    [parsers/qa_parser.py], [parsers/chunker.py], [quality/validator.py]
    and [quality/deduplicator.py], with the properties of the design
    document stated and settled against the code.

    Conventions.
    - A Python [str] is a list of Unicode code points ([text]).
    - Python [float] scores are modelled by exact rationals ([Q]).
    - The [re] module is modelled by a small backtracking matcher that
      covers the pattern constructs the sources use. *)

From Stdlib Require Import NArith ZArith QArith Lia Lqa String Ascii DecimalString DecimalNat.
From stdpp Require Import base option list gmap strings sorting.

Local Close Scope Q_scope.
Local Open Scope nat_scope.

(** ** Text: Python strings as lists of code points *)

Module Text.

Definition char := N.
Definition text := list char.

Fixpoint of_string (s : string) : text :=
  match s with
  | EmptyString => []
  | String a s' => N_of_ascii a :: of_string s'
  end.

Definition LF : char := 10%N.

Definition in_range (lo hi c : N) : bool := ((lo <=? c) && (c <=? hi))%N.

Definition mem_char (c : char) (cs : text) : bool := existsb (N.eqb c) cs.

(** [str.isspace] on one code point; the same set is [\s] of [re] and
    the set removed by [str.strip()]. *)
Definition isspace (c : char) : bool :=
  in_range 0x09 0x0d c || in_range 0x1c 0x20 c
  || mem_char c [0x85; 0xa0; 0x1680; 0x2028; 0x2029; 0x202f; 0x205f; 0x3000]%N
  || in_range 0x2000 0x200a c.

Fixpoint lstrip_by (p : char -> bool) (s : text) : text :=
  match s with
  | [] => []
  | c :: s' => if p c then lstrip_by p s' else s
  end.

Definition rstrip_by (p : char -> bool) (s : text) : text :=
  rev (lstrip_by p (rev s)).

(** [s.strip()] *)
Definition strip (s : text) : text := rstrip_by isspace (lstrip_by isspace s).

(** [s[a:b]] for non-negative [a], [b] *)
Definition slice (s : text) (a b : nat) : text := take (b - a) (drop a s).

(** [s[-k:]] for [k >= 0]; note that [s[-0:]] is the whole string *)
Definition last_chars (k : nat) (s : text) : text :=
  match k with
  | O => s
  | _ => drop (length s - k) s
  end.

Fixpoint is_prefix (p s : text) : bool :=
  match p, s with
  | [], _ => true
  | _ :: _, [] => false
  | a :: p', b :: s' => (a =? b)%N && is_prefix p' s'
  end.

(** [p in s] *)
Fixpoint is_infix (p s : text) : bool :=
  is_prefix p s ||
  match s with
  | [] => false
  | _ :: s' => is_infix p s'
  end.

Fixpoint str_count_aux (p : text) (skip : nat) (s : text) : nat :=
  match s with
  | [] => 0
  | _ :: s' =>
      match skip with
      | S k => str_count_aux p k s'
      | O => if is_prefix p s
             then S (str_count_aux p (length p - 1) s')
             else str_count_aux p 0 s'
      end
  end.

(** [s.count(p)]: non-overlapping occurrences, scanning left to right *)
Definition str_count (p s : text) : nat :=
  match p with
  | [] => S (length s)
  | _ => str_count_aux p 0 s
  end.

(** [sep.join(parts)] *)
Fixpoint join (sep : text) (parts : list text) : text :=
  match parts with
  | [] => []
  | [p] => p
  | p :: rest => p ++ sep ++ join sep rest
  end.

Definition endswith (s suffix : text) : bool := is_prefix (rev suffix) (rev s).

(** The line boundaries of [str.splitlines] *)
Definition line_breaks : text :=
  [0x0a; 0x0b; 0x0c; 0x0d; 0x1c; 0x1d; 0x1e; 0x85; 0x2028; 0x2029]%N.

Fixpoint splitlines_aux (cur : text) (after_cr : bool) (s : text) : list text :=
  match s with
  | [] => match cur with [] => [] | _ => [cur] end
  | c :: s' =>
      if after_cr && (c =? LF)%N then splitlines_aux cur false s'
      else if mem_char c line_breaks
           then cur :: splitlines_aux [] (c =? 13)%N s'
           else splitlines_aux (cur ++ [c]) false s'
  end.

(** [s.splitlines()]: a carriage return followed by a newline is one
    boundary, and no empty last line is produced. *)
Definition splitlines (s : text) : list text := splitlines_aux [] false s.

(** [not s or not s.strip()] *)
Definition is_blank (s : text) : bool :=
  match strip s with [] => true | _ => false end.

Fixpoint split_aux (cur : text) (s : text) : list text :=
  match s with
  | [] => match cur with [] => [] | _ => [cur] end
  | c :: s' =>
      if isspace c
      then match cur with
           | [] => split_aux [] s'
           | _ => cur :: split_aux [] s'
           end
      else split_aux (cur ++ [c]) s'
  end.

(** [s.split()]: the maximal runs of characters that are not white
    space *)
Definition str_split (s : text) : list text := split_aux [] s.

End Text.

Export Text.

(** ** Data model *)

(** [QAPair] of [qa_parser.py] *)
Module QAPair.

Record t := mk {
  question : text;
  answer : text;
  question_num : option Z;
  source_file : option text;
  page_num : option Z;
  start_pos : nat;
  end_pos : nat;
}.

(** [f"{self.question}\n\n{self.answer}"] *)
Definition full_text (p : t) : text := question p ++ [LF; LF] ++ answer p.

Definition char_count (p : t) : nat := length (full_text p).

End QAPair.

(** Values stored in [Chunk.metadata] *)
Inductive meta_value :=
| MBool (b : bool)
| MInt (n : Z)
| MNone
| MStr (s : text).

(** [Chunk] of [chunker.py]; [metadata] is a dict in insertion order *)
Module Chunk.

Record t := mk {
  chunk_id : string;
  content : text;
  question : option text;
  answer : option text;
  chunk_type : string;
  source_file : option text;
  page_num : option Z;
  question_num : option Z;
  metadata : list (string * meta_value);
}.

(** The [char_count] property: recomputed from [content] at every use *)
Definition char_count (c : t) : nat := length (content c).

(** A [dict] as [from_dict] receives it, with values of the types that
    [to_dict] writes: for each key of [to_dict], its value when the key
    is present, and the keys that [to_dict] does not write. *)
Record dict := {
  d_chunk_id : option string;
  d_content : option text;
  d_question : option (option text);
  d_answer : option (option text);
  d_chunk_type : option string;
  d_source_file : option (option text);
  d_page_num : option (option Z);
  d_question_num : option (option Z);
  d_char_count : option nat;
  d_metadata : option (list (string * meta_value));
  d_other : list string;
}.

Definition to_dict (c : t) : dict :=
  {| d_chunk_id := Some (chunk_id c);
     d_content := Some (content c);
     d_question := Some (question c);
     d_answer := Some (answer c);
     d_chunk_type := Some (chunk_type c);
     d_source_file := Some (source_file c);
     d_page_num := Some (page_num c);
     d_question_num := Some (question_num c);
     d_char_count := Some (char_count c);
     d_metadata := Some (metadata c);
     d_other := [] |}.

(** [data.pop('char_count', None)] *)
Definition pop_char_count (data : dict) : dict :=
  {| d_chunk_id := d_chunk_id data;
     d_content := d_content data;
     d_question := d_question data;
     d_answer := d_answer data;
     d_chunk_type := d_chunk_type data;
     d_source_file := d_source_file data;
     d_page_num := d_page_num data;
     d_question_num := d_question_num data;
     d_char_count := None;
     d_metadata := d_metadata data;
     d_other := d_other data |}.

(** [cls( **data)]: the dataclass constructor called with the entries of
    [data] as keyword arguments.  [None] stands for the [TypeError] it
    raises on a keyword that is no field ([char_count] is a property, not
    a field) and on a missing [chunk_id] or [content]; the other fields
    have defaults. *)
Definition construct (data : dict) : option t :=
  match d_other data, d_char_count data with
  | [], None =>
      match d_chunk_id data, d_content data with
      | Some chunk_id, Some content =>
          Some {| chunk_id := chunk_id;
                  content := content;
                  question := default None (d_question data);
                  answer := default None (d_answer data);
                  chunk_type := default "qa"%string (d_chunk_type data);
                  source_file := default None (d_source_file data);
                  page_num := default None (d_page_num data);
                  question_num := default None (d_question_num data);
                  metadata := default [] (d_metadata data) |}
      | _, _ => None
      end
  | _, _ => None
  end.

Definition from_dict (data : dict) : option t :=
  construct (pop_char_count data).

End Chunk.

(** ** QualityValidator ([quality/validator.py]) *)

Module QualityValidator.

Record QualityConfig := {
  garbled_threshold : Q;
  min_content_length : nat;
  dedup_threshold : Q;
  sample_ratio : Q;
}.

(** Defaults of [QualityConfig] in [config/settings.py] *)
Definition default_config : QualityConfig :=
  {| garbled_threshold := 3 # 10;
     min_content_length := 20;
     dedup_threshold := 95 # 100;
     sample_ratio := 1 # 10 |}.

(** The diagnostics appended to [issues]; the Python code formats them as
    messages, the payload is the number interpolated in the message. *)
Inductive issue :=
| IssueEmpty
| IssueTooShort (n : nat)
| IssueGarbled (ratio : Q)
| IssueRepetition (ratio : Q)
| IssueSpecialChars (ratio : Q)
| IssueMissingQuestion
| IssueShortQuestion
| IssueMissingAnswer
| IssueShortAnswer.

Record ValidationResult := {
  vr_chunk_id : string;
  is_valid : bool;
  issues : list issue;
  scores : gmap string Q;
}.

Definition Qgtb (a b : Q) : bool := negb (Qle_bool a b).
Definition qmin (a b : Q) : Q := if Qle_bool a b then a else b.
Definition qmax (a b : Q) : Q := if Qle_bool b a then a else b.
Definition ratio (n d : nat) : Q := Z.of_nat n # Pos.of_nat d.

(** The character class shared by [_check_garbled] and
    [_check_special_chars] *)
Definition normal_char (c : char) : bool :=
  in_range 0x4e00 0x9fff c
  || in_range 0x61 0x7a c || in_range 0x41 0x5a c || in_range 0x30 0x39 c
  || isspace c
  || mem_char c [0xff0c; 0x3002; 0xff01; 0xff1f; 0x3001; 0xff1b; 0xff1a; 0x22;
                 0xff08; 0xff09; 0x3010; 0x3011; 0x300a; 0x300b]%N
  || mem_char c (of_string ",.!?;:'()[]{}<>")
  || mem_char c (of_string "-+*/=#@%&_~`")
  || mem_char c [0x0a; 0x0d; 0x09]%N.

Definition _check_garbled (s : text) : Q :=
  match s with
  | [] => 0
  | _ =>
      let normal_chars := length (filter (fun c => normal_char c = true) s) in
      let total_chars := length s in
      (1 - ratio normal_chars total_chars)%Q
  end.

Fixpoint run_length (c : char) (s : text) : nat :=
  match s with
  | x :: s' => if (x =? c)%N then S (run_length c s') else 0
  | [] => 0
  end.

Fixpoint single_repeat_aux (skip : nat) (s : text) : list text :=
  match s with
  | [] => []
  | c :: s' =>
      match skip with
      | S k => single_repeat_aux k s'
      | O =>
          if negb (c =? LF)%N && (4 <=? run_length c s')
          then [c] :: single_repeat_aux (run_length c s') s'
          else single_repeat_aux 0 s'
      end
  end.

(** [re.findall(r'(.)\1{4,}', text)]: the repeated character of every
    maximal run of five or more equal characters other than a newline *)
Definition single_repeat (s : text) : list text := single_repeat_aux 0 s.

(** The inner [for i in range(...)] loop of the phrase check for one
    window [length]; the result is what the loop adds to [repeated_len]. *)
Fixpoint phrase_scan (s : text) (len : nat) (idxs : list nat) : nat :=
  match idxs with
  | [] => 0
  | i :: rest =>
      let pattern := slice s i (i + len) in
      if is_infix (pattern ++ pattern) (drop i s) then
        let count := str_count pattern (drop i s) in
        if 2 <? count then length pattern * (count - 1)
        else phrase_scan s len rest
      else phrase_scan s len rest
  end.

Definition _check_repetition (s : text) : Q :=
  if length s <? 20 then 0
  else
    let total_len := length s in
    let repeated_len := 0 in
    let repeated_len :=
      fold_left (fun acc m => acc + length m * 4) (single_repeat s) repeated_len in
    let repeated_len :=
      fold_left (fun acc len =>
                   acc + phrase_scan s len (seq 0 (length s - len * 2)))
                [3; 5; 10] repeated_len in
    qmin (ratio repeated_len total_len) 1.

Definition _check_special_chars (s : text) : Q :=
  match s with
  | [] => 0
  | _ => ratio (length (filter (fun c => normal_char c = false) s)) (length s)
  end.

Definition _check_qa_completeness (chunk : Chunk.t) : list issue :=
  (match Chunk.question chunk with
   | None | Some [] => [IssueMissingQuestion]
   | Some q => if length q <? 5 then [IssueShortQuestion] else []
   end) ++
  (match Chunk.answer chunk with
   | None | Some [] => [IssueMissingAnswer]
   | Some a => if length a <? 10 then [IssueShortAnswer] else []
   end).

Definition _calculate_overall_score (scores : gmap string Q) (issues : list issue) : Q :=
  let base_score := 1%Q in
  let base_score :=
    match scores !! "garbled_ratio"%string with
    | Some g => (base_score - g * (5 # 10))%Q
    | None => base_score
    end in
  let base_score :=
    match scores !! "repetition_ratio"%string with
    | Some r => (base_score - r * (3 # 10))%Q
    | None => base_score
    end in
  let base_score :=
    match scores !! "special_char_ratio"%string with
    | Some s => (base_score - s * (2 # 10))%Q
    | None => base_score
    end in
  let base_score := (base_score - inject_Z (Z.of_nat (length issues)) * (1 # 10))%Q in
  qmax 0 (qmin 1 base_score).

Section Validate.
Variable config : QualityConfig.

Definition validate_chunk (chunk : Chunk.t) : ValidationResult :=
  let content := Chunk.content chunk in
  if is_blank content then
    {| vr_chunk_id := Chunk.chunk_id chunk;
       is_valid := false;
       issues := [IssueEmpty];
       scores := {[ "overall"%string := 0%Q ]} |}
  else
    let issues := [] in
    let scores : gmap string Q := ∅ in
    let issues :=
      if length content <? min_content_length config
      then issues ++ [IssueTooShort (length content)] else issues in
    let garbled_ratio := _check_garbled content in
    let scores := <["garbled_ratio"%string := garbled_ratio]> scores in
    let issues :=
      if Qgtb garbled_ratio (garbled_threshold config)
      then issues ++ [IssueGarbled garbled_ratio] else issues in
    let repetition_ratio := _check_repetition content in
    let scores := <["repetition_ratio"%string := repetition_ratio]> scores in
    let issues :=
      if Qgtb repetition_ratio (5 # 10)
      then issues ++ [IssueRepetition repetition_ratio] else issues in
    let special_char_ratio := _check_special_chars content in
    let scores := <["special_char_ratio"%string := special_char_ratio]> scores in
    let issues :=
      if Qgtb special_char_ratio (3 # 10)
      then issues ++ [IssueSpecialChars special_char_ratio] else issues in
    let issues :=
      if String.eqb (Chunk.chunk_type chunk) "qa"
      then issues ++ _check_qa_completeness chunk else issues in
    let overall_score := _calculate_overall_score scores issues in
    let scores := <["overall"%string := overall_score]> scores in
    let is_valid := (length issues =? 0) || Qle_bool (6 # 10) overall_score in
    {| vr_chunk_id := Chunk.chunk_id chunk;
       is_valid := is_valid;
       issues := issues;
       scores := scores |}.

(** The loop of [validate_chunks] over [results] and [valid_chunks] *)
Definition validate_step (remove_invalid : bool)
  (acc : list ValidationResult * list Chunk.t) (chunk : Chunk.t)
  : list ValidationResult * list Chunk.t :=
  let '(results, valid_chunks) := acc in
  let result := validate_chunk chunk in
  let results := results ++ [result] in
  if is_valid result || negb remove_invalid then
    if is_valid result then (results, valid_chunks ++ [chunk])
    else (results, valid_chunks)
  else (results, valid_chunks).

(** [validate_chunks].  The summary line it logs holds
    [valid_count/len(chunks)*100], evaluated whatever the log level:
    [None] stands for the [ZeroDivisionError] of an empty [chunks]. *)
Definition validate_chunks (chunks : list Chunk.t) (remove_invalid : bool)
  : option (list Chunk.t * list ValidationResult) :=
  let '(results, valid_chunks) :=
    fold_left (validate_step remove_invalid) chunks ([], []) in
  let valid_count := length (filter (fun r => is_valid r = true) results) in
  match length chunks with
  | O => None
  | S _ => if remove_invalid then Some (valid_chunks, results)
           else Some (chunks, results)
  end.

End Validate.

(** [scores['overall']] of a result *)
Definition overall_of (r : ValidationResult) : Q :=
  default 0%Q (scores r !! "overall"%string).

(** Scenario input: ten times U+554A *)
Definition ten_a : text := repeat 0x554a%N 10.

Definition scenario_d_chunk : Chunk.t :=
  Chunk.mk "text_000001" ten_a None None "text" None None None [].

End QualityValidator.

(** ** A model of the [re] module

    Backtracking matcher in the list-of-successes style: [run r x] lists
    the states reachable from [x] by matching [r], in the order in which
    a backtracking engine tries them, so that the head of the list is the
    match Python reports.  Repetition is over character classes, which is
    the only form the patterns of the sources use. *)

Module Regex.

Inductive regex :=
| Eps
| Chr (p : char -> bool)
| Sos                        (* ^ without re.MULTILINE *)
| Bol                        (* ^ with re.MULTILINE *)
| Eol                        (* $ with re.MULTILINE *)
| Seq (r1 r2 : regex)
| Alt (r1 r2 : regex)
| Rep (greedy : bool) (lo : nat) (hi : option nat) (p : char -> bool)
| Group (g : nat) (r : regex)
| Look (r : regex).          (* (?=r) *)

(** Position in the subject: offset, character before it, rest of the
    subject *)
Record mstate := MState { pos : nat; prev : option char; rest : text }.

(** Spans of the capture groups set so far, most recent first *)
Definition captures := list (nat * (nat * nat)).

Definition step (st : mstate) (c : char) (s' : text) : mstate :=
  {| pos := S (pos st); prev := Some c; rest := s' |}.

(** The states after 0, 1, 2, ... characters of class [p], at most [hi] *)
Fixpoint runs (p : char -> bool) (hi : option nat) (st : mstate) (s : text)
  : list mstate :=
  st ::
  match s with
  | c :: s' =>
      if p c && negb (bool_decide (hi = Some 0))
      then runs p (Nat.pred <$> hi) (step st c s') s'
      else []
  | [] => []
  end.

Definition at_bol (st : mstate) : bool :=
  match prev st with
  | None => true
  | Some c => (c =? LF)%N
  end.

Definition at_eol (st : mstate) : bool :=
  match rest st with
  | [] => true
  | c :: _ => (c =? LF)%N
  end.

Fixpoint run (r : regex) (x : mstate * captures) : list (mstate * captures) :=
  match r with
  | Eps => [x]
  | Chr p =>
      match rest x.1 with
      | c :: s' => if p c then [(step x.1 c s', x.2)] else []
      | [] => []
      end
  | Sos => match prev x.1 with None => [x] | Some _ => [] end
  | Bol => if at_bol x.1 then [x] else []
  | Eol => if at_eol x.1 then [x] else []
  | Seq r1 r2 => run r1 x ≫= run r2
  | Alt r1 r2 => run r1 x ++ run r2 x
  | Rep greedy lo hi p =>
      let states := drop lo (runs p hi x.1 (rest x.1)) in
      (fun st => (st, x.2)) <$> (if greedy then rev states else states)
  | Group g r =>
      (fun y => (y.1, (g, (pos x.1, pos y.1)) :: y.2)) <$> run r x
  | Look r =>
      match run r x with
      | [] => []
      | y :: _ => [(x.1, y.2)]
      end
  end.

(** A match object: [start()], [end()] and the group spans *)
Record rmatch := RMatch { m_start : nat; m_end : nat; m_caps : captures }.

(** [pattern.match(s)] at position [0] of [s] *)
Definition re_match (r : regex) (s : text) : option rmatch :=
  match run r ({| pos := 0; prev := None; rest := s |}, []) with
  | [] => None
  | y :: _ => Some {| m_start := 0; m_end := pos y.1; m_caps := y.2 |}
  end.

(** [pattern.finditer(s)]: at every position not inside the previous
    match, the first match found; the patterns of the sources never match
    the empty string, after which this scan moves on by one character. *)
Fixpoint finditer_aux (r : regex) (skip : nat) (st : mstate) (s : text)
  : list rmatch :=
  let here :=
    match skip with
    | O => head (run r (st, []))
    | S _ => None
    end in
  match here with
  | Some y =>
      {| m_start := pos st; m_end := pos y.1; m_caps := y.2 |} ::
      match s with
      | [] => []
      | c :: s' => finditer_aux r (pos y.1 - pos st - 1) (step st c s') s'
      end
  | None =>
      match s with
      | [] => []
      | c :: s' => finditer_aux r (skip - 1) (step st c s') s'
      end
  end.

Definition finditer (r : regex) (s : text) : list rmatch :=
  finditer_aux r 0 {| pos := 0; prev := None; rest := s |} s.

(** [pattern.search(s)] *)
Definition re_search (r : regex) (s : text) : option rmatch :=
  head (finditer r s).

(** [match.group(0)] *)
Definition group0 (s : text) (m : rmatch) : text :=
  slice s (m_start m) (m_end m).

Fixpoint lookup_cap (g : nat) (caps : captures) : option (nat * nat) :=
  match caps with
  | [] => None
  | (k, span) :: caps' => if k =? g then Some span else lookup_cap g caps'
  end.

(** [match.group(g)]: [None] when the group took no part in the match *)
Definition group (s : text) (m : rmatch) (g : nat) : option text :=
  (fun span : nat * nat => slice s span.1 span.2) <$> lookup_cap g (m_caps m).

(** [match.groups()] of a pattern with [n] groups *)
Definition groups (s : text) (m : rmatch) (n : nat) : list (option text) :=
  group s m <$> seq 1 n.

(** The pieces of [s] between consecutive matches *)
Fixpoint split_spans (s : text) (cur : nat) (ms : list rmatch) : list text :=
  match ms with
  | [] => [drop cur s]
  | m :: ms' => slice s cur (m_start m) :: split_spans s (m_end m) ms'
  end.

(** [re.split(r, s)] for a pattern without groups *)
Definition re_split (r : regex) (s : text) : list text :=
  split_spans s 0 (finditer r s).

(** [re.sub(r, repl, s)] for a literal replacement *)
Definition re_sub (r : regex) (repl : text) (s : text) : text :=
  join repl (re_split r s).

(** Pattern building blocks *)
Definition seq_of (rs : list regex) : regex := foldr Seq Eps rs.
Definition is_char (c : char) : char -> bool := N.eqb c.
Arguments is_char c%_N _%_N.
Definition one_of (cs : text) : char -> bool := fun c => mem_char c cs.
Definition dot : char -> bool := fun c => negb (c =? LF)%N.
Definition any_char : char -> bool := fun _ => true.
Definition lit (s : text) : regex := seq_of (Chr <$> (is_char <$> s)).
Definition star (p : char -> bool) : regex := Rep true 0 None p.
Definition plus (p : char -> bool) : regex := Rep true 1 None p.
Definition opt (p : char -> bool) : regex := Rep true 0 (Some 1) p.
Definition lazy_plus (p : char -> bool) : regex := Rep false 1 None p.
Fixpoint alts (r : regex) (rs : list regex) : regex :=
  match rs with
  | [] => r
  | r' :: rs' => Alt r (alts r' rs')
  end.

End Regex.

Export Regex.

(** ** QAParser ([parsers/qa_parser.py]) *)

Module QAParser.

(** Answer-start patterns, all compiled with [re.MULTILINE] *)
Definition answer_punct : text := of_string ".:" ++ [0x3001; 0xff1a]%N.

Definition answer_start_patterns : list regex :=
  [ (* ^[Aa]\s*[\.、:：]\s* *)
    seq_of [Bol; Chr (one_of (of_string "Aa")); star isspace;
            Chr (one_of answer_punct); star isspace];
    (* ^答\s*[\.、:：]\s* *)
    seq_of [Bol; Chr (is_char 0x7b54); star isspace;
            Chr (one_of answer_punct); star isspace];
    (* ^【答案?】\s* *)
    seq_of [Bol; Chr (is_char 0x3010); Chr (is_char 0x7b54); opt (is_char 0x6848);
            Chr (is_char 0x3011); star isspace];
    (* ^解[答析]\s*[\.、:：]?\s* *)
    seq_of [Bol; Chr (is_char 0x89e3); Chr (one_of [0x7b54; 0x6790]%N);
            star isspace; opt (one_of answer_punct); star isspace] ].

Definition _clean_answer_text (s : text) : text :=
  let s := fold_left (fun s pattern => re_sub pattern [] s) answer_start_patterns s in
  let s := lstrip_by (is_char LF) s in
  strip s.







(** [text.replace('\r\n', '\n')] *)
Fixpoint replace_crlf (s : text) : text :=
  match s with
  | 13%N :: ((10%N :: _) as s') => replace_crlf s'
  | c :: s' => c :: replace_crlf s'
  | [] => []
  end.

(** [text.replace('\r', '\n')] *)
Definition replace_cr (s : text) : text :=
  (fun c => if (c =? 13)%N then LF else c) <$> s.

Definition _normalize_text (s : text) : text :=
  let s := replace_cr (replace_crlf s) in
  let s := re_sub (Rep true 3 None (is_char LF)) [LF; LF] s in
  strip s.

(** The [QAPair(...)] built in the merging branch of [merge_short_qas]:
    [current] keeps its question and takes the question and answer of
    [qa] as further answer text. *)
Definition absorb_next (current qa : QAPair.t) : QAPair.t :=
  {| QAPair.question := QAPair.question current;
     QAPair.answer :=
       QAPair.answer current ++ [LF; LF] ++ QAPair.question qa
         ++ [LF] ++ QAPair.answer qa;
     QAPair.question_num := QAPair.question_num current;
     QAPair.source_file := QAPair.source_file current;
     QAPair.page_num := QAPair.page_num current;
     QAPair.start_pos := QAPair.start_pos current;
     QAPair.end_pos := QAPair.end_pos qa |}.

(** The loop of [merge_short_qas] once [current] is set *)
Fixpoint merge_loop (min_length : nat) (current : QAPair.t) (qa_pairs : list QAPair.t)
  : list QAPair.t :=
  match qa_pairs with
  | [] => [current]
  | qa :: rest =>
      if QAPair.char_count current <? min_length
      then merge_loop min_length (absorb_next current qa) rest
      else current :: merge_loop min_length qa rest
  end.

Definition merge_short_qas (qa_pairs : list QAPair.t) (min_length : nat)
  : list QAPair.t :=
  match qa_pairs with
  | [] => []
  | qa :: rest => merge_loop min_length qa rest
  end.

(** The post-pass as the design document words it: a short pair is folded
    into the pair that follows it, whose question is kept and whose answer
    receives the short pair's question and answer as extra text. *)
Definition fold_into_next (short next : QAPair.t) : QAPair.t :=
  {| QAPair.question := QAPair.question next;
     QAPair.answer :=
       QAPair.answer next ++ [LF; LF] ++ QAPair.question short
         ++ [LF] ++ QAPair.answer short;
     QAPair.question_num := QAPair.question_num next;
     QAPair.source_file := QAPair.source_file next;
     QAPair.page_num := QAPair.page_num next;
     QAPair.start_pos := QAPair.start_pos short;
     QAPair.end_pos := QAPair.end_pos next |}.

Fixpoint merge_spec_loop (min_length : nat) (current : QAPair.t)
  (qa_pairs : list QAPair.t) : list QAPair.t :=
  match qa_pairs with
  | [] => [current]
  | next :: rest =>
      if QAPair.char_count current <? min_length
      then merge_spec_loop min_length (fold_into_next current next) rest
      else current :: merge_spec_loop min_length next rest
  end.

Definition merge_short_qas_spec (qa_pairs : list QAPair.t) (min_length : nat)
  : list QAPair.t :=
  match qa_pairs with
  | [] => []
  | qa :: rest => merge_spec_loop min_length qa rest
  end.

(** *** Parsing strategies

    In the quoted patterns a space is written between a star and a
    closing parenthesis. *)

(** A question position found by the marker scan (the dict appended to
    [question_positions]) *)
Record qpos := {
  qp_start : nat;
  qp_end : nat;
  qp_num : option Z;
  qp_question : text;
  qp_question_text : text;
}.

(** A compiled pattern with its number of capture groups *)
Record qpattern := { q_regex : regex; q_groups : nat }.

Fixpoint insert_by_start (x : qpos) (l : list qpos) : list qpos :=
  match l with
  | [] => [x]
  | y :: l' =>
      if qp_start x <? qp_start y then x :: l
      else y :: insert_by_start x l'
  end.

(** [question_positions.sort(key=lambda x: x['start'])]: a stable sort *)
Definition sort_by_start (l : list qpos) : list qpos :=
  fold_left (fun acc x => insert_by_start x acc) l [].

(** The loop that drops a position starting inside the last retained
    match; [last_end] starts at [-1]. *)
Fixpoint unique_loop (last_end : Z) (l : list qpos) : list qpos :=
  match l with
  | [] => []
  | p :: l' =>
      if (last_end <=? Z.of_nat (qp_start p))%Z
      then p :: unique_loop (Z.of_nat (qp_end p)) l'
      else unique_loop last_end l'
  end.

(** The loop over [unique_positions] that builds the pairs *)
Fixpoint pairs_loop (s : text) (l : list qpos) : list QAPair.t :=
  match l with
  | [] => []
  | p :: l' =>
      let answer_start := qp_end p in
      let answer_end :=
        match l' with
        | next :: _ => qp_start next
        | [] => length s
        end in
      let answer_text := strip (slice s answer_start answer_end) in
      let answer_text := _clean_answer_text answer_text in
      match answer_text with
      | [] => pairs_loop s l'
      | _ =>
          {| QAPair.question := qp_question p;
             QAPair.answer := answer_text;
             QAPair.question_num := qp_num p;
             QAPair.source_file := None;
             QAPair.page_num := None;
             QAPair.start_pos := qp_start p;
             QAPair.end_pos := answer_end |} :: pairs_loop s l'
      end
  end.

(** Loop state of [_parse_by_paragraphs] *)
Record para_state := {
  ps_pairs : list QAPair.t;
  ps_question : option text;
  ps_answer_parts : list text;
  ps_start : nat;
  ps_position : nat;
}.

(** [if current_question and current_answer_parts: qa_pairs.append(...)] *)
Definition flush_pair (st : para_state) : list QAPair.t :=
  match ps_question st, ps_answer_parts st with
  | Some q, _ :: _ =>
      ps_pairs st ++
      [ {| QAPair.question := q;
           QAPair.answer := join [LF; LF] (ps_answer_parts st);
           QAPair.question_num := None;
           QAPair.source_file := None;
           QAPair.page_num := None;
           QAPair.start_pos := ps_start st;
           QAPair.end_pos := ps_position st |} ]
  | _, _ => ps_pairs st
  end.

Section Parser.

(** Unicode tables of the interpreter: the value of a decimal digit
    (the class [\d], which [int] accepts), [str.isdigit] on one
    character, and the class [\w]. *)
Variable decimal_value : char -> option N.
Variable isdigit_char : char -> bool.
Variable isword : char -> bool.

Definition digit (c : char) : bool :=
  match decimal_value c with Some _ => true | None => false end.

(** [sys.get_int_max_str_digits()]: the longest string of decimal digits
    that [int] converts, CPython's default *)
Definition int_max_str_digits : nat := 4300.

(** [int(s)] on a string of digits; [None] stands for [ValueError], which
    [int] raises on the empty string, on a character that is no decimal
    digit and on more than [int_max_str_digits] digits. *)
Definition py_int (s : text) : option Z :=
  match s with
  | [] => None
  | _ =>
      if int_max_str_digits <? length s then None
      else
        fold_left (fun acc c =>
                     n ← acc; d ← decimal_value c; Some (10 * n + Z.of_N d)%Z)
                  s (Some 0%Z)
  end.

(** [s.isdigit()] *)
Definition str_isdigit (s : text) : bool :=
  match s with
  | [] => false
  | _ => forallb isdigit_char s
  end.

Definition num_punct : text := [0x2e; 0x3001; 0xff1a; 0x3a]%N.
Definition qmark : text := [0x3f; 0xff1f]%N.

Definition question_keywords : list text :=
  [ [0x4ec0; 0x4e48]; [0x6709; 0x4ec0; 0x4e48]; [0x6709; 0x54ea; 0x4e9b];
    [0x662f; 0x4ec0; 0x4e48]; [0x5982; 0x4f55]; [0x600e; 0x4e48];
    [0x600e; 0x6837]; [0x4e3a; 0x4ec0; 0x4e48]; [0x662f; 0x5426];
    [0x533a; 0x522b]; [0x4f18; 0x7f3a; 0x70b9]; [0x7279; 0x70b9];
    [0x539f; 0x7406]; [0x4f5c; 0x7528]; [0x6d41; 0x7a0b]; [0x6b65; 0x9aa4];
    [0x6982; 0x5ff5]; [0x5b9a; 0x4e49]; [0x65b9; 0x6cd5]; [0x539f; 0x56e0] ]%N.

Definition question_patterns : list qpattern :=
  [ (* ^#{1,4}\s*(\d+)[\.、：:]?\s*(.+)$ *)
    {| q_regex :=
         seq_of [Bol; Rep true 1 (Some 4) (is_char 0x23); star isspace;
                 Group 1 (plus digit); opt (one_of num_punct); star isspace;
                 Group 2 (plus dot); Eol];
       q_groups := 2 |};
    (* ^#{1,6}\s*(.+?[\?？])\s*$ *)
    {| q_regex :=
         seq_of [Bol; Rep true 1 (Some 6) (is_char 0x23); star isspace;
                 Group 1 (Seq (lazy_plus dot) (Chr (one_of qmark)));
                 star isspace; Eol];
       q_groups := 1 |};
    (* ^(\d+)[\.、：:]\s*(.+?)(?:\?|？|$) *)
    {| q_regex :=
         seq_of [Bol; Group 1 (plus digit); Chr (one_of num_punct); star isspace;
                 Group 2 (lazy_plus dot);
                 alts (Chr (is_char 0x3f)) [Chr (is_char 0xff1f); Eol]];
       q_groups := 2 |};
    (* ^[Qq]\s*(\d* )[\.、：:]?\s*(.+)$ *)
    {| q_regex :=
         seq_of [Bol; Chr (one_of (of_string "Qq")); star isspace;
                 Group 1 (star digit); opt (one_of num_punct); star isspace;
                 Group 2 (plus dot); Eol];
       q_groups := 2 |};
    (* ^问\s*(\d* )[\.、：:]?\s*(.+)$ *)
    {| q_regex :=
         seq_of [Bol; Chr (is_char 0x95ee); star isspace;
                 Group 1 (star digit); opt (one_of num_punct); star isspace;
                 Group 2 (plus dot); Eol];
       q_groups := 2 |};
    (* ^【[问题]*(\d* )】\s*(.+)$ *)
    {| q_regex :=
         seq_of [Bol; Chr (is_char 0x3010); star (one_of [0x95ee; 0x9898]%N);
                 Group 1 (star digit); Chr (is_char 0x3011); star isspace;
                 Group 2 (plus dot); Eol];
       q_groups := 2 |};
    (* ^\*\*(\d+)[\.、]\s*(.+?)\*\* *)
    {| q_regex :=
         seq_of [Bol; lit (of_string "**"); Group 1 (plus digit);
                 Chr (one_of [0x2e; 0x3001]%N); star isspace;
                 Group 2 (lazy_plus dot); lit (of_string "**")];
       q_groups := 2 |};
    (* ^\s*[-*]\s*(.+?[\?？])\s*$ *)
    {| q_regex :=
         seq_of [Bol; star isspace; Chr (one_of (of_string "-*")); star isspace;
                 Group 1 (Seq (lazy_plus dot) (Chr (one_of qmark)));
                 star isspace; Eol];
       q_groups := 1 |};
    (* ^(?=.{2,120}$).*(?:...)\s*$ *)
    {| q_regex :=
         seq_of [Bol; Look (Seq (Rep true 2 (Some 120) dot) Eol); star dot;
                 match lit <$> question_keywords with
                 | [] => Eps
                 | k :: ks => alts k ks
                 end;
                 star isspace; Eol];
       q_groups := 0 |} ].

(** [[一-十\d]] *)
Definition step_numeral (c : char) : bool := in_range 0x4e00 0x5341 c || digit c.

(** [step_marker_pattern], compiled with [re.IGNORECASE] (under which
    [s] also matches U+017F) and used through [.match] *)
Definition step_marker_pattern : regex :=
  Seq Sos
    (alts
       (seq_of [Chr (is_char 0x7b2c); plus step_numeral; Chr (is_char 0x6b65)])
       [ seq_of [lit [0x6b65; 0x9aa4]%N; star isspace; plus step_numeral];
         seq_of [Chr (one_of [0x73; 0x53; 0x17f]%N); Chr (one_of (of_string "tT"));
                 Chr (one_of (of_string "eE")); Chr (one_of (of_string "pP"));
                 star isspace; plus digit] ]).

(** The body of the loop over the matches of one pattern.  The outer
    [option] is [None] when the Python code raises; the inner one is
    [None] when the match is skipped by [continue]. *)
Definition position_of_match (s : text) (p : qpattern) (m : rmatch)
  : option (option qpos) :=
  let '(num_str, question_text) :=
    match groups s m (q_groups p) with
    | g1 :: g2 :: _ => (g1, g2)
    | [g1] => (Some [], g1)
    | [] => (Some [], Some [])
    end in
  question_num ←
    match num_str with
    | Some ns => if str_isdigit ns then Some <$> py_int ns else Some None
    | None => Some None
    end;
  question_text ← question_text;
  match re_match step_marker_pattern question_text with
  | Some _ => Some None
  | None =>
      Some (Some {| qp_start := m_start m;
                    qp_end := m_end m;
                    qp_num := question_num;
                    qp_question := strip (group0 s m);
                    qp_question_text := strip question_text |})
  end.

(** The two nested loops that fill [question_positions] *)
Definition collect_positions (s : text) : option (list qpos) :=
  per_pattern ←
    mapM (fun p =>
            found ← mapM (position_of_match s p) (finditer (q_regex p) s);
            Some (omap id found))
         question_patterns;
  Some (concat per_pattern).

Definition _parse_by_question_markers (s : text) : option (list QAPair.t) :=
  question_positions ← collect_positions s;
  match question_positions with
  | [] => Some []
  | _ =>
      let question_positions := sort_by_start question_positions in
      let unique_positions := unique_loop (-1) question_positions in
      Some (pairs_loop s unique_positions)
  end.

(** [^(#{1,4}\s*\d*[\.、,，]?\s*.+?)$\s*```[\w]*\s*(.+?)```] with
    [re.MULTILINE | re.DOTALL] *)
Definition code_block_pattern : regex :=
  seq_of [Bol;
          Group 1 (seq_of [Rep true 1 (Some 4) (is_char 0x23); star isspace;
                           star digit;
                           opt (one_of [0x2e; 0x3001; 0x2c; 0xff0c]%N);
                           star isspace; lazy_plus any_char]);
          Eol; star isspace; lit (of_string "```"); star isword; star isspace;
          Group 2 (lazy_plus any_char); lit (of_string "```")].

Definition _parse_by_code_blocks (s : text) : option (list QAPair.t) :=
  mapM (fun m =>
          question ← strip <$> group s m 1;
          answer ← strip <$> group s m 2;
          question_num ←
            match re_search (Group 1 (plus digit)) question with
            | Some num_match =>
                num_str ← group question num_match 1;
                Some <$> py_int num_str
            | None => Some None
            end;
          Some {| QAPair.question := question;
                  QAPair.answer := answer;
                  QAPair.question_num := question_num;
                  QAPair.source_file := None;
                  QAPair.page_num := None;
                  QAPair.start_pos := m_start m;
                  QAPair.end_pos := m_end m |})
       (finditer code_block_pattern s).

(** The test that classifies a paragraph as a question *)
Definition is_question (para : text) : bool :=
  endswith para [0x3f]%N
  || endswith para [0xff1f]%N
  || bool_decide (is_Some (re_match
        (seq_of [Sos; plus digit; Chr (one_of [0x2e; 0x3001]%N)]) para))
  || bool_decide (is_Some (re_match
        (seq_of [Sos; Rep true 1 (Some 4) (is_char 0x23); star isspace; plus digit])
        para)).

Definition para_step (st : para_state) (para : text) : para_state :=
  let para := strip para in
  match para with
  | [] =>
      {| ps_pairs := ps_pairs st; ps_question := ps_question st;
         ps_answer_parts := ps_answer_parts st; ps_start := ps_start st;
         ps_position := ps_position st + 2 |}
  | _ =>
      if is_question para then
        {| ps_pairs := flush_pair st;
           ps_question := Some para;
           ps_answer_parts := [];
           ps_start := ps_position st;
           ps_position := ps_position st + (length para + 2) |}
      else
        {| ps_pairs := ps_pairs st;
           ps_question := ps_question st;
           ps_answer_parts :=
             match ps_question st with
             | Some _ => ps_answer_parts st ++ [para]
             | None => ps_answer_parts st
             end;
           ps_start := ps_start st;
           ps_position := ps_position st + (length para + 2) |}
  end.

(** [re.split(r'\n\s*\n', text)] *)
Definition paragraph_break : regex :=
  seq_of [Chr (is_char LF); star isspace; Chr (is_char LF)].

Definition _parse_by_paragraphs (s : text) : list QAPair.t :=
  let paragraphs := re_split paragraph_break s in
  let st :=
    fold_left para_step paragraphs
      {| ps_pairs := []; ps_question := None; ps_answer_parts := [];
         ps_start := 0; ps_position := 0 |} in
  flush_pair st.

(** [parse]: the strategies in order, then the loop that fills
    [source_file] and [page_num]. *)
Definition parse (s : text) (source_file : option text) (page_num : option Z)
  : option (list QAPair.t) :=
  if is_blank s then Some []
  else
    let s := _normalize_text s in
    qa_pairs ← _parse_by_question_markers s;
    qa_pairs ←
      match qa_pairs with
      | [] => _parse_by_code_blocks s
      | _ => Some qa_pairs
      end;
    let qa_pairs :=
      match qa_pairs with
      | [] => _parse_by_paragraphs s
      | _ => qa_pairs
      end in
    Some ((fun qa =>
             {| QAPair.question := QAPair.question qa;
                QAPair.answer := QAPair.answer qa;
                QAPair.question_num := QAPair.question_num qa;
                QAPair.source_file := source_file;
                QAPair.page_num := page_num;
                QAPair.start_pos := QAPair.start_pos qa;
                QAPair.end_pos := QAPair.end_pos qa |}) <$> qa_pairs).

(** [^#{1,6}\s*(.+)$] with [re.MULTILINE] *)
Definition heading_pattern : regex :=
  seq_of [Bol; Rep true 1 (Some 6) (is_char 0x23); star isspace;
          Group 1 (plus dot); Eol].

(** The body of the loop over the headings in [parse_headings], with the
    outcomes of [position_of_match]; the dict it appends has no number. *)
Definition heading_of_match (s : text) (m : rmatch) : option (option qpos) :=
  question_text ← strip <$> group s m 1;
  match re_match step_marker_pattern question_text with
  | Some _ => Some None
  | None =>
      Some (Some {| qp_start := m_start m;
                    qp_end := m_end m;
                    qp_num := None;
                    qp_question := strip (group0 s m);
                    qp_question_text := question_text |})
  end.

(** [parse_headings]: its second loop is the loop of the marker scan,
    run on all the positions found, with no number to hand on. *)
Definition parse_headings (s : text) (source_file : option text)
  (page_num : option Z) : option (list QAPair.t) :=
  if is_blank s then Some []
  else
    let s := _normalize_text s in
    found ← mapM (heading_of_match s) (finditer heading_pattern s);
    let positions := omap id found in
    match positions with
    | [] => Some []
    | _ =>
        Some ((fun qa =>
                 {| QAPair.question := QAPair.question qa;
                    QAPair.answer := QAPair.answer qa;
                    QAPair.question_num := QAPair.question_num qa;
                    QAPair.source_file := source_file;
                    QAPair.page_num := page_num;
                    QAPair.start_pos := QAPair.start_pos qa;
                    QAPair.end_pos := QAPair.end_pos qa |})
              <$> pairs_loop s positions)
    end.

End Parser.

(** Two short pairs, as the marker scan would position them *)
Definition short_pair_1 : QAPair.t :=
  QAPair.mk (of_string "Q1") (of_string "A1") None None None 0 6.
Definition short_pair_2 : QAPair.t :=
  QAPair.mk (of_string "Q2") (of_string "A2") None None None 6 12.

End QAParser.

(** ** Chunker ([parsers/chunker.py]) *)

(** What a Python call does: return a value, raise, or still be running
    when the model's fuel is spent *)
Inductive result (A : Type) :=
| Returns (a : A)
| Raises
| NoFuel.
Arguments Returns {A} a.
Arguments Raises {A}.
Arguments NoFuel {A}.

Module Chunker.

Record ChunkerConfig := {
  max_chunk_size : nat;
  min_chunk_size : nat;
  overlap_size : nat;
}.

(** Defaults of [ChunkerConfig] in [config/settings.py] *)
Definition default_config : ChunkerConfig :=
  {| max_chunk_size := 1500; min_chunk_size := 50; overlap_size := 100 |}.

(** [f"{n:06d}"] *)
Definition pad6 (n : nat) : string :=
  let digits := NilZero.string_of_uint (Nat.to_uint n) in
  String.concat EmptyString (repeat "0"%string (6 - String.length digits))
  ++ digits.

(** [_generate_chunk_id]: the identifier and the incremented counter *)
Definition _generate_chunk_id (prefix : string) (counter : nat) : string * nat :=
  ((prefix ++ "_" ++ pad6 (S counter))%string, S counter).

(** [source_file or qa.source_file] *)
Definition source_or (source_file qa_source : option text) : option text :=
  match source_file with
  | Some (_ :: _) => source_file
  | _ => qa_source
  end.

(** Sentence terminators of [_get_overlap_text] and, with the newline,
    of [_force_split] *)
Definition terminators : text := [0x3002; 0xff01; 0xff1f; 0x2e; 0x21; 0x3f]%N.

(** [text[i]] for an integer index: [None] stands for [IndexError] *)
Definition py_index (s : text) (i : Z) : option char :=
  if (0 <=? i)%Z then s !! Z.to_nat i
  else if (- Z.of_nat (length s) <=? i)%Z then s !! Z.to_nat (Z.of_nat (length s) + i)
  else None.

(** A slice bound brought into [0 .. len(s)] *)
Definition clamp_index (s : text) (i : Z) : nat :=
  if (i <? 0)%Z then Z.to_nat (Z.max 0 (Z.of_nat (length s) + i))
  else Nat.min (Z.to_nat i) (length s).

(** [text[a:b]] for integer bounds *)
Definition py_slice (s : text) (a b : Z) : text :=
  slice s (clamp_index s a) (clamp_index s b).

(** Loop state of [_split_long_qa] *)
Record split_state := {
  ss_chunks : list Chunk.t;
  ss_content : text;
  ss_parts : list text;
  ss_counter : nat;
}.

(** Loop state of [chunk_plain_text] *)
Record plain_state := {
  pl_chunks : list Chunk.t;
  pl_content : text;
  pl_counter : nat;
}.

Section Chunking.
Variable config : ChunkerConfig.

(** The loop over the reversed sentences, left by [break] *)
Fixpoint overlap_loop (overlap : text) (sentences : list text) : text :=
  match sentences with
  | [] => overlap
  | sent :: rest =>
      if length overlap + length sent <=? overlap_size config
      then overlap_loop (sent ++ [0x3002%N] ++ overlap) rest
      else overlap
  end.

Definition _get_overlap_text (parts : list text) : text :=
  match last parts with
  | None => []
  | Some last_part =>
      if length last_part <=? overlap_size config then last_part
      else
        let sentences := re_split (Chr (one_of terminators)) last_part in
        let overlap := overlap_loop [] (rev sentences) in
        match strip overlap with
        | [] => last_chars (overlap_size config) last_part
        | stripped => stripped
        end
  end.

Definition qa_chunk (qa : QAPair.t) (source_file : option text)
  (chunk_id : string) (content answer : text)
  (metadata : list (string * meta_value)) : Chunk.t :=
  {| Chunk.chunk_id := chunk_id;
     Chunk.content := content;
     Chunk.question := Some (QAPair.question qa);
     Chunk.answer := Some answer;
     Chunk.chunk_type := "qa";
     Chunk.source_file := source_or source_file (QAPair.source_file qa);
     Chunk.page_num := QAPair.page_num qa;
     Chunk.question_num := QAPair.question_num qa;
     Chunk.metadata := metadata |}.

(** [question + "\n\n（续）\n\n"] *)
Definition continued (question : text) : text :=
  question ++ [LF; LF; 0xff08; 0x7eed; 0xff09; LF; LF]%N.

Definition split_step (qa : QAPair.t) (source_file : option text)
  (st : split_state) (para : text) : split_state :=
  let para := strip para in
  match para with
  | [] => st
  | _ =>
      let test_content := ss_content st ++ para in
      if (max_chunk_size config <? length test_content)
         && negb (bool_decide (ss_parts st = []))
      then
        let '(chunk_id, counter) := _generate_chunk_id "qa" (ss_counter st) in
        let chunk :=
          qa_chunk qa source_file chunk_id (strip (ss_content st))
            (join [LF; LF] (ss_parts st))
            [("is_split"%string, MBool true);
             ("part"%string, MInt (Z.of_nat (length (ss_chunks st) + 1)))] in
        let overlap := _get_overlap_text (ss_parts st) in
        {| ss_chunks := ss_chunks st ++ [chunk];
           ss_content := continued (QAPair.question qa) ++ overlap ++ para ++ [LF; LF];
           ss_parts := [para];
           ss_counter := counter |}
      else
        {| ss_chunks := ss_chunks st;
           ss_content := ss_content st ++ para ++ [LF; LF];
           ss_parts := ss_parts st ++ [para];
           ss_counter := ss_counter st |}
  end.

Definition _split_long_qa (qa : QAPair.t) (source_file : option text)
  (counter : nat) : list Chunk.t * nat :=
  let paragraphs := re_split QAParser.paragraph_break (QAPair.answer qa) in
  let st :=
    fold_left (split_step qa source_file) paragraphs
      {| ss_chunks := [];
         ss_content := QAPair.question qa ++ [LF; LF];
         ss_parts := [];
         ss_counter := counter |} in
  match ss_parts st with
  | [] => (ss_chunks st, ss_counter st)
  | _ =>
      let '(chunk_id, counter) := _generate_chunk_id "qa" (ss_counter st) in
      let chunk :=
        qa_chunk qa source_file chunk_id (strip (ss_content st))
          (join [LF; LF] (ss_parts st))
          [("is_split"%string, MBool (0 <? length (ss_chunks st)));
           ("part"%string,
            match ss_chunks st with
            | [] => MNone
            | _ => MInt (Z.of_nat (length (ss_chunks st) + 1))
            end)] in
      (ss_chunks st ++ [chunk], counter)
  end.

Definition chunk_qa_step (source_file : option text)
  (acc : list Chunk.t * nat) (qa : QAPair.t) : list Chunk.t * nat :=
  let '(chunks, counter) := acc in
  if max_chunk_size config <? QAPair.char_count qa then
    let '(sub_chunks, counter) := _split_long_qa qa source_file counter in
    (chunks ++ sub_chunks, counter)
  else
    let '(chunk_id, counter) := _generate_chunk_id "qa" counter in
    (chunks ++ [qa_chunk qa source_file chunk_id (QAPair.full_text qa)
                  (QAPair.answer qa) []],
     counter).

(** [chunk_qa_pairs], from and to the value of [_chunk_counter] *)
Definition chunk_qa_pairs (qa_pairs : list QAPair.t) (source_file : option text)
  (counter : nat) : list Chunk.t * nat :=
  fold_left (chunk_qa_step source_file) qa_pairs ([], counter).

Definition text_chunk (chunk_id : string) (content : text)
  (source_file : option text) (page_num : option Z)
  (metadata : list (string * meta_value)) : Chunk.t :=
  {| Chunk.chunk_id := chunk_id;
     Chunk.content := content;
     Chunk.question := None;
     Chunk.answer := None;
     Chunk.chunk_type := "text";
     Chunk.source_file := source_file;
     Chunk.page_num := page_num;
     Chunk.question_num := None;
     Chunk.metadata := metadata |}.

(** The backward search for a terminator: [n] indices from [i] down *)
Fixpoint find_boundary (s : text) (i : Z) (n : nat) : option (option Z) :=
  match n with
  | O => Some None
  | S n' =>
      c ← py_index s i;
      if mem_char c (terminators ++ [LF]) then Some (Some i)
      else find_boundary s (i - 1)%Z n'
  end.

(** The [while] loop of [_force_split], [fuel] iterations at most *)
Fixpoint force_split_loop (fuel : nat) (s : text) (source_file : option text)
  (page_num : option Z) (start : Z) (chunks : list Chunk.t) (counter : nat)
  : result (list Chunk.t * nat) :=
  if (start <? Z.of_nat (length s))%Z then
    match fuel with
    | O => NoFuel
    | S fuel' =>
        let max_size := Z.of_nat (max_chunk_size config) in
        let end_ := (start + max_size)%Z in
        let found :=
          if (end_ <? Z.of_nat (length s))%Z then
            let lower := Z.max (start + Z.of_nat (max_chunk_size config / 2)) start in
            find_boundary s end_ (Z.to_nat (end_ - lower))
          else Some None in
        match found with
        | None => Raises
        | Some boundary =>
            let end_ := match boundary with Some i => (i + 1)%Z | None => end_ end in
            let chunk_text := py_slice s start end_ in
            let '(chunk_id, counter) := _generate_chunk_id "text" counter in
            let chunk :=
              text_chunk chunk_id (strip chunk_text) source_file page_num
                [("force_split"%string, MBool true)] in
            let start :=
              if (end_ <? Z.of_nat (length s))%Z
              then (end_ - Z.of_nat (overlap_size config))%Z else end_ in
            force_split_loop fuel' s source_file page_num start
              (chunks ++ [chunk]) counter
        end
    end
  else Returns (chunks, counter).

Definition _force_split (fuel : nat) (s : text) (source_file : option text)
  (page_num : option Z) (counter : nat) : result (list Chunk.t * nat) :=
  force_split_loop fuel s source_file page_num 0 [] counter.

Definition plain_step (fuel : nat) (source_file : option text)
  (page_num : option Z) (acc : result plain_state) (para : text)
  : result plain_state :=
  match acc with
  | Returns st =>
      let para := strip para in
      match para with
      | [] => Returns st
      | _ =>
          if max_chunk_size config <? length (pl_content st) + length para then
            match pl_content st with
            | _ :: _ =>
                let '(chunk_id, counter) :=
                  _generate_chunk_id "text" (pl_counter st) in
                let chunk :=
                  text_chunk chunk_id (strip (pl_content st)) source_file page_num [] in
                let overlap :=
                  if overlap_size config <? length (pl_content st)
                  then last_chars (overlap_size config) (pl_content st)
                  else [] in
                Returns {| pl_chunks := pl_chunks st ++ [chunk];
                           pl_content := overlap ++ [LF; LF] ++ para ++ [LF; LF];
                           pl_counter := counter |}
            | [] =>
                match _force_split fuel para source_file page_num (pl_counter st) with
                | Returns (sub_chunks, counter) =>
                    Returns {| pl_chunks := pl_chunks st ++ sub_chunks;
                               pl_content := [];
                               pl_counter := counter |}
                | Raises => Raises
                | NoFuel => NoFuel
                end
            end
          else
            Returns {| pl_chunks := pl_chunks st;
                       pl_content := pl_content st ++ para ++ [LF; LF];
                       pl_counter := pl_counter st |}
      end
  | Raises => Raises
  | NoFuel => NoFuel
  end.

(** [chunk_plain_text]; [fuel] bounds each run of the loop of
    [_force_split] *)
Definition chunk_plain_text (fuel : nat) (s : text) (source_file : option text)
  (page_num : option Z) (counter : nat) : result (list Chunk.t * nat) :=
  if is_blank s then Returns ([], counter)
  else
    let paragraphs := re_split QAParser.paragraph_break s in
    match fold_left (plain_step fuel source_file page_num) paragraphs
            (Returns {| pl_chunks := []; pl_content := []; pl_counter := counter |})
    with
    | Returns st =>
        match strip (pl_content st) with
        | [] => Returns (pl_chunks st, pl_counter st)
        | stripped =>
            let '(chunk_id, counter) := _generate_chunk_id "text" (pl_counter st) in
            Returns (pl_chunks st
                       ++ [text_chunk chunk_id stripped source_file page_num []],
                     counter)
        end
    | Raises => Raises
    | NoFuel => NoFuel
    end.

(** A section of a Markdown text: its heading, if any, and its body *)
Definition md_section : Type := option text * text.

(** Loop state of the first loop of [chunk_markdown] *)
Record md_state := {
  md_sections : list md_section;
  md_title : option text;
  md_lines : list text;
}.

(** [sections.append((current_title, "\n".join(current_lines).strip()))]
    under [if current_lines] *)
Definition md_flush (st : md_state) : list md_section :=
  match md_lines st with
  | [] => md_sections st
  | _ => md_sections st ++ [(md_title st, strip (join [LF] (md_lines st)))]
  end.

Definition md_step (st : md_state) (line : text) : md_state :=
  match strip line with
  | 0x23%N :: _ =>
      {| md_sections := md_flush st;
         md_title := Some (strip line);
         md_lines := [] |}
  | _ =>
      {| md_sections := md_sections st;
         md_title := md_title st;
         md_lines := md_lines st ++ [line] |}
  end.

(** The sections [chunk_markdown] collects from a text *)
Definition markdown_sections (s : text) : list md_section :=
  md_flush (fold_left md_step (splitlines s)
              {| md_sections := []; md_title := None; md_lines := [] |}).

(** [(title + "\n\n" + body).strip() if title else body.strip()] *)
Definition section_text (sec : md_section) : text :=
  match sec.1 with
  | Some ((_ :: _) as title) => strip (title ++ [LF; LF] ++ sec.2)
  | _ => strip sec.2
  end.

(** [len(sections) == 1 and not sections[0][0]] *)
Definition md_falls_back (sections : list md_section) : bool :=
  match sections with
  | [(None, _)] | [(Some [], _)] => true
  | _ => false
  end.

(** The metadata of a forced piece of a titled section: the two keys are
    added to the dict the piece already has. *)
Definition tag_section (title : text) (c : Chunk.t) : Chunk.t :=
  {| Chunk.chunk_id := Chunk.chunk_id c;
     Chunk.content := Chunk.content c;
     Chunk.question := Chunk.question c;
     Chunk.answer := Chunk.answer c;
     Chunk.chunk_type := Chunk.chunk_type c;
     Chunk.source_file := Chunk.source_file c;
     Chunk.page_num := Chunk.page_num c;
     Chunk.question_num := Chunk.question_num c;
     Chunk.metadata :=
       Chunk.metadata c ++ [("md_title"%string, MStr title);
                            ("md_section"%string, MBool true)] |}.

Definition md_chunk_step (fuel : nat) (source_file : option text)
  (page_num : option Z) (acc : result (list Chunk.t * nat)) (sec : md_section)
  : result (list Chunk.t * nat) :=
  match acc with
  | Returns (chunks, counter) =>
      let text := section_text sec in
      match text with
      | [] => Returns (chunks, counter)
      | _ =>
          if max_chunk_size config <? length text then
            match _force_split fuel text source_file page_num counter with
            | Returns (sub_chunks, counter) =>
                let sub_chunks :=
                  match sec.1 with
                  | Some ((_ :: _) as title) => tag_section title <$> sub_chunks
                  | _ => sub_chunks
                  end in
                Returns (chunks ++ sub_chunks, counter)
            | Raises => Raises
            | NoFuel => NoFuel
            end
          else
            let '(chunk_id, counter) := _generate_chunk_id "md" counter in
            Returns (chunks ++
                     [text_chunk chunk_id text source_file page_num
                        match sec.1 with
                        | Some ((_ :: _) as title) =>
                            [("md_title"%string, MStr title)]
                        | _ => []
                        end],
                     counter)
      end
  | Raises => Raises
  | NoFuel => NoFuel
  end.

(** [chunk_markdown] *)
Definition chunk_markdown (fuel : nat) (s : text) (source_file : option text)
  (page_num : option Z) (counter : nat) : result (list Chunk.t * nat) :=
  if is_blank s then Returns ([], counter)
  else
    let sections := markdown_sections s in
    if md_falls_back sections
    then chunk_plain_text fuel s source_file page_num counter
    else fold_left (md_chunk_step fuel source_file page_num) sections
           (Returns ([], counter)).

(** [filter_short_chunks]: [min_length or self.config.min_chunk_size]
    takes the configured size for [None] and for [0]. *)
Definition filter_short_chunks (chunks : list Chunk.t) (min_length : option Z)
  : list Chunk.t :=
  let min_len :=
    match min_length with
    | None | Some 0%Z => Z.of_nat (min_chunk_size config)
    | Some n => n
    end in
  filter (fun c => (min_len <= Z.of_nat (Chunk.char_count c))%Z) chunks.

End Chunking.

(** [reset_counter]: the new value of [_chunk_counter] *)
Definition reset_counter (counter : nat) : nat := 0.

End Chunker.

(** ** Deduplicator ([quality/deduplicator.py]) *)

Module Deduplicator.

Section Dedup.

(** Library functions the hash depends on: [str.lower], the class [\w]
    of [re], and [hashlib.md5(s.encode('utf-8')).hexdigest()]. *)
Variable lower : text -> text.
Variable isword : char -> bool.
Variable md5_hexdigest : text -> string.

Definition _normalize_text (s : text) : text :=
  let s := lower s in
  let s := re_sub (plus isspace) [32%N] s in
  let s :=
    re_sub (Chr (fun c => negb (isword c || isspace c || in_range 0x4e00 0x9fff c)))
           [] s in
  strip s.

Definition _compute_hash (s : text) : string :=
  md5_hexdigest (_normalize_text s).

(** Loop state of [_exact_dedup] *)
Record dedup_state := {
  seen_hashes : gmap string Chunk.t;
  unique_chunks : list Chunk.t;
  duplicates : list (string * string);
}.

Definition dedup_init : dedup_state :=
  {| seen_hashes := ∅; unique_chunks := []; duplicates := [] |}.

Definition dedup_step (st : dedup_state) (chunk : Chunk.t) : dedup_state :=
  let content_hash := _compute_hash (Chunk.content chunk) in
  match seen_hashes st !! content_hash with
  | Some existing =>
      if length (Chunk.content existing) <? length (Chunk.content chunk) then
        {| seen_hashes := <[content_hash := chunk]> (seen_hashes st);
           unique_chunks :=
             filter (fun c => Chunk.chunk_id c ≠ Chunk.chunk_id existing)
                    (unique_chunks st) ++ [chunk];
           duplicates :=
             duplicates st ++ [(Chunk.chunk_id existing, Chunk.chunk_id chunk)] |}
      else
        {| seen_hashes := seen_hashes st;
           unique_chunks := unique_chunks st;
           duplicates :=
             duplicates st ++ [(Chunk.chunk_id chunk, Chunk.chunk_id existing)] |}
  | None =>
      {| seen_hashes := <[content_hash := chunk]> (seen_hashes st);
         unique_chunks := unique_chunks st ++ [chunk];
         duplicates := duplicates st |}
  end.

Definition _exact_dedup (chunks : list Chunk.t)
  : list Chunk.t * list (string * string) :=
  let st := fold_left dedup_step chunks dedup_init in
  (unique_chunks st, duplicates st).

(** [deduplicate]: the similarity phase is commented out in the source,
    [similar_dups] is the empty list. *)
Definition deduplicate (dedup_threshold : Q) (chunks : list Chunk.t)
  (threshold : option Q) : list Chunk.t * list (string * string) :=
  let threshold :=
    match threshold with
    | Some t => if Qeq_bool t 0 then dedup_threshold else t
    | None => dedup_threshold
    end in
  let '(chunks, exact_dups) := _exact_dedup chunks in
  let similar_dups : list (string * string) := [] in
  let all_dups := exact_dups ++ similar_dups in
  (chunks, all_dups).

(** The dict that [_extract_features] returns *)
Record features := {
  f_words : gset text;
  f_bigrams : gset (text * text);
  f_trigrams : gset (text * text * text);
  f_char_bigrams : gset text;
  f_length : nat;
}.

(** [_extract_features]: the sets are filled from consecutive words and
    from consecutive characters of the normalized text; [length] is the
    length of the text as given. *)
Definition _extract_features (s : text) : features :=
  let normalized := _normalize_text s in
  let words := str_split normalized in
  let bigrams := list_to_set (zip words (drop 1 words)) in
  let trigrams := list_to_set (zip (zip words (drop 1 words)) (drop 2 words)) in
  let char_bigrams :=
    list_to_set ((fun i => slice normalized i (i + 2))
                 <$> seq 0 (length normalized - 1)) in
  {| f_words := list_to_set words;
     f_bigrams := bigrams;
     f_trigrams := trigrams;
     f_char_bigrams := char_bigrams;
     f_length := length s |}.

(** [intersection / union if union > 0 else 0] for two sets, appended to
    [scores] when neither set is empty *)
Definition jaccard_score `{Countable A} (a b : gset A) : list Q :=
  if bool_decide (a <> ∅) && bool_decide (b <> ∅) then
    let intersection := size (a ∩ b) in
    let union := size (a ∪ b) in
    [if 0 <? union then (Z.of_nat intersection # Pos.of_nat union)%Q else 0%Q]
  else [].

Definition _compute_similarity (features1 features2 : features) : Q :=
  let scores :=
    jaccard_score (f_words features1) (f_words features2)
    ++ jaccard_score (f_char_bigrams features1) (f_char_bigrams features2)
    ++ jaccard_score (f_bigrams features1) (f_bigrams features2) in
  match scores with
  | [] => 0%Q
  | _ => (fold_right Qplus 0 scores / inject_Z (Z.of_nat (length scores)))%Q
  end.

(** [_should_keep_first].  The product [len(...) * 1.1] is a float; for
    lengths below 10^12 the comparison with an integer length has the
    value of the exact comparison written here.  A chunk's metadata is
    the list of the items of its dict. *)
Definition _should_keep_first (chunk1 chunk2 : Chunk.t) : bool :=
  let qa1 := String.eqb (Chunk.chunk_type chunk1) "qa" in
  let qa2 := String.eqb (Chunk.chunk_type chunk2) "qa" in
  let len1 := inject_Z (Z.of_nat (length (Chunk.content chunk1))) in
  let len2 := inject_Z (Z.of_nat (length (Chunk.content chunk2))) in
  if qa1 && negb qa2 then true
  else if qa2 && negb qa1 then false
  else if negb (Qle_bool len1 (len2 * (11 # 10))) then true
  else if negb (Qle_bool len2 (len1 * (11 # 10))) then false
  else if length (Chunk.metadata chunk2) <? length (Chunk.metadata chunk1) then true
  else if length (Chunk.metadata chunk1) <? length (Chunk.metadata chunk2) then false
  else true.

(** Loop state of [_similarity_dedup] *)
Record sim_state := {
  to_remove : gset string;
  sim_duplicates : list (string * string);
}.

Section Similarity.
Variable threshold : Q.

(** [chunk_features]: the features of the last chunk that carries an
    identifier are those recorded under it; every identifier looked up
    has been recorded. *)
Variable chunk_features : gmap string features.

Definition features_of (chunk : Chunk.t) : features :=
  default (_extract_features []) (chunk_features !! Chunk.chunk_id chunk).

(** The inner loop, over [chunks[i+1:]]; it is left by [break] once
    [chunk1] is removed. *)
Fixpoint sim_inner (chunk1 : Chunk.t) (others : list Chunk.t) (st : sim_state)
  : sim_state :=
  match others with
  | [] => st
  | chunk2 :: others' =>
      if bool_decide (Chunk.chunk_id chunk2 ∈ to_remove st)
      then sim_inner chunk1 others' st
      else
        let sim := _compute_similarity (features_of chunk1) (features_of chunk2) in
        if Qle_bool threshold sim then
          if _should_keep_first chunk1 chunk2 then
            sim_inner chunk1 others'
              {| to_remove := to_remove st ∪ {[ Chunk.chunk_id chunk2 ]};
                 sim_duplicates :=
                   sim_duplicates st
                   ++ [(Chunk.chunk_id chunk2, Chunk.chunk_id chunk1)] |}
          else
            {| to_remove := to_remove st ∪ {[ Chunk.chunk_id chunk1 ]};
               sim_duplicates :=
                 sim_duplicates st
                 ++ [(Chunk.chunk_id chunk1, Chunk.chunk_id chunk2)] |}
        else sim_inner chunk1 others' st
  end.

(** The outer loop, over [enumerate(chunks)] *)
Fixpoint sim_outer (chunks : list Chunk.t) (st : sim_state) : sim_state :=
  match chunks with
  | [] => st
  | chunk1 :: rest =>
      if bool_decide (Chunk.chunk_id chunk1 ∈ to_remove st)
      then sim_outer rest st
      else sim_outer rest (sim_inner chunk1 rest st)
  end.

End Similarity.

Definition _similarity_dedup (chunks : list Chunk.t) (threshold : Q)
  : list Chunk.t * list (string * string) :=
  if length chunks <=? 1 then (chunks, [])
  else
    let chunk_features :=
      fold_left (fun acc chunk =>
                   <[Chunk.chunk_id chunk :=
                       _extract_features (Chunk.content chunk)]> acc)
                chunks ∅ in
    let st :=
      sim_outer threshold chunk_features chunks
        {| to_remove := ∅; sim_duplicates := [] |} in
    (filter (fun c => Chunk.chunk_id c ∉ to_remove st) chunks,
     sim_duplicates st).

(** [content_groups[content_hash].append(chunk)] and
    [cross_file_dups[file].append(chunk_id)] on a [defaultdict(list)]: the
    keys stay in the order of their first use. *)
Fixpoint group_append {K V} `{EqDecision K} (k : K) (v : V)
  (groups : list (K * list V)) : list (K * list V) :=
  match groups with
  | [] => [(k, [v])]
  | (k', vs) :: rest =>
      if decide (k' = k) then (k', vs ++ [v]) :: rest
      else (k', vs) :: group_append k v rest
  end.

(** [c.source_file] when it is neither [None] nor empty *)
Definition file_of (c : Chunk.t) : option text :=
  match Chunk.source_file c with
  | Some ((_ :: _) as file) => Some file
  | _ => None
  end.

(** The body of the loop over [content_groups.items()] *)
Definition cross_file_step (cross_file_dups : list (text * list string))
  (item : string * list Chunk.t) : list (text * list string) :=
  let group := item.2 in
  if length group <=? 1 then cross_file_dups
  else
    let files : gset text := list_to_set (omap file_of group) in
    if 1 <? size files then
      fold_left (fun dups chunk =>
                   match file_of chunk with
                   | Some file => group_append file (Chunk.chunk_id chunk) dups
                   | None => dups
                   end)
                group cross_file_dups
    else cross_file_dups.

(** [find_duplicates_across_files]: the dict returned, as the list of its
    items *)
Definition find_duplicates_across_files (chunks : list Chunk.t)
  : list (text * list string) :=
  let content_groups :=
    fold_left (fun groups chunk =>
                 group_append (_compute_hash (Chunk.content chunk)) chunk groups)
              chunks [] in
  fold_left cross_file_step content_groups [].

End Dedup.

End Deduplicator.

(** ** Tables for running examples

    The interpreter's Unicode tables and the digest are parameters of the
    parser and of the deduplicator.  The examples below run them with
    these stand-ins, which agree with the interpreter on ASCII text. *)

Module Examples.

Definition ascii_decimal_value (c : char) : option N :=
  if in_range 0x30 0x39 c then Some (c - 0x30)%N else None.

Definition ascii_isdigit (c : char) : bool := in_range 0x30 0x39 c.

Definition ascii_isword (c : char) : bool :=
  in_range 0x30 0x39 c || in_range 0x41 0x5a c || in_range 0x61 0x7a c
  || (c =? 0x5f)%N.

Definition ascii_lower (s : text) : text :=
  (fun c => if in_range 0x41 0x5a c then (c + 32)%N else c) <$> s.

(** Stand-in for the MD5 digest: the text itself, as a string *)
Definition example_digest (s : text) : string :=
  string_of_list_ascii (ascii_of_N <$> s).

Definition unstructured_text : text :=
  of_string "hello world" ++ [LF; LF] ++ of_string "nothing here".

Definition chunk_a : Chunk.t :=
  Chunk.mk "text_000001" (of_string "same content") None None "text" None None None [].
Definition chunk_b : Chunk.t :=
  Chunk.mk "text_000002" (of_string "same content") None None "text" None None None [].

(** A longer chunk whose content normalizes to that of [chunk_a], and a
    chunk with another content *)
Definition chunk_a_longer : Chunk.t :=
  Chunk.mk "text_000003" (of_string "Same  content!") None None "text" None None None [].
Definition chunk_other : Chunk.t :=
  Chunk.mk "text_000004" (of_string "other content") None None "text" None None None [].

(** A question whose number has 4301 digits *)
Definition long_number_question : text :=
  repeat 0x31%N 4301 ++ of_string ". What?" ++ [LF] ++ of_string "ans".

(** Two numbered questions with their answers *)
Definition two_questions : text :=
  of_string "1. What is it?" ++ [LF] ++ of_string "a thing" ++ [LF]
  ++ of_string "2. Why?" ++ [LF] ++ of_string "because".


(** A short paragraph followed by one of 2000 characters *)
Definition oversized_paragraph_text : text :=
  of_string "ab" ++ [LF; LF] ++ repeat 0x63%N 2000.

(** A pair whose answer is a single paragraph of 4000 characters *)
Definition oversized_qa : QAPair.t :=
  QAPair.mk (of_string "Q?") (repeat 0x63%N 4000) None None None 0 4004.

(** Two paragraphs of ten characters under a small configuration *)
Definition small_config : Chunker.ChunkerConfig :=
  {| Chunker.max_chunk_size := 10; Chunker.min_chunk_size := 1;
     Chunker.overlap_size := 3 |}.
Definition two_full_paragraphs : text :=
  repeat 0x61%N 10 ++ [LF; LF] ++ repeat 0x62%N 10.

(** A pair with that text as its answer *)
Definition two_paragraph_qa : QAPair.t :=
  QAPair.mk (of_string "Q?") two_full_paragraphs None None None 0 26.

(** A last part that ends with a sentence of three characters *)
Definition two_sentences : text := of_string "xxxx.abc".

(** A configuration whose overlap is its maximal chunk size *)
Definition full_overlap_config : Chunker.ChunkerConfig :=
  {| Chunker.max_chunk_size := 4; Chunker.min_chunk_size := 1;
     Chunker.overlap_size := 4 |}.

(** Two lines without a heading *)
Definition two_lines : text := of_string "hello" ++ [LF] ++ of_string "world".

(** A step heading and a heading that is a question to [parse_headings] *)
Definition step_and_title : text :=
  of_string "# Step 1" ++ [LF] ++ of_string "run it" ++ [LF]
  ++ of_string "# Title" ++ [LF] ++ of_string "body".

End Examples.

(** ** Vocabulary of the properties *)

(** [b] is reached from [a] by consuming characters *)
Definition reaches (a b : mstate) : Prop :=
  exists w, rest a = w ++ rest b /\ pos b = pos a + length w.

(** The matches of a scan lie inside the subject, one after the other. *)
Fixpoint chain (lo hi : nat) (ms : list rmatch) : Prop :=
  match ms with
  | [] => True
  | m :: ms' =>
      lo <= m_start m /\ m_start m <= m_end m /\ m_end m <= hi
      /\ chain (m_end m) hi ms'
  end.

(** The loop invariant of [_exact_dedup]: the retained chunks have
    pairwise different hashes, and each is the chunk recorded for its
    hash. *)
Definition dedup_inv (key : Chunk.t -> string) (st : Deduplicator.dedup_state) : Prop :=
  NoDup (key <$> Deduplicator.unique_chunks st)
  /\ forall c, c ∈ Deduplicator.unique_chunks st ->
               Deduplicator.seen_hashes st !! key c = Some c.

(** Pairs that lie one after the other without overlapping *)
Definition well_placed (l : list QAPair.t) : Prop :=
  Forall (fun p => QAPair.start_pos p <= QAPair.end_pos p) l
  /\ StronglySorted (fun p q => QAPair.end_pos p <= QAPair.start_pos q) l.

(** The same, read from the front of the list, all pairs starting at or
    after [lo] *)
Fixpoint pchain (lo : nat) (l : list QAPair.t) : Prop :=
  match l with
  | [] => True
  | p :: l' =>
      lo <= QAPair.start_pos p /\ QAPair.start_pos p <= QAPair.end_pos p
      /\ pchain (QAPair.end_pos p) l'
  end.

(** Question positions inside a text of length [len], one after the
    other, all starting at or after [lo] *)
Fixpoint qchain (len : nat) (lo : Z) (l : list QAParser.qpos) : Prop :=
  match l with
  | [] => True
  | p :: l' =>
      (lo <= Z.of_nat (QAParser.qp_start p))%Z
      /\ QAParser.qp_start p <= QAParser.qp_end p
      /\ QAParser.qp_end p <= len
      /\ qchain len (Z.of_nat (QAParser.qp_end p)) l'
  end.

(** Loop invariant of [_parse_by_paragraphs] *)
Definition para_inv (st : QAParser.para_state) : Prop :=
  well_placed (QAParser.ps_pairs st)
  /\ (forall p, p ∈ QAParser.ps_pairs st -> QAPair.end_pos p <= QAParser.ps_start st)
  /\ QAParser.ps_start st <= QAParser.ps_position st.

(** [st] is a position of the subject [s] *)
Definition state_in (s : text) (st : mstate) : Prop :=
  rest st = drop (pos st) s /\ pos st <= length s.

(** [m] is the first match of [r] at some position of [s] *)
Definition match_of (r : regex) (s : text) (m : rmatch) : Prop :=
  exists st y, state_in s st /\ head (run r (st, [])) = Some y
               /\ m = RMatch (pos st) (pos y.1) y.2.

(** Every successful match of [r] sets group [g] *)
Fixpoint sets_group (g : nat) (r : regex) : bool :=
  match r with
  | Group n r' => (n =? g) || sets_group g r'
  | Seq r1 r2 => sets_group g r1 || sets_group g r2
  | Alt r1 r2 => sets_group g r1 && sets_group g r2
  | Look r' => sets_group g r'
  | _ => false
  end.

(** Group [g] of [r] is a repetition of characters of class [P] *)
Fixpoint group_class (g : nat) (P : char -> bool) (r : regex) : Prop :=
  match r with
  | Group n r' =>
      if n =? g then
        match r' with
        | Rep _ _ _ p => forall c, p c = true -> P c = true
        | _ => False
        end
      else group_class g P r'
  | Seq r1 r2 | Alt r1 r2 => group_class g P r1 /\ group_class g P r2
  | Look r' => group_class g P r'
  | _ => True
  end.

(** The span recorded for group [g], if any, covers characters of class
    [P] only *)
Definition caps_in_class (s : text) (g : nat) (P : char -> bool)
  (caps : captures) : Prop :=
  forall a b, lookup_cap g caps = Some (a, b) ->
              a <= b /\ b <= length s /\ forallb P (slice s a b) = true.

(** What the marker scan relies on for a pattern with its group count *)
Definition pattern_ok (digit : char -> bool) (p : QAParser.qpattern) : Prop :=
  match QAParser.q_groups p with
  | 0 => True
  | 1 => sets_group 1 (QAParser.q_regex p) = true
  | 2 => sets_group 2 (QAParser.q_regex p) = true
         /\ group_class 1 digit (QAParser.q_regex p)
  | _ => False
  end.




(** Loop invariant of [chunk_plain_text] when no paragraph is longer than
    [max_chunk_size]: the chunks emitted so far and the text being
    accumulated stay within [max_chunk_size + overlap_size + 2]. *)
Definition plain_inv (config : Chunker.ChunkerConfig) (st : Chunker.plain_state)
  : Prop :=
  let bound :=
    Chunker.max_chunk_size config + Chunker.overlap_size config + 2 in
  Forall (fun c => length (Chunk.content c) <= bound) (Chunker.pl_chunks st)
  /\ (Chunker.pl_content st = []
      \/ exists body, Chunker.pl_content st = body ++ [LF; LF]
                      /\ length body <= bound).

(** The number a string of decimal digits denotes, leading zeros allowed *)
Definition read_number (s : string) : option nat :=
  Nat.of_uint <$> NilEmpty.uint_of_string s.

(** The prefixes under which the chunker gives out identifiers *)
Definition id_prefixes : list string := ["qa"; "text"; "md"]%string.

(** The chunks carry, in order, the identifiers that [_generate_chunk_id]
    gives out from the counter value [counter] on, each under one of
    [prefixes]. *)
Definition numbered (prefixes : list string) (counter : nat)
  (chunks : list Chunk.t) : Prop :=
  forall i c, chunks !! i = Some c ->
    exists prefix, prefix ∈ prefixes
      /\ Chunk.chunk_id c = (Chunker._generate_chunk_id prefix (counter + i)).1.

(** The chunk is a piece made by [_force_split]: its metadata begins
    with [force_split: True]. *)
Definition forced_piece (c : Chunk.t) : bool :=
  match Chunk.metadata c with
  | (key, MBool true) :: _ => String.eqb key "force_split"
  | _ => false
  end.

(** The chunks that [chunk_markdown] makes of [sections]: a forced piece
    carries an identifier under [text] and comes from a section longer
    than [max_chunk_size]; any other chunk carries an identifier under
    [md] and holds the text of a section that fits. *)
Definition md_numbered (config : Chunker.ChunkerConfig)
  (sections : list Chunker.md_section) (counter : nat)
  (chunks : list Chunk.t) : Prop :=
  forall i c, chunks !! i = Some c ->
    Chunk.chunk_id c
    = (Chunker._generate_chunk_id (if forced_piece c then "text" else "md")
         (counter + i)).1
    /\ exists sec,
         sec ∈ sections
         /\ if forced_piece c
            then Chunker.max_chunk_size config < length (Chunker.section_text sec)
            else Chunk.content c = Chunker.section_text sec
                 /\ length (Chunker.section_text sec)
                    <= Chunker.max_chunk_size config.

(** The paragraphs of an answer that [_split_long_qa] works on: stripped,
    the blank ones left out *)
Definition kept_paragraphs (paragraphs : list text) : list text :=
  filter (fun para => para <> []) (strip <$> paragraphs).

(** What the loop of [_exact_dedup] has established once it has gone
    through the chunks [processed], whatever their identifiers *)
Definition dedup_sound (key : Chunk.t -> string) (processed : list Chunk.t)
  (st : Deduplicator.dedup_state) : Prop :=
  (forall c, c ∈ Deduplicator.unique_chunks st -> c ∈ processed)
  /\ (forall h e, Deduplicator.seen_hashes st !! h = Some e ->
        e ∈ processed /\ key e = h)
  /\ (forall a b, (a, b) ∈ Deduplicator.duplicates st ->
        exists ca cb, ca ∈ processed /\ cb ∈ processed
                      /\ Chunk.chunk_id ca = a /\ Chunk.chunk_id cb = b
                      /\ key ca = key cb)
  /\ length (Deduplicator.duplicates st) <= length processed.

(** What it has established when the identifiers of [processed] are
    pairwise different *)
Definition dedup_full (key : Chunk.t -> string) (processed : list Chunk.t)
  (st : Deduplicator.dedup_state) : Prop :=
  (forall c, c ∈ Deduplicator.unique_chunks st -> c ∈ processed)
  /\ (forall h e, Deduplicator.seen_hashes st !! h = Some e ->
        e ∈ Deduplicator.unique_chunks st /\ key e = h)
  /\ NoDup (Chunk.chunk_id <$> Deduplicator.unique_chunks st)
  /\ (forall c, c ∈ processed ->
        exists c', Deduplicator.seen_hashes st !! key c = Some c'
                   /\ length (Chunk.content c) <= length (Chunk.content c'))
  /\ length (Deduplicator.unique_chunks st)
     + length (Deduplicator.duplicates st) = length processed
  /\ (forall a b, (a, b) ∈ Deduplicator.duplicates st ->
        a ∈ Chunk.chunk_id <$> processed
        /\ a ∉ Chunk.chunk_id <$> Deduplicator.unique_chunks st).

(** The value [v] is listed under the key [k] of a dict of lists, given
    as the list of its items *)
Definition listed {K V} (groups : list (K * list V)) (k : K) (v : V) : Prop :=
  exists vs, (k, vs) ∈ groups /\ v ∈ vs.

(** The number of characters of class [p] at the front of a text *)
Fixpoint prefix_len (p : char -> bool) (s : text) : nat :=
  match s with
  | c :: s' => if p c then S (prefix_len p s') else 0
  | [] => 0
  end.

(** A text with every maximal run of [lo] or more characters of class
    [p] replaced by [repl]; [skip] characters are still to be passed over. *)
Fixpoint collapse_aux (p : char -> bool) (lo : nat) (repl : text) (skip : nat)
  (s : text) : text :=
  match s with
  | [] => []
  | c :: s' =>
      match skip with
      | S k => collapse_aux p lo repl k s'
      | O =>
          if lo <=? prefix_len p s
          then repl ++ collapse_aux p lo repl (prefix_len p s - 1) s'
          else c :: collapse_aux p lo repl 0 s'
      end
  end.

Definition collapse (p : char -> bool) (lo : nat) (repl : text) (s : text)
  : text :=
  collapse_aux p lo repl 0 s.

(** No run of characters of class [p] in [s] is [lo] long *)
Definition short_runs (p : char -> bool) (lo : nat) (s : text) : Prop :=
  forall i, prefix_len p (drop i s) < lo.

(** * Properties *)

(** ** Facts about text operations *)

Section TextFacts.

Lemma lstrip_by_length p s : length (lstrip_by p s) <= length s.
Proof.
  induction s as [|c s IH]; simpl; [lia|].
  destruct (p c); simpl; lia.
Qed.

Lemma rstrip_by_length p s : length (rstrip_by p s) <= length s.
Proof.
  unfold rstrip_by. rewrite length_rev.
  etransitivity; [apply lstrip_by_length|]. by rewrite length_rev.
Qed.

Lemma strip_length s : length (strip s) <= length s.
Proof.
  unfold strip. etransitivity; [apply rstrip_by_length|apply lstrip_by_length].
Qed.

Lemma rstrip_by_app_true p s c :
  p c = true -> rstrip_by p (s ++ [c]) = rstrip_by p s.
Proof.
  intros Hc. unfold rstrip_by. rewrite rev_app_distr. simpl. by rewrite Hc.
Qed.

End TextFacts.

(** ** QualityValidator *)

Section ValidatorProps.
Import QualityValidator.

(** C6. The validity decision of [validate_chunk]: blank content gives an
    invalid result whose only score is [overall = 0]; otherwise the
    result is valid exactly when there is no issue or the overall score
    is at least 0.6, so a chunk without issues is valid whatever its
    score. *)
Theorem validate_chunk_decision (config : QualityConfig) (chunk : Chunk.t) :
  let r := validate_chunk config chunk in
  if is_blank (Chunk.content chunk)
  then is_valid r = false
       /\ issues r = [IssueEmpty]
       /\ scores r = {[ "overall"%string := 0%Q ]}
  else (exists overall, scores r !! "overall"%string = Some overall)
       /\ scores r !! "overall"%string
          = Some (_calculate_overall_score
                    (delete "overall"%string (scores r)) (issues r))
       /\ is_valid r
          = (bool_decide (issues r = []) || Qle_bool (6 # 10) (overall_of r))
       /\ match issues r with
          | [] => is_valid r = true
          | _ :: _ => is_valid r = Qle_bool (6 # 10) (overall_of r)
          end.
Proof.
  intros r. subst r. unfold validate_chunk.
  destruct (is_blank (Chunk.content chunk)); [done|].
  cbv zeta.
  set (iss := (if String.eqb _ _ then _ else _) : list issue).
  set (sc := <["special_char_ratio"%string:=_]> _).
  cbn [is_valid issues scores]. unfold overall_of. cbn [scores].
  rewrite lookup_insert_eq. cbn [default].
  assert (sc !! "overall"%string = None) as Hfresh.
  { subst sc. by rewrite !lookup_insert_ne, lookup_empty. }
  rewrite delete_insert_id by done.
  split; [eauto|]. split; [done|]. split.
  - destruct iss; done.
  - destruct iss; done.
Qed.

(** C2, as stated, fails: for the ten-character content the repetition
    ratio is not above 0.5 and the chunk is valid. *)
Lemma scenario_d_not_rejected :
  ~ (exists rep,
        scores (validate_chunk default_config scenario_d_chunk)
          !! "repetition_ratio"%string = Some rep
        /\ (5 # 10 < rep)%Q
        /\ is_valid (validate_chunk default_config scenario_d_chunk) = false).
Proof.
  intros (rep & Hrep & Hlt & Hvalid).
  vm_compute in Hvalid. discriminate.
Qed.

(** C2 (amended). Whatever its identifier, type, question and answer, a
    chunk whose content is the ten-character string is shorter than the
    20 characters from which [_check_repetition] starts to scan: its
    repetition ratio is 0, and with at most three issues its overall
    score stays at or above 0.7, so it is valid. *)
Theorem scenario_d_valid id q a ty sf pn qn md :
  let r := validate_chunk default_config (Chunk.mk id ten_a q a ty sf pn qn md) in
  scores r !! "repetition_ratio"%string = Some 0%Q
  /\ ~ (5 # 10 < 0)%Q
  /\ is_valid r = true.
Proof.
  intros r. subst r. split; [|split].
  - unfold validate_chunk. cbn [is_blank]. reflexivity.
  - by vm_compute.
  - unfold validate_chunk, _check_qa_completeness.
    cbn [Chunk.content Chunk.chunk_type Chunk.question Chunk.answer].
    change (is_blank ten_a) with false. cbv iota zeta.
    destruct (String.eqb ty "qa"); [|reflexivity].
    destruct q as [[|c1 q]|]; destruct a as [[|c2 a]|];
      try destruct (length (c1 :: q) <? 5);
      try destruct (length (c2 :: a) <? 10); reflexivity.
Qed.

End ValidatorProps.

(** ** QAParser: the [merge_short_qas] post-pass *)

Section MergeProps.
Import QAParser.

Lemma merge_loop_nonempty min_length current l :
  merge_loop min_length current l <> [].
Proof.
  revert current. induction l as [|qa l IH]; intros current; simpl; [done|].
  destruct (_ <? _); [apply IH|done].
Qed.

Lemma merge_loop_all_but_last min_length current l :
  Forall (fun p => min_length <= QAPair.char_count p)
         (removelast (merge_loop min_length current l)).
Proof.
  revert current. induction l as [|qa l IH]; intros current; simpl.
  - constructor.
  - destruct (QAPair.char_count current <? min_length) eqn:Hshort.
    + apply IH.
    + apply Nat.ltb_ge in Hshort.
      specialize (IH qa).
      destruct (merge_loop min_length qa l) eqn:Hloop.
      * by apply merge_loop_nonempty in Hloop.
      * constructor; assumption.
Qed.

(** C4, as stated, fails: the post-pass does not fold the short pair into
    the pair that follows it; the merged pair keeps the question of the
    short pair, not the question of the following one. *)
Lemma merge_short_qas_not_into_next :
  merge_short_qas [short_pair_1; short_pair_2] 50
    <> merge_short_qas_spec [short_pair_1; short_pair_2] 50
  /\ QAPair.question <$> merge_short_qas [short_pair_1; short_pair_2] 50
     = [of_string "Q1"]
  /\ QAPair.question <$> merge_short_qas_spec [short_pair_1; short_pair_2] 50
     = [of_string "Q2"].
Proof. split; [|split]; [intros H; vm_compute in H; discriminate|reflexivity..]. Qed.

(** C4 (amended). A pair whose [char_count] (question, blank line,
    answer) is below the minimum absorbs the pair that follows it: it
    keeps its own question, [question_num], [source_file] and [page_num],
    the following pair's question and answer are appended to its answer,
    and its range runs from its own [start_pos] to the [end_pos] of the
    following pair.  The merged pair is examined again, so every emitted
    pair but the last reaches the minimum. *)
Theorem merge_short_qas_absorbs (min_length : nat) :
  merge_short_qas [] min_length = []
  /\ (forall p, merge_short_qas [p] min_length = [p])
  /\ (forall p1 p2 rest,
        merge_short_qas (p1 :: p2 :: rest) min_length =
        if QAPair.char_count p1 <? min_length
        then merge_short_qas (absorb_next p1 p2 :: rest) min_length
        else p1 :: merge_short_qas (p2 :: rest) min_length)
  /\ (forall p1 p2,
        QAPair.question (absorb_next p1 p2) = QAPair.question p1
        /\ QAPair.question_num (absorb_next p1 p2) = QAPair.question_num p1
        /\ QAPair.source_file (absorb_next p1 p2) = QAPair.source_file p1
        /\ QAPair.page_num (absorb_next p1 p2) = QAPair.page_num p1
        /\ QAPair.answer (absorb_next p1 p2)
           = QAPair.answer p1 ++ [LF; LF] ++ QAPair.question p2
               ++ [LF] ++ QAPair.answer p2
        /\ QAPair.start_pos (absorb_next p1 p2) = QAPair.start_pos p1
        /\ QAPair.end_pos (absorb_next p1 p2) = QAPair.end_pos p2)
  /\ (forall l,
        Forall (fun p => min_length <= QAPair.char_count p)
               (removelast (merge_short_qas l min_length))).
Proof.
  split; [reflexivity|]. split; [reflexivity|]. split.
  - intros p1 p2 rest. simpl. destruct (_ <? _); reflexivity.
  - split; [intros; repeat split|].
    intros [|p l]; simpl; [constructor|apply merge_loop_all_but_last].
Qed.

End MergeProps.

(** ** Deduplicator *)

Section DedupProps.
Import Deduplicator.

Variable lower : text -> text.
Variable isword : char -> bool.
Variable md5_hexdigest : text -> string.

Local Abbreviation key := (fun c => _compute_hash lower isword md5_hexdigest (Chunk.content c)).
Local Abbreviation dedup_inv := (dedup_inv key).
Local Abbreviation dedup_step := (dedup_step lower isword md5_hexdigest).
Local Abbreviation _exact_dedup := (_exact_dedup lower isword md5_hexdigest).
Local Abbreviation deduplicate := (deduplicate lower isword md5_hexdigest).


Lemma dedup_inv_init : dedup_inv dedup_init.
Proof. split; [constructor|]. intros c Hc. by apply elem_of_nil in Hc. Qed.

Lemma dedup_step_inv st chunk : dedup_inv st -> dedup_inv (dedup_step st chunk).
Proof.
  intros [Hnd Hseen]. unfold Deduplicator.dedup_step.
  destruct (seen_hashes st !! key chunk) as [existing|] eqn:Hlook.
  - destruct (_ <? _); [|by split].
    assert (forall c, c ∈ filter (fun c => Chunk.chunk_id c ≠ Chunk.chunk_id existing)
                            (unique_chunks st) -> key c ≠ key chunk) as Hfresh.
    { intros c [Hid Hin]%list_elem_of_filter Hkey.
      apply Hseen in Hin. rewrite Hkey, Hlook in Hin. by simplify_eq. }
    split; cbn [unique_chunks seen_hashes].
    + rewrite fmap_app. apply NoDup_app. split; [|split].
      * eapply sublist_NoDup; [exact Hnd|].
        apply fmap_sublist, sublist_filter.
      * intros h [c [-> Hc]]%list_elem_of_fmap Hh.
        apply list_elem_of_singleton in Hh. by apply Hfresh in Hc.
      * apply NoDup_singleton.
    + intros c [Hc | ->%list_elem_of_singleton]%elem_of_app.
      * rewrite lookup_insert_ne by (intros E; by apply Hfresh in Hc).
        apply list_elem_of_filter in Hc. apply Hseen, Hc.
      * by rewrite lookup_insert_eq.
  - assert (forall c, c ∈ unique_chunks st -> key c ≠ key chunk) as Hfresh.
    { intros c Hin Hkey. apply Hseen in Hin. rewrite Hkey, Hlook in Hin. done. }
    split; cbn [unique_chunks seen_hashes].
    + rewrite fmap_app. apply NoDup_app. split; [done|split].
      * intros h [c [-> Hc]]%list_elem_of_fmap Hh.
        apply list_elem_of_singleton in Hh. by apply Hfresh in Hc.
      * apply NoDup_singleton.
    + intros c [Hc | ->%list_elem_of_singleton]%elem_of_app.
      * rewrite lookup_insert_ne by (intros E; by apply Hfresh in Hc).
        by apply Hseen.
      * by rewrite lookup_insert_eq.
Qed.

Lemma dedup_fold_inv chunks st :
  dedup_inv st -> dedup_inv (fold_left dedup_step chunks st).
Proof.
  revert st. induction chunks as [|c chunks IH]; intros st Hst; simpl; [done|].
  by apply IH, dedup_step_inv.
Qed.

(** On chunks with pairwise different hashes, none of them seen before,
    the loop only appends. *)
Lemma dedup_fold_fresh chunks st :
  NoDup (key <$> chunks) ->
  (forall c, c ∈ chunks -> seen_hashes st !! key c = None) ->
  unique_chunks (fold_left dedup_step chunks st) = unique_chunks st ++ chunks
  /\ duplicates (fold_left dedup_step chunks st) = duplicates st.
Proof.
  revert st. induction chunks as [|c chunks IH]; intros st Hnd Hnone; simpl.
  - by rewrite app_nil_r.
  - rewrite fmap_cons in Hnd. apply NoDup_cons in Hnd as [Hc Hnd].
    unfold Deduplicator.dedup_step at 2 4.
    rewrite (Hnone c) by apply list_elem_of_here.
    destruct (IH ({| seen_hashes := <[key c:=c]> (seen_hashes st);
                     unique_chunks := unique_chunks st ++ [c];
                     duplicates := duplicates st |})) as [Hu Hd]; [done| |].
    + intros c' Hc'. cbn [seen_hashes].
      rewrite lookup_insert_ne.
      * apply Hnone. by apply list_elem_of_further.
      * intros E. apply Hc. rewrite E. apply list_elem_of_fmap. eauto.
    + rewrite Hu, Hd. cbn [unique_chunks duplicates].
      by rewrite <- app_assoc.
Qed.

(** C8. Exact dedup is idempotent: run on its own survivors it returns
    them unchanged, with no removed pair. *)
Theorem exact_dedup_idempotent (chunks : list Chunk.t) :
  _exact_dedup (_exact_dedup chunks).1 = ((_exact_dedup chunks).1, []).
Proof.
  unfold Deduplicator._exact_dedup. cbn [fst].
  destruct (dedup_fold_inv chunks dedup_init dedup_inv_init) as [Hnd _].
  destruct (dedup_fold_fresh
              (unique_chunks (fold_left dedup_step chunks dedup_init))
              dedup_init Hnd) as [Hu Hd].
  { intros c _. apply lookup_empty. }
  by rewrite Hu, Hd.
Qed.

(** Two chunks whose normalized contents hash alike: the longer one is
    kept, the first one on a tie, and the other is recorded as its
    duplicate. *)
Lemma exact_dedup_collision (c1 c2 : Chunk.t) :
  key c1 = key c2 ->
  _exact_dedup [c1; c2] =
  if length (Chunk.content c1) <? length (Chunk.content c2)
  then ([c2], [(Chunk.chunk_id c1, Chunk.chunk_id c2)])
  else ([c1], [(Chunk.chunk_id c2, Chunk.chunk_id c1)]).
Proof.
  intros Hkey. unfold Deduplicator._exact_dedup.
  change (fold_left dedup_step [c1; c2] dedup_init)
    with (dedup_step (dedup_step dedup_init c1) c2).
  assert (dedup_step dedup_init c1 =
          {| seen_hashes := <[key c1:=c1]> ∅;
             unique_chunks := [c1]; duplicates := [] |}) as ->.
  { unfold Deduplicator.dedup_step. cbn [dedup_init seen_hashes].
    by rewrite lookup_empty. }
  unfold Deduplicator.dedup_step. cbn [seen_hashes unique_chunks duplicates].
  rewrite <- Hkey, lookup_insert_eq.
  destruct (_ <? _); [|done].
  cbn [unique_chunks duplicates app fst snd]. f_equal.
  rewrite filter_cons. by rewrite decide_False by (intros E; by apply E).
Qed.

(** Chunks of other hashes and other identifiers leave alone what the
    loop holds for the hash [h] and for the chunks whose identifiers are
    among [ids]; the pairs they add name none of [ids]. *)
Lemma dedup_step_others h (ids : list string) st c :
  key c <> h -> Chunk.chunk_id c ∉ ids ->
  (forall k e, seen_hashes st !! k = Some e -> k <> h ->
     Chunk.chunk_id e ∉ ids) ->
  seen_hashes (dedup_step st c) !! h = seen_hashes st !! h
  /\ (forall x, Chunk.chunk_id x ∈ ids ->
        x ∈ unique_chunks (dedup_step st c) <-> x ∈ unique_chunks st)
  /\ (exists d, duplicates (dedup_step st c) = duplicates st ++ d
                /\ forall a b, (a, b) ∈ d -> (a ∉ ids) /\ (b ∉ ids))
  /\ (forall k e, seen_hashes (dedup_step st c) !! k = Some e -> k <> h ->
        Chunk.chunk_id e ∉ ids).
Proof.
  intros Hkey Hid Hseen. unfold Deduplicator.dedup_step.
  destruct (seen_hashes st !! key c) as [existing|] eqn:Hlook.
  - assert (Chunk.chunk_id existing ∉ ids) as Hex by (by eapply Hseen).
    destruct (_ <? _); cbn [seen_hashes unique_chunks duplicates].
    + split; [by rewrite lookup_insert_ne|]. split; [|split].
      * intros x Hx. rewrite elem_of_app, list_elem_of_filter, list_elem_of_singleton.
        split.
        -- intros [[_ ?]| ->]; [done|]. by destruct Hid.
        -- intros Hin. left. split; [|done]. intros E. apply Hex. by rewrite <- E.
      * eexists. split; [done|]. intros a b Hab.
        apply list_elem_of_singleton in Hab. by injection Hab as -> ->.
      * intros k e. destruct (decide (key c = k)) as [<-|Hk].
        -- rewrite lookup_insert_eq. by intros [= <-] _.
        -- rewrite lookup_insert_ne by done. apply Hseen.
    + split; [done|]. split; [done|]. split; [|done].
      eexists. split; [done|]. intros a b Hab.
      apply list_elem_of_singleton in Hab. by injection Hab as -> ->.
  - cbn [seen_hashes unique_chunks duplicates].
    split; [by rewrite lookup_insert_ne|]. split; [|split].
    + intros x Hx. rewrite elem_of_app, list_elem_of_singleton.
      split; [|by left]. intros [?| ->]; [done|]. by destruct Hid.
    + exists []. split; [by rewrite app_nil_r|]. by intros a b ?%elem_of_nil.
    + intros k e. destruct (decide (key c = k)) as [<-|Hk].
      * rewrite lookup_insert_eq. by intros [= <-] _.
      * rewrite lookup_insert_ne by done. apply Hseen.
Qed.

Lemma dedup_fold_others h (ids : list string) l : forall st,
  (forall c, c ∈ l -> key c <> h /\ (Chunk.chunk_id c ∉ ids)) ->
  (forall k e, seen_hashes st !! k = Some e -> k <> h ->
     Chunk.chunk_id e ∉ ids) ->
  seen_hashes (fold_left dedup_step l st) !! h = seen_hashes st !! h
  /\ (forall x, Chunk.chunk_id x ∈ ids ->
        x ∈ unique_chunks (fold_left dedup_step l st) <-> x ∈ unique_chunks st)
  /\ (exists d, duplicates (fold_left dedup_step l st) = duplicates st ++ d
                /\ forall a b, (a, b) ∈ d -> (a ∉ ids) /\ (b ∉ ids))
  /\ (forall k e, seen_hashes (fold_left dedup_step l st) !! k = Some e ->
        k <> h -> Chunk.chunk_id e ∉ ids).
Proof.
  induction l as [|c l IH]; intros st Hl Hseen; cbn [fold_left].
  - split; [done|]. split; [done|]. split; [|done].
    exists []. split; [by rewrite app_nil_r|]. by intros a b ?%elem_of_nil.
  - destruct (Hl c) as [Hkey Hid]; [by left|].
    destruct (dedup_step_others h ids st c Hkey Hid Hseen)
      as (Hh & Hu & (d & Hd & Hd_ids) & Hseen').
    destruct (IH (dedup_step st c)) as (Hh' & Hu' & (d' & Hd' & Hd'_ids) & Hseen'');
      [intros c' Hc'; apply Hl; by right|done|].
    split; [by rewrite Hh'|]. split; [|split; [|done]].
    + intros x Hx. by rewrite Hu', Hu.
    + exists (d ++ d'). split; [by rewrite Hd', Hd, app_assoc|].
      intros a b [?|?]%elem_of_app; eauto.
Qed.

(** C5 (amended). In a list that holds two chunks with identical
    content and different identifiers, and in which every other chunk
    has another content hash and another identifier, exact dedup keeps
    exactly one of the two, the earlier one (their lengths are equal);
    no other kept chunk has their hash; and exactly one removed pair
    names either of them: the pair that records the later chunk as a
    duplicate of the earlier one.  For the list of the two chunks alone
    the result is the earlier chunk and that pair. *)
Theorem exact_dedup_identical_content (pre mid post : list Chunk.t)
  (c1 c2 : Chunk.t) :
  Chunk.chunk_id c1 <> Chunk.chunk_id c2 ->
  Chunk.content c1 = Chunk.content c2 ->
  (forall c, c ∈ pre ++ mid ++ post ->
     key c <> key c1
     /\ (Chunk.chunk_id c ∉ [Chunk.chunk_id c1; Chunk.chunk_id c2])) ->
  let r := _exact_dedup (pre ++ c1 :: mid ++ c2 :: post) in
  c1 ∈ r.1 /\ (c2 ∉ r.1)
  /\ (forall c, c ∈ r.1 -> key c = key c1 -> c = c1)
  /\ (exists before after,
        r.2 = before ++ (Chunk.chunk_id c2, Chunk.chunk_id c1) :: after
        /\ forall a b, (a, b) ∈ before ++ after ->
             (a ∉ [Chunk.chunk_id c1; Chunk.chunk_id c2])
             /\ (b ∉ [Chunk.chunk_id c1; Chunk.chunk_id c2]))
  /\ _exact_dedup [c1; c2] = ([c1], [(Chunk.chunk_id c2, Chunk.chunk_id c1)]).
Proof.
  intros Hid Hcontent Hothers r.
  set (ids := [Chunk.chunk_id c1; Chunk.chunk_id c2]) in *.
  set (h := key c1) in *.
  assert (Chunk.chunk_id c1 ∈ ids) as Hid1 by (by left).
  assert (Chunk.chunk_id c2 ∈ ids) as Hid2 by (right; by left).
  (* the chunks before the first of the two *)
  set (st0 := fold_left dedup_step pre dedup_init).
  destruct (dedup_fold_others h ids pre dedup_init)
    as (Hh0 & Hu0 & (d0 & Hd0 & Hd0_ids) & Hseen0).
  { intros c Hc. apply Hothers. rewrite elem_of_app. by left. }
  { intros k e. cbn [dedup_init seen_hashes]. by rewrite lookup_empty. }
  fold st0 in Hh0, Hu0, Hd0, Hseen0. cbn [dedup_init seen_hashes duplicates] in *.
  rewrite lookup_empty in Hh0.
  (* the first of the two *)
  set (st1 := dedup_step st0 c1).
  assert (st1 = {| seen_hashes := <[h:=c1]> (seen_hashes st0);
                   unique_chunks := unique_chunks st0 ++ [c1];
                   duplicates := duplicates st0 |}) as Hst1.
  { subst st1. unfold Deduplicator.dedup_step. fold h. by rewrite Hh0. }
  (* the chunks between them *)
  set (st2 := fold_left dedup_step mid st1).
  destruct (dedup_fold_others h ids mid st1)
    as (Hh2 & Hu2 & (d1 & Hd1 & Hd1_ids) & Hseen2).
  { intros c Hc. apply Hothers. rewrite !elem_of_app. right. by left. }
  { rewrite Hst1. cbn [seen_hashes]. intros k e He Hk.
    rewrite lookup_insert_ne in He by done. by eapply Hseen0. }
  fold st2 in Hh2, Hu2, Hd1, Hseen2.
  rewrite Hst1 in Hh2, Hu2, Hd1. cbn [seen_hashes unique_chunks duplicates] in *.
  rewrite lookup_insert_eq in Hh2.
  (* the second of the two *)
  set (st3 := dedup_step st2 c2).
  assert (st3 = {| seen_hashes := seen_hashes st2;
                   unique_chunks := unique_chunks st2;
                   duplicates :=
                     duplicates st2 ++ [(Chunk.chunk_id c2, Chunk.chunk_id c1)] |})
    as Hst3.
  { subst st3. unfold Deduplicator.dedup_step. rewrite <- Hcontent. fold h.
    by rewrite Hh2, Nat.ltb_irrefl. }
  (* the chunks after them *)
  set (st4 := fold_left dedup_step post st3).
  destruct (dedup_fold_others h ids post st3)
    as (Hh4 & Hu4 & (d2 & Hd2 & Hd2_ids) & _).
  { intros c Hc. apply Hothers. rewrite !elem_of_app. right. by right. }
  { by rewrite Hst3. }
  fold st4 in Hh4, Hu4, Hd2.
  rewrite Hst3 in Hh4, Hu4, Hd2. cbn [seen_hashes unique_chunks duplicates] in *.
  assert (r = (unique_chunks st4, duplicates st4)) as ->.
  { subst r st4 st3 st2 st1 st0. unfold Deduplicator._exact_dedup.
    rewrite fold_left_app. cbn [fold_left]. rewrite fold_left_app. done. }
  cbn [fst snd].
  assert (forall x, Chunk.chunk_id x ∈ ids ->
            x ∈ unique_chunks st4 <-> x = c1) as Hkept.
  { intros x Hx. rewrite (Hu4 x Hx), (Hu2 x Hx), elem_of_app, (Hu0 x Hx).
    rewrite elem_of_nil, list_elem_of_singleton. tauto. }
  split; [by apply Hkept|]. split; [|split; [|split]].
  - intros Hc2%Hkept; [|done]. apply Hid. by rewrite Hc2.
  - intros c Hc Hkey.
    assert (dedup_inv st4) as [_ Hinv]
      by (subst st4 st3 st2 st1 st0;
          apply dedup_fold_inv, dedup_step_inv, dedup_fold_inv, dedup_step_inv,
            dedup_fold_inv, dedup_inv_init).
    apply Hinv in Hc. rewrite Hkey in Hc. fold h in Hc.
    rewrite Hh4, Hh2 in Hc. by injection Hc.
  - exists (d0 ++ d1), d2. split.
    + by rewrite Hd2, Hd1, Hd0, <- !app_assoc.
    + intros a b Hab. rewrite !elem_of_app in Hab.
      destruct Hab as [[?|?]|?]; eauto.
  - rewrite exact_dedup_collision by (by rewrite Hcontent).
    by rewrite Hcontent, Nat.ltb_irrefl.
Qed.

(** C10. The threshold has no effect on [deduplicate]: its result is
    that of exact dedup alone. *)
Theorem deduplicate_ignores_threshold (dedup_threshold : Q)
  (chunks : list Chunk.t) (t1 t2 : option Q) :
  deduplicate dedup_threshold chunks t1 = deduplicate dedup_threshold chunks t2
  /\ deduplicate dedup_threshold chunks t1 = _exact_dedup chunks.
Proof.
  unfold Deduplicator.deduplicate.
  destruct (_exact_dedup chunks) as [survivors dups].
  by rewrite app_nil_r.
Qed.

End DedupProps.

(** ** Facts about the matcher *)

Section RegexFacts.


Lemma reaches_refl a : reaches a a.
Proof. exists []. simpl. split; [done|lia]. Qed.

Lemma reaches_trans a b c : reaches a b -> reaches b c -> reaches a c.
Proof.
  intros (w1 & Hr1 & Hp1) (w2 & Hr2 & Hp2). exists (w1 ++ w2).
  rewrite Hr1, Hr2, <- app_assoc, length_app. split; [done|lia].
Qed.

Lemma reaches_step st c s' : rest st = c :: s' -> reaches st (step st c s').
Proof. intros H. exists [c]. simpl. split; [done|lia]. Qed.

Lemma reaches_pos a b : reaches a b -> pos a <= pos b <= pos a + length (rest a).
Proof. intros (w & Hr & Hp). rewrite Hr, length_app. lia. Qed.

Lemma runs_reaches p s : forall hi st st',
  rest st = s -> st' ∈ runs p hi st s -> reaches st st'.
Proof.
  induction s as [|c s IH]; intros hi st st' Hrest; simpl.
  - intros ->%list_elem_of_singleton. apply reaches_refl.
  - intros [->|Hin]%elem_of_cons; [apply reaches_refl|].
    destruct (p c && _); [|by apply elem_of_nil in Hin].
    eapply reaches_trans; [by apply reaches_step|].
    by eapply IH.
Qed.

Lemma elem_of_rev_iff {A} (x : A) (l : list A) : x ∈ rev l <-> x ∈ l.
Proof. rewrite !list_elem_of_In. symmetry. apply in_rev. Qed.

Lemma run_reaches r : forall x y, y ∈ run r x -> reaches x.1 y.1.
Proof.
  induction r as [|p| | | |r1 IH1 r2 IH2|r1 IH1 r2 IH2|greedy lo hi p|g r IH|r IH];
    intros x y; simpl.
  - intros ->%list_elem_of_singleton. apply reaches_refl.
  - destruct (rest x.1) as [|c s'] eqn:Hrest; [by intros ?%elem_of_nil|].
    destruct (p c); [|by intros ?%elem_of_nil].
    intros ->%list_elem_of_singleton. by apply reaches_step.
  - destruct (prev x.1); [by intros ?%elem_of_nil|].
    intros ->%list_elem_of_singleton. apply reaches_refl.
  - destruct (at_bol x.1); [|by intros ?%elem_of_nil].
    intros ->%list_elem_of_singleton. apply reaches_refl.
  - destruct (at_eol x.1); [|by intros ?%elem_of_nil].
    intros ->%list_elem_of_singleton. apply reaches_refl.
  - intros (z & Hy & Hz)%list_elem_of_bind.
    eapply reaches_trans; [by apply IH1|by apply IH2].
  - intros [H|H]%elem_of_app; [by apply IH1|by apply IH2].
  - intros (st & -> & Hst)%list_elem_of_fmap. simpl.
    assert (st ∈ runs p hi x.1 (rest x.1)) as Hin.
    { destruct greedy; [apply (proj1 (elem_of_rev_iff _ _)) in Hst|];
        exact (subseteq_drop lo _ st Hst). }
    by eapply runs_reaches.
  - intros (z & -> & Hz)%list_elem_of_fmap. simpl. by apply IH.
  - destruct (run r x) as [|z l]; [by intros ?%elem_of_nil|].
    intros ->%list_elem_of_singleton. apply reaches_refl.
Qed.


Lemma chain_mono lo lo' hi ms : lo <= lo' -> chain lo' hi ms -> chain lo hi ms.
Proof. destruct ms; simpl; [done|]. intros Hle (? & ? & ? & ?). repeat split; [lia|done..]. Qed.

Lemma finditer_aux_chain r s : forall skip st,
  rest st = s ->
  chain (pos st + skip) (pos st + length s) (finditer_aux r skip st s).
Proof.
  induction s as [|c s IH]; intros skip st Hrest.
  - simpl. destruct skip; simpl; [|done].
    destruct (head (run r (st, []))) as [y|] eqn:Hy; simpl; [|done].
    apply head_Some_elem_of, run_reaches, reaches_pos in Hy. simpl in Hy.
    rewrite Hrest in Hy. simpl in Hy. lia.
  - cbn [finditer_aux].
    assert (rest (step st c s) = s) as Hstep by done.
    destruct (match skip with 0 => head (run r (st, [])) | S _ => None end)
      as [y|] eqn:Hy.
    + destruct skip; [|done].
      apply head_Some_elem_of, run_reaches, reaches_pos in Hy. simpl in Hy.
      rewrite Hrest in Hy. simpl in Hy. simpl.
      repeat split; [lia..|].
      specialize (IH (pos y.1 - pos st - 1) _ Hstep). simpl in IH.
      rewrite <- !Nat.add_succ_r in IH.
      eapply chain_mono; [|exact IH]. lia.
    + specialize (IH (skip - 1) _ Hstep). simpl in IH.
      rewrite <- !Nat.add_succ_r in IH. simpl.
      eapply chain_mono; [|exact IH]. lia.
Qed.

Lemma finditer_chain r s : chain 0 (length s) (finditer r s).
Proof. by apply (finditer_aux_chain r s 0 (MState 0 None s)). Qed.

Lemma chain_Forall lo hi ms :
  chain lo hi ms -> Forall (fun m => lo <= m_start m <= m_end m /\ m_end m <= hi) ms.
Proof.
  revert lo. induction ms as [|m ms IH]; intros lo; simpl; [constructor|].
  intros (H1 & H2 & H3 & H4). constructor; [lia|].
  eapply Forall_impl; [apply (IH _ H4)|]. simpl. intros; lia.
Qed.

End RegexFacts.

(** ** QAParser: placement of the pairs *)

Section PlacementFacts.

Lemma pchain_mono lo lo' l : lo <= lo' -> pchain lo' l -> pchain lo l.
Proof. destruct l; simpl; [done|]. intros ? (? & ? & ?). repeat split; [lia|done..]. Qed.

Lemma pchain_lower lo l :
  pchain lo l -> Forall (fun p => lo <= QAPair.start_pos p) l.
Proof.
  revert lo. induction l as [|p l IH]; intros lo; simpl; [constructor|].
  intros (H1 & H2 & H3). constructor; [done|].
  eapply Forall_impl; [apply (IH _ H3)|]. simpl. intros; lia.
Qed.

Lemma pchain_well_placed lo l : pchain lo l -> well_placed l.
Proof.
  revert lo. induction l as [|p l IH]; intros lo; simpl.
  - intros _. split; constructor.
  - intros (H1 & H2 & H3). destruct (IH _ H3) as [Hwf Hss].
    split; constructor; try done. by apply pchain_lower.
Qed.

Lemma well_placed_snoc l x :
  well_placed l ->
  (forall p, p ∈ l -> QAPair.end_pos p <= QAPair.start_pos x) ->
  QAPair.start_pos x <= QAPair.end_pos x ->
  well_placed (l ++ [x]).
Proof.
  intros [Hwf Hss] Hbefore Hx. split.
  - apply Forall_app. split; [done|]. by constructor.
  - apply StronglySorted_app_2; [|done|repeat constructor].
    intros p q Hp ->%list_elem_of_singleton. by apply Hbefore.
Qed.

Lemma well_placed_fmap (f : QAPair.t -> QAPair.t) l :
  (forall p, QAPair.start_pos (f p) = QAPair.start_pos p
             /\ QAPair.end_pos (f p) = QAPair.end_pos p) ->
  well_placed l -> well_placed (f <$> l).
Proof.
  intros Hf [Hwf Hss]. split.
  - apply Forall_fmap. eapply Forall_impl; [exact Hwf|].
    intros p Hp. simpl. destruct (Hf p) as [-> ->]. done.
  - induction Hss as [|p l Hss IH Hall]; simpl; constructor.
    + apply IH. by apply Forall_inv_tail in Hwf.
    + apply Forall_fmap. eapply Forall_impl; [exact Hall|].
      intros q Hq. simpl. destruct (Hf p) as [_ ->]. by destruct (Hf q) as [-> _].
Qed.

Lemma StronglySorted_lookup {A} (R : A -> A -> Prop) l :
  StronglySorted R l ->
  forall i j x y, i < j -> l !! i = Some x -> l !! j = Some y -> R x y.
Proof.
  induction 1 as [|a l Hss IH Hall]; intros i j x y Hij Hi Hj.
  - by rewrite lookup_nil in Hi.
  - destruct j as [|j]; [lia|]. simpl in Hj.
    destruct i as [|i]; simpl in Hi.
    + simplify_eq. rewrite Forall_forall in Hall.
      apply Hall. by eapply list_elem_of_lookup_2.
    + eapply IH; [|done..]. lia.
Qed.

(** What the design document asks of a parse result, spelled out *)
Lemma well_placed_spelled_out l :
  well_placed l ->
  Forall (fun p => QAPair.start_pos p <= QAPair.end_pos p) l
  /\ (forall i p q, l !! i = Some p -> l !! S i = Some q ->
        QAPair.end_pos p <= QAPair.start_pos q)
  /\ StronglySorted (fun p q => QAPair.start_pos p <= QAPair.start_pos q) l.
Proof.
  intros [Hwf Hss]. split; [done|]. split.
  - intros i p q Hp Hq.
    by apply (StronglySorted_lookup _ _ Hss i (S i) p q); [lia|..].
  - induction Hss as [|p l Hss IH Hall]; constructor.
    + apply IH. by apply Forall_inv_tail in Hwf.
    + apply Forall_inv in Hwf. eapply Forall_impl; [exact Hall|].
      simpl. intros; lia.
Qed.

End PlacementFacts.

Section ParserPlacement.
Import QAParser.

Variable decimal_value : char -> option N.
Variable isdigit_char : char -> bool.
Variable isword : char -> bool.

Local Abbreviation position_of_match :=
  (position_of_match decimal_value isdigit_char).
Local Abbreviation collect_positions :=
  (collect_positions decimal_value isdigit_char).
Local Abbreviation _parse_by_question_markers :=
  (_parse_by_question_markers decimal_value isdigit_char).
Local Abbreviation _parse_by_code_blocks :=
  (_parse_by_code_blocks decimal_value isword).
Local Abbreviation _parse_by_paragraphs := (_parse_by_paragraphs decimal_value).
Local Abbreviation para_step := (para_step decimal_value).
Local Abbreviation parse := (parse decimal_value isdigit_char isword).

(** *** Marker scan *)

Lemma position_of_match_span s p m q :
  position_of_match s p m = Some (Some q) ->
  qp_start q = m_start m /\ qp_end q = m_end m.
Proof.
  unfold QAParser.position_of_match.
  destruct (match groups s m (q_groups p) with
            | [] => _ | [g1] => _ | g1 :: g2 :: _ => _ end) as [num_str qt].
  destruct (match num_str with Some ns => _ | None => _ end) as [qn|];
    simpl; [|done].
  destruct qt as [qt|]; simpl; [|done].
  destruct (re_match _ qt); [done|].
  intros [= <-]. done.
Qed.

Lemma collect_positions_bounds s l :
  collect_positions s = Some l ->
  Forall (fun q => qp_start q <= qp_end q /\ qp_end q <= length s) l.
Proof.
  unfold QAParser.collect_positions. intros H.
  apply bind_Some in H as (per_pattern & Hmap & [= <-]).
  apply mapM_Some in Hmap.
  apply Forall_concat.
  induction Hmap as [|p found ps founds Hp _ IH]; constructor; [|exact IH].
  apply bind_Some in Hp as (raw & Hraw & [= <-]).
  apply mapM_Some in Hraw.
  pose proof (chain_Forall _ _ _ (finditer_chain (q_regex p) s)) as Hspans.
  induction Hraw as [|m oq ms oqs Hm _ IHraw]; simpl; [constructor|].
  apply Forall_cons in Hspans as [Hspan Hspans].
  destruct oq as [q|]; simpl; [constructor|]; [|by apply IHraw..].
  apply position_of_match_span in Hm as [-> ->]. lia.
Qed.

Lemma insert_by_start_Forall (P : qpos -> Prop) x l :
  P x -> Forall P l -> Forall P (insert_by_start x l).
Proof.
  intros Hx. induction 1 as [|y l Hy Hl IH]; simpl; [by repeat constructor|].
  destruct (_ <? _); by repeat constructor.
Qed.

Lemma sort_by_start_Forall (P : qpos -> Prop) l :
  Forall P l -> Forall P (sort_by_start l).
Proof.
  unfold sort_by_start. assert (Forall P []) as Hacc by constructor.
  revert Hacc. generalize (@nil qpos).
  induction l as [|x l IH]; intros acc Hacc Hl; simpl; [done|].
  apply Forall_cons in Hl as [Hx Hl]. apply IH; [|done].
  by apply insert_by_start_Forall.
Qed.

Lemma unique_loop_qchain len l : forall last_end,
  Forall (fun q => qp_start q <= qp_end q /\ qp_end q <= len) l ->
  qchain len last_end (unique_loop last_end l).
Proof.
  induction l as [|p l IH]; intros last_end Hl; simpl; [done|].
  apply Forall_cons in Hl as [[Hp1 Hp2] Hl].
  destruct (last_end <=? _)%Z eqn:Hle; [|by apply IH].
  simpl. apply Z.leb_le in Hle. repeat split; [done..|]. by apply IH.
Qed.

Lemma qchain_mono len lo lo' l :
  (lo <= lo')%Z -> qchain len lo' l -> qchain len lo l.
Proof.
  destruct l; simpl; [done|]. intros ? (? & ? & ? & ?).
  repeat split; [lia|done..].
Qed.

Lemma pairs_loop_pchain s l : forall lo,
  qchain (length s) lo l -> pchain (Z.to_nat lo) (pairs_loop s l).
Proof.
  induction l as [|p l IH]; intros lo; simpl; [done|].
  intros (H1 & H2 & H3 & H4).
  destruct (_clean_answer_text _).
  - apply IH. eapply qchain_mono; [|exact H4]. lia.
  - simpl. split; [lia|]. destruct l as [|next l'].
    + split; [lia|done].
    + destruct H4 as (H5 & H6 & H7 & H8). split; [lia|].
      specialize (IH (Z.of_nat (qp_start next))).
      rewrite Nat2Z.id in IH. apply IH. simpl. repeat split; [lia|done..].
Qed.

Lemma question_markers_well_placed s l :
  _parse_by_question_markers s = Some l -> well_placed l.
Proof.
  unfold QAParser._parse_by_question_markers. intros H.
  apply bind_Some in H as (qs & Hqs & H).
  apply collect_positions_bounds in Hqs.
  destruct qs as [|q qs]; [injection H as <-; split; constructor|].
  injection H as <-.
  eapply pchain_well_placed, pairs_loop_pchain, unique_loop_qchain.
  by apply sort_by_start_Forall.
Qed.

(** *** Heading and code block scan *)

Lemma code_blocks_well_placed s l :
  _parse_by_code_blocks s = Some l -> well_placed l.
Proof.
  unfold QAParser._parse_by_code_blocks. intros H. apply mapM_Some in H.
  apply (pchain_well_placed 0).
  pose proof (finditer_chain (code_block_pattern decimal_value isword) s) as Hc.
  revert Hc. generalize 0.
  induction H as [|m qa ms qas Hm _ IH]; intros lo Hc; simpl; [done|].
  destruct Hc as (H1 & H2 & H3 & H4).
  apply bind_Some in Hm as (question & _ & Hm).
  apply bind_Some in Hm as (answer & _ & Hm).
  apply bind_Some in Hm as (qn & _ & [= <-]). simpl.
  repeat split; [done..|]. by apply IH.
Qed.

(** *** Paragraph fallback *)

Lemma flush_pair_well_placed st :
  para_inv st ->
  well_placed (flush_pair st)
  /\ forall p, p ∈ flush_pair st -> QAPair.end_pos p <= ps_position st.
Proof.
  intros (Hwp & Hend & Hpos). unfold flush_pair.
  assert (forall p, p ∈ ps_pairs st -> QAPair.end_pos p <= ps_position st) as Hold.
  { intros p Hp. specialize (Hend p Hp). lia. }
  destruct (ps_question st) as [q|]; [|done].
  destruct (ps_answer_parts st); [done|].
  split.
  - apply well_placed_snoc; [done|exact Hend|done].
  - intros p [Hp| ->%list_elem_of_singleton]%elem_of_app; [by apply Hold|done].
Qed.

Lemma para_step_inv st para : para_inv st -> para_inv (para_step st para).
Proof.
  intros Hinv. pose proof Hinv as (Hwp & Hend & Hpos).
  unfold QAParser.para_step. destruct (strip para) as [|c para'].
  - repeat split; simpl; try done; try apply Hwp. lia.
  - destruct (is_question _ _).
    + destruct (flush_pair_well_placed st Hinv) as [Hwp' Hend'].
      repeat split; simpl; try done; try apply Hwp'. lia.
    + repeat split; simpl; try done; try apply Hwp. lia.
Qed.

Lemma paragraphs_well_placed s : well_placed (_parse_by_paragraphs s).
Proof.
  unfold QAParser._parse_by_paragraphs.
  apply flush_pair_well_placed.
  match goal with |- para_inv (fold_left _ ?l ?st) =>
    assert (para_inv st) as Hinit; [|revert Hinit; generalize st; generalize l]
  end.
  { repeat split; simpl; try constructor. intros p Hp. by apply elem_of_nil in Hp. }
  intros l. induction l as [|para l IH]; intros st Hst; simpl; [done|].
  by apply IH, para_step_inv.
Qed.

(** Whatever strategy produced them, the pairs [parse] returns are well
    placed. *)
Lemma parse_well_placed s source_file page_num l :
  parse s source_file page_num = Some l -> well_placed l.
Proof.
  unfold QAParser.parse. destruct (is_blank s).
  { intros [= <-]. split; constructor. }
  intros H. apply bind_Some in H as (l1 & H1 & H).
  apply bind_Some in H as (l2 & H2 & [= <-]).
  apply well_placed_fmap; [done|].
  assert (well_placed l2) as Hl2.
  { destruct l1; [by eapply code_blocks_well_placed|].
    injection H2 as <-. by eapply question_markers_well_placed. }
  destruct l2; [apply paragraphs_well_placed|done].
Qed.

End ParserPlacement.

(** ** Facts about capture groups *)

Section CaptureFacts.

Lemma forallb_impl_class (p P : char -> bool) (w : text) :
  (forall c, p c = true -> P c = true) -> forallb p w = true -> forallb P w = true.
Proof.
  intros Himp. induction w as [|c w IH]; simpl; [done|].
  intros [Hc Hw]%andb_true_iff. by rewrite (Himp c Hc), IH.
Qed.

Lemma reaches_state_in s a b : state_in s a -> reaches a b -> state_in s b.
Proof.
  intros [Hrest Hpos] (w & Hr & Hp). split.
  - rewrite Hp, <- drop_drop, <- Hrest, Hr. by rewrite drop_app_length.
  - rewrite Hp. assert (length (rest a) = length s - pos a) as Hlen
      by (by rewrite Hrest, length_drop).
    rewrite Hr, length_app in Hlen. lia.
Qed.

Lemma run_state_in r s x y : state_in s x.1 -> y ∈ run r x -> state_in s y.1.
Proof. intros Hx Hy. eapply reaches_state_in; [exact Hx|by apply (run_reaches r)]. Qed.

Lemma run_keeps_and_sets g r : forall x y,
  y ∈ run r x ->
  (is_Some (lookup_cap g x.2) -> is_Some (lookup_cap g y.2))
  /\ (sets_group g r = true -> is_Some (lookup_cap g y.2)).
Proof.
  induction r as [|p| | | |r1 IH1 r2 IH2|r1 IH1 r2 IH2|greedy lo hi p|n r IH|r IH];
    intros x y; simpl.
  - by intros ->%list_elem_of_singleton.
  - destruct (rest x.1) as [|c s']; [by intros ?%elem_of_nil|].
    destruct (p c); [|by intros ?%elem_of_nil].
    by intros ->%list_elem_of_singleton.
  - destruct (prev x.1); [by intros ?%elem_of_nil|].
    by intros ->%list_elem_of_singleton.
  - destruct (at_bol x.1); [|by intros ?%elem_of_nil].
    by intros ->%list_elem_of_singleton.
  - destruct (at_eol x.1); [|by intros ?%elem_of_nil].
    by intros ->%list_elem_of_singleton.
  - intros (z & Hy & Hz)%list_elem_of_bind.
    destruct (IH1 _ _ Hz) as [K1 S1], (IH2 _ _ Hy) as [K2 S2].
    split; [tauto|]. intros [H|H]%orb_true_iff; tauto.
  - intros [H|H]%elem_of_app.
    + destruct (IH1 _ _ H) as [K1 S1]. split; [done|].
      intros [? ?]%andb_true_iff; tauto.
    + destruct (IH2 _ _ H) as [K2 S2]. split; [done|].
      intros [? ?]%andb_true_iff; tauto.
  - by intros (st & -> & Hst)%list_elem_of_fmap.
  - intros (z & -> & Hz)%list_elem_of_fmap. cbn [snd lookup_cap].
    destruct (IH _ _ Hz) as [K S]. destruct (n =? g); simpl; [by split; eauto|tauto].
  - destruct (run r x) as [|z l] eqn:Hrun; [by intros ?%elem_of_nil|].
    intros ->%list_elem_of_singleton. simpl. apply IH. rewrite Hrun. by left.
Qed.

Lemma runs_class p s : forall hi st st',
  rest st = s -> st' ∈ runs p hi st s ->
  exists w, rest st = w ++ rest st' /\ pos st' = pos st + length w
            /\ forallb p w = true.
Proof.
  induction s as [|c s IH]; intros hi st st' Hrest; simpl.
  - intros ->%list_elem_of_singleton. exists []. simpl. split; [done|]. split; [lia|done].
  - intros [->|Hin]%elem_of_cons.
    { exists []. simpl. split; [done|]. split; [lia|done]. }
    destruct (p c) eqn:Hc; simpl in Hin; [|by apply elem_of_nil in Hin].
    destruct (negb _); [|by apply elem_of_nil in Hin].
    apply IH in Hin as (w & Hw & Hp & Hall); [|done].
    exists (c :: w). simpl in *. rewrite Hrest, Hw, Hc, Hall.
    split; [done|]. split; [lia|done].
Qed.

Lemma run_rep_class greedy lo hi p s x y :
  state_in s x.1 -> y ∈ run (Rep greedy lo hi p) x ->
  y.2 = x.2 /\ pos x.1 <= pos y.1 /\ pos y.1 <= length s
  /\ forallb p (slice s (pos x.1) (pos y.1)) = true.
Proof.
  intros Hx Hy. pose proof (run_state_in _ _ _ _ Hx Hy) as [_ Hlen].
  simpl in Hy. apply list_elem_of_fmap in Hy as (st & -> & Hst). simpl in *.
  assert (st ∈ runs p hi x.1 (rest x.1)) as Hin.
  { destruct greedy; [apply (proj1 (elem_of_rev_iff _ _)) in Hst|];
      exact (subseteq_drop lo _ st Hst). }
  apply runs_class in Hin as (w & Hw & Hp & Hall); [|done].
  split; [done|]. split; [lia|]. split; [done|].
  unfold slice. destruct Hx as [<- _]. rewrite Hw, Hp.
  replace (pos x.1 + length w - pos x.1) with (length w) by lia.
  by rewrite take_app_length.
Qed.

Lemma run_group_class s g P r : forall x y,
  group_class g P r -> state_in s x.1 -> caps_in_class s g P x.2 ->
  y ∈ run r x -> caps_in_class s g P y.2.
Proof.
  induction r as [|p| | | |r1 IH1 r2 IH2|r1 IH1 r2 IH2|greedy lo hi p|n r IH|r IH];
    intros x y Hcls Hx Hcaps; simpl.
  - by intros ->%list_elem_of_singleton.
  - destruct (rest x.1) as [|c s']; [by intros ?%elem_of_nil|].
    destruct (p c); [|by intros ?%elem_of_nil].
    by intros ->%list_elem_of_singleton.
  - destruct (prev x.1); [by intros ?%elem_of_nil|].
    by intros ->%list_elem_of_singleton.
  - destruct (at_bol x.1); [|by intros ?%elem_of_nil].
    by intros ->%list_elem_of_singleton.
  - destruct (at_eol x.1); [|by intros ?%elem_of_nil].
    by intros ->%list_elem_of_singleton.
  - intros (z & Hy & Hz)%list_elem_of_bind. destruct Hcls as [H1 H2].
    eapply IH2; [done| | |exact Hy].
    + by eapply run_state_in.
    + by eapply IH1.
  - destruct Hcls as [H1 H2].
    intros [H|H]%elem_of_app; [by eapply IH1|by eapply IH2].
  - by intros (st & -> & Hst)%list_elem_of_fmap.
  - intros (z & -> & Hz)%list_elem_of_fmap. simpl in Hcls.
    intros a b. cbn [snd lookup_cap]. destruct (n =? g).
    + destruct r; try done. intros [= <- <-]. cbn [fst].
      destruct (run_rep_class _ _ _ _ s x z Hx Hz) as (_ & ? & ? & Hall).
      split; [done|]. split; [done|].
      eapply forallb_impl_class; [exact Hcls|exact Hall].
    + by apply (IH x z).
  - destruct (run r x) as [|z l] eqn:Hrun; [by intros ?%elem_of_nil|].
    intros ->%list_elem_of_singleton. simpl. eapply (IH x z); [done..|].
    rewrite Hrun. by left.
Qed.

End CaptureFacts.

(** ** QAParser: no step of [parse] raises *)

Section ScanFacts.

Lemma finditer_aux_match_of r s s' : forall skip st,
  state_in s st -> rest st = s' ->
  Forall (match_of r s) (finditer_aux r skip st s').
Proof.
  induction s' as [|c s' IH]; intros skip st Hst Hrest.
  - simpl. destruct skip; simpl; [|constructor].
    destruct (head (run r (st, []))) as [y|] eqn:Hy; constructor; [|constructor].
    by exists st, y.
  - cbn [finditer_aux].
    assert (state_in s (step st c s')) as Hstep.
    { eapply reaches_state_in; [exact Hst|by apply reaches_step]. }
    destruct (match skip with 0 => head (run r (st, [])) | S _ => None end)
      as [y|] eqn:Hy.
    + destruct skip; [|done]. constructor; [by exists st, y|by apply IH].
    + by apply IH.
Qed.

Lemma finditer_match_of r s : Forall (match_of r s) (finditer r s).
Proof.
  apply finditer_aux_match_of; [|done]. split; simpl; [done|lia].
Qed.

Lemma match_of_sets g r s m :
  sets_group g r = true -> match_of r s m -> is_Some (group s m g).
Proof.
  intros Hsets (st & y & Hst & Hy & ->). unfold group. cbn [m_caps].
  apply head_Some_elem_of, (run_keeps_and_sets g) in Hy as [_ Hy].
  apply fmap_is_Some. by apply Hy.
Qed.

Lemma match_of_class g P r s m ns :
  group_class g P r -> match_of r s m -> group s m g = Some ns ->
  forallb P ns = true.
Proof.
  intros Hcls (st & y & Hst & Hy & ->). unfold group. cbn [m_caps].
  apply head_Some_elem_of in Hy.
  destruct (lookup_cap g y.2) as [[a b]|] eqn:Hcap; [|done].
  intros [= <-]. simpl.
  eapply (run_group_class s g P r (st, []) y) in Hcap as (_ & _ & H); try done.
Qed.

End ScanFacts.

(** ** Runs of characters of one class *)

Section ShortRuns.

Variable p : char -> bool.
Variable lo : nat.

Lemma prefix_len_take m s : prefix_len p (take m s) <= prefix_len p s.
Proof.
  revert m. induction s as [|c s IH]; intros [|m]; cbn [take prefix_len];
    try lia.
  destruct (p c); [specialize (IH m)|]; lia.
Qed.

Lemma take_run_length k s :
  forallb p (take k s) = true -> length (take k s) <= prefix_len p s.
Proof.
  revert k. induction s as [|c s IH]; intros [|k]; cbn [take forallb length prefix_len];
    try lia.
  intros [Hc Hall]%andb_true_iff. rewrite Hc. specialize (IH k Hall). lia.
Qed.

Lemma short_runs_drop k s : short_runs p lo s -> short_runs p lo (drop k s).
Proof. intros Hs i. rewrite drop_drop. apply Hs. Qed.

Lemma short_runs_take k s : short_runs p lo s -> short_runs p lo (take k s).
Proof.
  intros Hs i. rewrite skipn_firstn_comm.
  eapply Nat.le_lt_trans; [apply prefix_len_take|apply Hs].
Qed.

Lemma lstrip_by_drop s : exists k, lstrip_by p s = drop k s.
Proof.
  induction s as [|c s [k IH]]; [by exists 0|]. cbn [lstrip_by].
  destruct (p c); [by exists (S k)|by exists 0].
Qed.

Lemma rstrip_by_take s : exists k, rstrip_by p s = take k s.
Proof.
  induction s as [|c s [k IH]] using rev_ind; [by exists 0|].
  destruct (p c) eqn:Hc.
  - rewrite rstrip_by_app_true by done. rewrite IH.
    destruct (decide (k <= length s)).
    + exists k. by rewrite take_app_le.
    + exists (length s). rewrite take_app_le by done.
      by rewrite !take_ge by lia.
  - exists (length (s ++ [c])). rewrite take_ge by done.
    unfold rstrip_by. rewrite rev_app_distr. cbn [rev app lstrip_by].
    rewrite Hc. cbn [rev]. by rewrite rev_involutive.
Qed.

End ShortRuns.

Lemma strip_segment s : exists a b, strip s = take b (drop a s).
Proof.
  unfold strip. destruct (lstrip_by_drop isspace s) as [a ->].
  destruct (rstrip_by_take isspace (drop a s)) as [b ->]. by exists a, b.
Qed.

Lemma short_runs_strip p lo s : short_runs p lo s -> short_runs p lo (strip s).
Proof.
  intros Hs. destruct (strip_segment s) as (a & b & ->).
  by apply short_runs_take, short_runs_drop.
Qed.

(** A captured group all of whose characters are of a class is no
    longer than the runs of that class in the text. *)
Lemma group_run_short p n s m g ns :
  short_runs p (S n) s -> group s m g = Some ns -> forallb p ns = true ->
  length ns <= n /\ short_runs p (S n) ns.
Proof.
  intros Hs Hg Hall. unfold group in Hg.
  destruct (lookup_cap g (m_caps m)) as [[a b]|]; [|done].
  injection Hg as <-. unfold slice in *. cbn [fst snd] in *. split.
  - pose proof (take_run_length p _ _ Hall) as Hlen.
    specialize (Hs a). lia.
  - by apply short_runs_take, short_runs_drop.
Qed.

Section ParserTotal.
Import QAParser.

Variable decimal_value : char -> option N.
Variable isdigit_char : char -> bool.
Variable isword : char -> bool.

Local Abbreviation digit := (digit decimal_value).
Local Abbreviation py_int := (py_int decimal_value).
Local Abbreviation question_patterns := (question_patterns decimal_value).
Local Abbreviation position_of_match :=
  (position_of_match decimal_value isdigit_char).
Local Abbreviation collect_positions :=
  (collect_positions decimal_value isdigit_char).
Local Abbreviation _parse_by_question_markers :=
  (_parse_by_question_markers decimal_value isdigit_char).
Local Abbreviation code_block_pattern := (code_block_pattern decimal_value isword).
Local Abbreviation _parse_by_code_blocks :=
  (_parse_by_code_blocks decimal_value isword).
Local Abbreviation _parse_by_paragraphs := (_parse_by_paragraphs decimal_value).
Local Abbreviation parse := (parse decimal_value isdigit_char isword).

(** [int] accepts a non-empty string of at most [int_max_str_digits]
    decimal digits. *)
Lemma py_int_digits ns :
  ns <> [] -> forallb digit ns = true -> length ns <= int_max_str_digits ->
  is_Some (py_int ns).
Proof.
  intros Hne Hall Hlen. unfold QAParser.py_int. destruct ns as [|c ns]; [done|].
  destruct (Nat.ltb_spec int_max_str_digits (length (c :: ns))) as [?|_]; [lia|].
  clear Hne Hlen. generalize 0%Z. revert Hall. generalize (c :: ns). clear c ns.
  induction l as [|c l IH]; intros Hall acc; simpl; [eauto|].
  simpl in Hall. apply andb_true_iff in Hall as [Hc Hall].
  unfold QAParser.digit in Hc. destruct (decimal_value c) as [d|]; [|done].
  simpl. by apply IH.
Qed.

Lemma question_patterns_ok p : p ∈ question_patterns -> pattern_ok digit p.
Proof.
  unfold QAParser.question_patterns. intros H.
  repeat (apply elem_of_cons in H as [->|H]);
    [..|by apply elem_of_nil in H]; unfold pattern_ok; simpl;
    repeat split; auto.
Qed.

Lemma position_of_match_total s p m :
  short_runs digit (S int_max_str_digits) s ->
  pattern_ok digit p -> match_of (q_regex p) s m ->
  is_Some (position_of_match s p m).
Proof.
  intros Hruns Hok Hm. unfold QAParser.position_of_match, pattern_ok in *.
  assert (forall ns qt,
    (forall ns', ns = Some ns' -> ns' <> [] ->
       forallb digit ns' = true /\ length ns' <= int_max_str_digits) ->
    is_Some (question_num ←
               match ns with
               | Some ns => if str_isdigit isdigit_char ns
                            then Some <$> py_int ns else Some None
               | None => Some None
               end;
             question_text ← Some qt;
             match re_match (step_marker_pattern decimal_value) question_text with
             | Some _ => Some None
             | None =>
                 Some (Some {| qp_start := m_start m; qp_end := m_end m;
                               qp_num := question_num;
                               qp_question := strip (group0 s m);
                               qp_question_text := strip question_text |})
             end)) as Hbody.
  { intros ns qt Hns. destruct ns as [ns|]; simpl.
    - destruct (str_isdigit isdigit_char ns) eqn:Hd; simpl.
      + assert (ns <> []) as Hne by (by destruct ns).
        destruct (Hns _ eq_refl Hne) as [Hall Hlen].
        destruct (py_int_digits ns Hne Hall Hlen) as [n ->].
        simpl. by destruct (re_match _ qt).
      + by destruct (re_match _ qt).
    - by destruct (re_match _ qt). }
  destruct (q_groups p) as [|[|[|n]]]; [| | |done]; unfold groups;
    cbn [seq fmap list_fmap].
  - apply (Hbody (Some []) []). intros ? [= <-]. done.
  - destruct (match_of_sets 1 _ _ _ Hok Hm) as [qt ->].
    apply (Hbody (Some []) qt). intros ? [= <-]. done.
  - destruct Hok as [Hsets Hcls].
    destruct (match_of_sets 2 _ _ _ Hsets Hm) as [qt ->].
    apply (Hbody (group s m 1) qt). intros ns' Hns' _.
    assert (forallb digit ns' = true) as Hall by (by eapply match_of_class).
    split; [done|]. by eapply group_run_short.
Qed.

Lemma collect_positions_total s :
  short_runs digit (S int_max_str_digits) s -> is_Some (collect_positions s).
Proof.
  intros Hruns. unfold QAParser.collect_positions.
  assert (is_Some (mapM (fun p =>
            found ← mapM (position_of_match s p) (finditer (q_regex p) s);
            Some (omap id found)) question_patterns)) as [per Hper]; [|by rewrite Hper].
  apply mapM_is_Some, Forall_forall. intros p Hp. simpl.
  assert (is_Some (mapM (position_of_match s p) (finditer (q_regex p) s)))
    as [found ->]; [|done].
  apply mapM_is_Some. eapply Forall_impl; [apply finditer_match_of|].
  intros m Hm. simpl. apply position_of_match_total; [done| |done].
  by apply question_patterns_ok.
Qed.

Lemma question_markers_total s :
  short_runs digit (S int_max_str_digits) s ->
  is_Some (_parse_by_question_markers s).
Proof.
  intros Hruns. unfold QAParser._parse_by_question_markers.
  destruct (collect_positions_total s Hruns) as [qs ->]. simpl. by destruct qs.
Qed.

(** The first match of [(\d+)] captures a non-empty run of digits. *)
Lemma digits_match s m :
  match_of (Group 1 (plus digit)) s m ->
  exists ns, group s m 1 = Some ns /\ ns <> [] /\ forallb digit ns = true.
Proof.
  intros Hm.
  destruct (match_of_sets 1 (Group 1 (plus digit)) _ _ eq_refl Hm) as [ns Hns].
  exists ns. split; [done|]. split.
  - destruct Hm as (st & y & Hst & Hy & ->). apply head_Some_elem_of in Hy.
    simpl in Hy. apply list_elem_of_fmap in Hy as (z & -> & Hz).
    apply list_elem_of_fmap in Hz as (st' & -> & Hst').
    apply (proj1 (elem_of_rev_iff _ _)) in Hst'.
    unfold group in Hns. simpl in Hns. injection Hns as <-.
    pose proof Hst as [Hrest Hlen].
    destruct (rest st) as [|c s'] eqn:Hr; simpl in Hst'.
    { by apply elem_of_nil in Hst'. }
    rewrite drop_0 in Hst'.
    destruct (digit c && _); [|by apply elem_of_nil in Hst'].
    apply runs_reaches in Hst'; [|done].
    apply reaches_pos in Hst'. simpl in Hst'.
    apply (f_equal length) in Hrest. rewrite length_drop in Hrest.
    simpl in Hrest. unfold slice. intros Hnil.
    apply (f_equal length) in Hnil. rewrite length_take, length_drop in Hnil.
    simpl in Hnil. lia.
  - eapply (match_of_class 1 digit (Group 1 (plus digit))); [|exact Hm|exact Hns].
    simpl. auto.
Qed.

Lemma code_blocks_total s :
  short_runs digit (S int_max_str_digits) s ->
  is_Some (_parse_by_code_blocks s).
Proof.
  intros Hruns. unfold QAParser._parse_by_code_blocks.
  apply mapM_is_Some. eapply Forall_impl; [apply finditer_match_of|].
  intros m Hm. simpl.
  destruct (match_of_sets 1 code_block_pattern _ _ eq_refl Hm) as [q Hq].
  rewrite Hq.
  assert (short_runs digit (S int_max_str_digits) (strip q)) as Hq_runs.
  { apply short_runs_strip. unfold group in Hq.
    destruct (lookup_cap 1 (m_caps m)) as [[a b]|]; [|done].
    injection Hq as <-. by apply short_runs_take, short_runs_drop. }
  destruct (match_of_sets 2 code_block_pattern _ _ eq_refl Hm) as [a ->]. simpl.
  destruct (re_search _ (strip q)) as [num_match|] eqn:Hsearch; simpl; [|done].
  assert (match_of (Group 1 (plus digit)) (strip q) num_match) as Hnum.
  { unfold re_search in Hsearch. apply head_Some_elem_of in Hsearch.
    pose proof (finditer_match_of (Group 1 (plus digit)) (strip q)) as Hall.
    rewrite Forall_forall in Hall. by apply Hall. }
  apply digits_match in Hnum as (ns & Hns & Hne & Hall). rewrite Hns. simpl.
  destruct (group_run_short _ _ _ _ _ _ Hq_runs Hns Hall) as [Hlen _].
  by destruct (py_int_digits ns Hne Hall Hlen) as [n ->].
Qed.

(** [parse] returns on a text that, once normalized, has no run of more
    than [int_max_str_digits] decimal digits. *)
Lemma parse_total s source_file page_num :
  short_runs digit (S int_max_str_digits) (_normalize_text s) ->
  is_Some (parse s source_file page_num).
Proof.
  intros Hruns. unfold QAParser.parse. destruct (is_blank s); [done|].
  destruct (question_markers_total (_normalize_text s) Hruns) as [l1 ->]. simpl.
  destruct l1; [|done].
  by destruct (code_blocks_total (_normalize_text s) Hruns) as [l2 ->].
Qed.

End ParserTotal.

(** ** QAParser: the two contracts of [parse] *)

Section ParseContracts.
Import QAParser.

Variable decimal_value : char -> option N.
Variable isdigit_char : char -> bool.
Variable isword : char -> bool.

Local Abbreviation _parse_by_question_markers :=
  (_parse_by_question_markers decimal_value isdigit_char).
Local Abbreviation _parse_by_code_blocks :=
  (_parse_by_code_blocks decimal_value isword).
Local Abbreviation _parse_by_paragraphs := (_parse_by_paragraphs decimal_value).
Local Abbreviation para_step := (para_step decimal_value).
Local Abbreviation is_question := (is_question decimal_value).
Local Abbreviation parse := (parse decimal_value isdigit_char isword).

(** C3. In the list of pairs that [parse] returns for a text, every
    pair has [start_pos <= end_pos], adjacent pairs do not overlap, and
    the list is sorted by [start_pos]. *)
Theorem parse_pairs_ordered (s : text) (source_file : option text)
  (page_num : option Z) (pairs : list QAPair.t) :
  parse s source_file page_num = Some pairs ->
  Forall (fun p => QAPair.start_pos p <= QAPair.end_pos p) pairs
  /\ (forall i p q, pairs !! i = Some p -> pairs !! S i = Some q ->
        QAPair.end_pos p <= QAPair.start_pos q)
  /\ StronglySorted
       (fun p q => QAPair.start_pos p <= QAPair.start_pos q) pairs.
Proof.
  intros Hparse.
  by eapply well_placed_spelled_out, parse_well_placed.
Qed.

Lemma paragraphs_without_question l : forall st,
  forallb (fun para => negb (is_question (strip para))) l = true ->
  ps_question st = None -> ps_pairs st = [] ->
  flush_pair (fold_left para_step l st) = [].
Proof.
  induction l as [|para l IH]; intros st Hall Hq Hp; simpl.
  - unfold flush_pair. by rewrite Hq, Hp.
  - simpl in Hall. apply andb_true_iff in Hall as [Hpara Hall].
    apply negb_true_iff in Hpara.
    apply IH; [done|..]; unfold QAParser.para_step;
      destruct (strip para) as [|c para'] eqn:Hs; simpl; try done;
      rewrite Hpara; simpl; done.
Qed.

(** X26. When the marker scan and the code-block scan find
    nothing in the normalized text and no paragraph of it is classified
    as a question, [parse] returns the empty list.  [parse] returns a
    list, and so raises nothing, on every text that is blank or whose
    normalized form has no run of more than [int_max_str_digits] decimal
    digits. *)
Theorem parse_unstructured_empty (s : text) (source_file : option text)
  (page_num : option Z) :
  _parse_by_question_markers (_normalize_text s) = Some [] ->
  _parse_by_code_blocks (_normalize_text s) = Some [] ->
  forallb (fun para => negb (is_question (strip para)))
          (re_split paragraph_break (_normalize_text s)) = true ->
  parse s source_file page_num = Some []
  /\ (forall t sf pn,
        is_blank t = true
        \/ short_runs (digit decimal_value) (S int_max_str_digits)
                      (_normalize_text t) ->
        is_Some (parse t sf pn)).
Proof.
  intros Hmarkers Hblocks Hparas. split.
  - unfold QAParser.parse. destruct (is_blank s); [done|].
    rewrite Hmarkers. simpl. rewrite Hblocks. simpl.
    unfold QAParser._parse_by_paragraphs.
    by rewrite paragraphs_without_question.
  - intros t sf pn [Hblank|Hruns]; [|by apply parse_total].
    unfold QAParser.parse. by rewrite Hblank.
Qed.

End ParseContracts.

(** ** QAParser: [_clean_answer_text] *)

Section CleanAnswer.
Import QAParser.





























End CleanAnswer.

(** ** Chunker *)

Section ChunkerProps.
Import Chunker.

Variable config : ChunkerConfig.

Local Abbreviation max_size := (max_chunk_size config).
Local Abbreviation overlap := (overlap_size config).

Lemma lstrip_by_app_all p b w :
  forallb p w = true ->
  lstrip_by p (b ++ w) = match lstrip_by p b with [] => [] | x => x ++ w end.
Proof.
  intros Hw. induction b as [|c b IH]; simpl.
  - induction w as [|c w IHw]; simpl; [done|].
    simpl in Hw. apply andb_true_iff in Hw as [-> Hw]. by apply IHw.
  - destruct (p c); [exact IH|done].
Qed.

Lemma rstrip_by_app_all p x w :
  forallb p w = true -> rstrip_by p (x ++ w) = rstrip_by p x.
Proof.
  revert x. induction w as [|c w IH] using rev_ind; intros x Hw.
  - by rewrite app_nil_r.
  - rewrite forallb_app in Hw. apply andb_true_iff in Hw as [Hw Hc].
    simpl in Hc. rewrite andb_true_r in Hc.
    rewrite app_assoc, rstrip_by_app_true by done. by apply IH.
Qed.

Lemma strip_app_space b w : forallb isspace w = true -> strip (b ++ w) = strip b.
Proof.
  intros Hw. unfold strip. rewrite lstrip_by_app_all by done.
  destruct (lstrip_by isspace b) eqn:Hb; [done|].
  by rewrite rstrip_by_app_all.
Qed.

Lemma strip_body_length b : length (strip (b ++ [LF; LF])) <= length b.
Proof. rewrite strip_app_space by done. apply strip_length. Qed.

Lemma last_chars_length k s : 0 < k -> length (last_chars k s) <= k.
Proof.
  intros Hk. destruct k; [lia|]. unfold last_chars.
  rewrite length_drop. lia.
Qed.

(** *** Pairs that fit *)

Lemma chunk_qa_pairs_fit qa_pairs source_file : forall acc,
  forallb (fun qa => QAPair.char_count qa <=? max_size) qa_pairs = true ->
  Chunk.content <$> (fold_left (chunk_qa_step config source_file) qa_pairs acc).1
  = (Chunk.content <$> acc.1) ++ (QAPair.full_text <$> qa_pairs).
Proof.
  induction qa_pairs as [|qa l IH]; intros [chunks counter] Hfit; simpl.
  - by rewrite app_nil_r.
  - simpl in Hfit. apply andb_true_iff in Hfit as [Hqa Hl].
    apply Nat.leb_le in Hqa.
    rewrite IH by done. unfold chunk_qa_step.
    destruct (max_size <? QAPair.char_count qa) eqn:Hlong.
    { apply Nat.ltb_lt in Hlong. lia. }
    simpl. by rewrite fmap_app, <- app_assoc.
Qed.

(** *** Plain text whose paragraphs fit *)

Lemma plain_step_inv fuel source_file page_num st para :
  0 < overlap ->
  length (strip para) <= max_size ->
  plain_inv config st ->
  exists st', plain_step config fuel source_file page_num (Returns st) para
              = Returns st'
              /\ plain_inv config st'.
Proof.
  intros Hov Hpara (Hchunks & Hcontent). unfold plain_step.
  destruct (strip para) as [|c para'] eqn:Hs; [by exists st|].
  rewrite <- Hs in *. clear Hs c para'.
  destruct (max_size <? length (pl_content st) + length (strip para)) eqn:Hlong.
  - apply Nat.ltb_lt in Hlong.
    destruct (pl_content st) as [|c0 content] eqn:Hc; [simpl in Hlong; lia|].
    destruct Hcontent as [?|(body & Hbody & Hlen)]; [done|].
    set (ovl := if overlap <? length (c0 :: content)
                then last_chars overlap (c0 :: content) else []).
    assert (length ovl <= overlap) as Hovl.
    { subst ovl. destruct (_ <? _); [by apply last_chars_length|simpl; lia]. }
    eexists. split; [reflexivity|]. split; cbn [pl_chunks pl_content].
    + apply Forall_app. split; [done|]. repeat constructor. cbn [Chunk.content text_chunk].
      rewrite Hbody. etransitivity; [apply strip_body_length|done].
    + right. exists (ovl ++ [LF; LF] ++ strip para).
      split; [by rewrite <- !app_assoc|].
      rewrite !length_app. cbn [length]. lia.
  - apply Nat.ltb_ge in Hlong.
    eexists. split; [reflexivity|]. split; cbn [pl_chunks pl_content]; [done|].
    right. exists (pl_content st ++ strip para).
    split; [by rewrite app_assoc|]. rewrite length_app. lia.
Qed.

Lemma plain_fold_inv fuel source_file page_num paragraphs : forall st,
  0 < overlap ->
  forallb (fun para => length (strip para) <=? max_size) paragraphs = true ->
  plain_inv config st ->
  exists st', fold_left (plain_step config fuel source_file page_num) paragraphs
                (Returns st) = Returns st'
              /\ plain_inv config st'.
Proof.
  induction paragraphs as [|para l IH]; intros st Hov Hfit Hinv; cbn [fold_left].
  - by exists st.
  - simpl in Hfit. apply andb_true_iff in Hfit as [Hpara Hl].
    apply Nat.leb_le in Hpara.
    destruct (plain_step_inv fuel source_file page_num st para Hov Hpara Hinv)
      as (st1 & -> & Hinv1).
    by apply IH.
Qed.

Lemma chunk_plain_text_fit fuel s source_file page_num counter :
  0 < overlap ->
  forallb (fun para => length (strip para) <=? max_size)
          (re_split QAParser.paragraph_break s) = true ->
  exists chunks counter',
    chunk_plain_text config fuel s source_file page_num counter
    = Returns (chunks, counter')
    /\ Forall (fun c => length (Chunk.content c) <= max_size + overlap + 2) chunks.
Proof.
  intros Hov Hfit. unfold chunk_plain_text.
  destruct (is_blank s); [by eexists _, _|].
  destruct (plain_fold_inv fuel source_file page_num _
              {| pl_chunks := []; pl_content := []; pl_counter := counter |}
              Hov Hfit) as (st & -> & Hchunks & Hcontent).
  { split; [constructor|by left]. }
  destruct (strip (pl_content st)) as [|c stripped] eqn:Hs; [by eexists _, _|].
  eexists _, _. split; [reflexivity|].
  apply Forall_app. split; [done|]. repeat constructor.
  cbn [Chunk.content text_chunk].
  destruct Hcontent as [Hnil|(body & Hbody & Hlen)].
  - by rewrite Hnil in Hs.
  - rewrite <- Hs, Hbody. etransitivity; [apply strip_body_length|done].
Qed.

(** *** Forced splitting *)

Lemma py_slice_length s a b :
  (0 <= a)%Z -> (0 <= b)%Z -> length (py_slice s a b) <= Z.to_nat (b - a).
Proof.
  intros Ha Hb. unfold py_slice, slice, clamp_index.
  rewrite length_take, length_drop.
  destruct (Z.ltb_spec a 0), (Z.ltb_spec b 0); lia.
Qed.

Lemma py_index_in_range s i :
  (0 <= i < Z.of_nat (length s))%Z -> is_Some (py_index s i).
Proof.
  intros Hi. unfold py_index. destruct (Z.leb_spec 0 i); [|lia].
  apply lookup_lt_is_Some. lia.
Qed.

Lemma find_boundary_bounds s n : forall i j,
  find_boundary s i n = Some (Some j) -> (i - Z.of_nat n < j <= i)%Z.
Proof.
  induction n as [|n IH]; intros i j; cbn [find_boundary]; [done|].
  destruct (py_index s i) as [c|]; cbn [mbind option_bind]; [|done].
  destruct (mem_char c (terminators ++ [LF])).
  - intros ?. simplify_eq. lia.
  - intros H. apply IH in H. lia.
Qed.

Lemma find_boundary_total s n : forall i,
  (Z.of_nat n <= i + 1)%Z -> (i < Z.of_nat (length s))%Z ->
  is_Some (find_boundary s i n).
Proof.
  induction n as [|n IH]; intros i Hlo Hhi; cbn [find_boundary]; [eauto|].
  destruct (py_index_in_range s i) as [c ->]; [lia|]. cbn [mbind option_bind].
  destruct (mem_char c (terminators ++ [LF])); [eauto|]. apply IH; lia.
Qed.

Lemma force_split_loop_ok s source_file page_num fuel :
  forall start chunks counter,
  0 < max_size -> overlap <= max_size / 2 ->
  (0 <= start)%Z -> (Z.of_nat (length s) - start <= Z.of_nat fuel)%Z ->
  Forall (fun c => length (Chunk.content c) <= max_size + 1) chunks ->
  exists chunks' counter',
    force_split_loop config fuel s source_file page_num start chunks counter
    = Returns (chunks', counter')
    /\ Forall (fun c => length (Chunk.content c) <= max_size + 1) chunks'.
Proof.
  pose proof (Nat.Div0.mul_div_le max_size 2) as Hhalf.
  induction fuel as [|fuel IH]; intros start chunks counter Hmax Hov Hstart Hfuel Hall.
  - exists chunks, counter. cbn [force_split_loop].
    destruct (Z.ltb_spec start (Z.of_nat (length s))); [lia|done].
  - cbn [force_split_loop].
    destruct (Z.ltb_spec start (Z.of_nat (length s))) as [Hlt|Hge];
      [|by exists chunks, counter].
    cbv zeta.
    set (h := max_size / 2) in *.
    set (end0 := (start + Z.of_nat max_size)%Z).
    assert (exists boundary,
      (if (end0 <? Z.of_nat (length s))%Z
       then find_boundary s end0
              (Z.to_nat (end0 - Z.max (start + Z.of_nat h) start))
       else Some None) = Some boundary
      /\ match boundary with
         | Some j => (start + Z.of_nat h < j <= end0)%Z
                     /\ (end0 < Z.of_nat (length s))%Z
         | None => True
         end) as (boundary & -> & Hb).
    { destruct (Z.ltb_spec end0 (Z.of_nat (length s))) as [Hend|Hend].
      - destruct (find_boundary_total s
                    (Z.to_nat (end0 - Z.max (start + Z.of_nat h) start)) end0)
          as [boundary Hfound]; [lia..|].
        exists boundary. split; [done|].
        destruct boundary as [j|]; [|done].
        apply find_boundary_bounds in Hfound. lia.
      - by exists None. }
    set (end1 := match boundary with Some i => (i + 1)%Z | None => end0 end).
    assert (start + 1 <= end1 - Z.of_nat overlap /\ end1 - start <= Z.of_nat max_size + 1
            /\ start + 1 <= end1)%Z as (Hprog & Hlen & Hprog').
    { subst end1 end0. destruct boundary as [j|]; lia. }
    destruct (_generate_chunk_id "text" counter) as [chunk_id counter1].
    apply IH; [done|done| | |].
    + destruct (_ <? _)%Z; lia.
    + destruct (_ <? _)%Z; lia.
    + apply Forall_app. split; [done|]. repeat constructor.
      cbn [Chunk.content text_chunk].
      etransitivity; [apply strip_length|].
      etransitivity; [apply py_slice_length; lia|]. lia.
Qed.

Lemma force_split_ok fuel s source_file page_num counter :
  0 < max_size -> overlap <= max_size / 2 -> length s <= fuel ->
  exists chunks counter',
    _force_split config fuel s source_file page_num counter
    = Returns (chunks, counter')
    /\ Forall (fun c => length (Chunk.content c) <= max_size + 1) chunks.
Proof.
  intros Hmax Hov Hfuel. apply force_split_loop_ok; [done|done|lia|lia|constructor].
Qed.

(** *** Markdown sections *)

Lemma md_chunk_step_ok fuel source_file page_num chunks counter sec :
  0 < max_size -> overlap <= max_size / 2 ->
  length (section_text sec) <= fuel ->
  Forall (fun c => length (Chunk.content c) <= max_size + 1) chunks ->
  exists chunks' counter',
    md_chunk_step config fuel source_file page_num (Returns (chunks, counter)) sec
    = Returns (chunks', counter')
    /\ Forall (fun c => length (Chunk.content c) <= max_size + 1) chunks'.
Proof.
  intros Hmax Hov Hfuel Hall. unfold md_chunk_step.
  destruct (section_text sec) as [|c0 t] eqn:Ht; [by eexists _, _|].
  rewrite <- Ht in *. clear Ht c0 t.
  destruct (max_size <? length (section_text sec)) eqn:Hlong.
  - destruct (force_split_ok fuel (section_text sec) source_file page_num counter
                Hmax Hov Hfuel) as (subs & counter' & -> & Hsubs).
    eexists _, _. split; [reflexivity|].
    apply Forall_app. split; [done|].
    destruct sec.1 as [[|c1 title]|]; [done| |done].
    apply Forall_fmap. eapply Forall_impl; [exact Hsubs|]. done.
  - apply Nat.ltb_ge in Hlong.
    destruct (_generate_chunk_id "md" counter) as [chunk_id counter1].
    eexists _, _. split; [reflexivity|].
    apply Forall_app. split; [done|]. repeat constructor.
    cbn [Chunk.content text_chunk]. lia.
Qed.

Lemma md_fold_ok fuel source_file page_num sections : forall chunks counter,
  0 < max_size -> overlap <= max_size / 2 ->
  forallb (fun sec => length (section_text sec) <=? fuel) sections = true ->
  Forall (fun c => length (Chunk.content c) <= max_size + 1) chunks ->
  exists chunks' counter',
    fold_left (md_chunk_step config fuel source_file page_num) sections
      (Returns (chunks, counter))
    = Returns (chunks', counter')
    /\ Forall (fun c => length (Chunk.content c) <= max_size + 1) chunks'.
Proof.
  induction sections as [|sec l IH]; intros chunks counter Hmax Hov Hfuel Hall;
    cbn [fold_left]; [by eexists _, _|].
  simpl in Hfuel. apply andb_true_iff in Hfuel as [Hsec Hl].
  apply Nat.leb_le in Hsec.
  destruct (md_chunk_step_ok fuel source_file page_num chunks counter sec
              Hmax Hov Hsec Hall) as (chunks1 & n1 & -> & Hall1).
  by apply IH.
Qed.

Lemma chunk_markdown_ok fuel s source_file page_num counter :
  0 < max_size -> overlap <= max_size / 2 ->
  md_falls_back (markdown_sections s) = false ->
  forallb (fun sec => length (section_text sec) <=? fuel) (markdown_sections s)
  = true ->
  exists chunks counter',
    chunk_markdown config fuel s source_file page_num counter
    = Returns (chunks, counter')
    /\ Forall (fun c => length (Chunk.content c) <= max_size + 1) chunks.
Proof.
  intros Hmax Hov Hback Hfuel. unfold chunk_markdown.
  destruct (is_blank s); [by eexists _, _|].
  rewrite Hback. apply md_fold_ok; [done..|constructor].
Qed.

(** X25. [char_count] is the length of [content] for every
    chunk.  A pair that fits in [max_chunk_size] becomes one chunk whose
    content is its full text, so of length at most [max_chunk_size].  For
    plain text, when [overlap_size] is positive and no paragraph is longer
    than [max_chunk_size], [chunk_plain_text] returns and every chunk is at
    most [max_chunk_size + overlap_size + 2] long, the two further
    characters being the blank line between the overlap and the
    paragraph.  When [overlap_size] is at most half of a positive
    [max_chunk_size], [_force_split] returns and its pieces are at most
    [max_chunk_size + 1] long, and so are the chunks of [chunk_markdown]
    on a text that it does not hand over to [chunk_plain_text]. *)
Theorem chunk_lengths_bounded :
  (forall c : Chunk.t, Chunk.char_count c = length (Chunk.content c))
  /\ (forall qa_pairs source_file counter,
        forallb (fun qa => QAPair.char_count qa <=? max_size) qa_pairs = true ->
        Chunk.content <$> (chunk_qa_pairs config qa_pairs source_file counter).1
        = QAPair.full_text <$> qa_pairs
        /\ Forall (fun c => Chunk.char_count c <= max_size)
                  (chunk_qa_pairs config qa_pairs source_file counter).1)
  /\ (forall fuel s source_file page_num counter,
        0 < overlap ->
        forallb (fun para => length (strip para) <=? max_size)
                (re_split QAParser.paragraph_break s) = true ->
        exists chunks counter',
          chunk_plain_text config fuel s source_file page_num counter
          = Returns (chunks, counter')
          /\ Forall (fun c => Chunk.char_count c <= max_size + overlap + 2)
                    chunks)
  /\ (forall fuel s source_file page_num counter,
        0 < max_size -> overlap <= max_size / 2 -> length s <= fuel ->
        exists chunks counter',
          _force_split config fuel s source_file page_num counter
          = Returns (chunks, counter')
          /\ Forall (fun c => Chunk.char_count c <= max_size + 1) chunks)
  /\ (forall fuel s source_file page_num counter,
        0 < max_size -> overlap <= max_size / 2 ->
        md_falls_back (markdown_sections s) = false ->
        forallb (fun sec => length (section_text sec) <=? fuel)
                (markdown_sections s) = true ->
        exists chunks counter',
          chunk_markdown config fuel s source_file page_num counter
          = Returns (chunks, counter')
          /\ Forall (fun c => Chunk.char_count c <= max_size + 1) chunks).
Proof.
  split; [done|]. split; [|split; [|split]].
  - intros qa_pairs source_file counter Hfit.
    pose proof (chunk_qa_pairs_fit qa_pairs source_file ([], counter) Hfit) as Hc.
    simpl in Hc. split; [exact Hc|].
    unfold chunk_qa_pairs.
    assert (Forall (fun t : text => length t <= max_size)
              (Chunk.content <$>
               (fold_left (chunk_qa_step config source_file) qa_pairs ([], counter)).1))
      as Hall; [|by apply Forall_fmap in Hall].
    rewrite Hc. apply Forall_fmap, Forall_forall.
    intros qa Hqa. rewrite forallb_forall in Hfit.
    apply list_elem_of_In, Hfit, Nat.leb_le in Hqa. exact Hqa.
  - intros. by apply chunk_plain_text_fit.
  - intros. by apply force_split_ok.
  - intros. by apply chunk_markdown_ok.
Qed.

(** With [overlap_size = 0] the overlap taken by [chunk_plain_text] is
    the whole accumulated text ([s[-0:]] is [s]), and the chunks grow:
    three paragraphs of six characters under [max_chunk_size = 10]. *)
Example plain_text_zero_overlap_grows :
  exists chunks counter,
    chunk_plain_text {| max_chunk_size := 10; min_chunk_size := 1; overlap_size := 0 |}
      0 (of_string "aaaaaa" ++ [LF; LF] ++ of_string "bbbbbb" ++ [LF; LF]
         ++ of_string "cccccc") None None 0
    = Returns (chunks, counter)
    /\ Chunk.char_count <$> chunks = [6; 16; 26].
Proof. eexists _, _. split; vm_compute; reflexivity. Qed.

End ChunkerProps.


(** * Further properties of the code *)

(** ** Chunk identifiers *)

Section ChunkIds.
Import Chunker.

Lemma zeros_cons k :
  String.concat EmptyString (repeat "0"%string (S k))
  = String "0" (String.concat EmptyString (repeat "0"%string k)).
Proof. destruct k; reflexivity. Qed.

Lemma read_zeros k s :
  NilEmpty.uint_of_string
    (String.concat EmptyString (repeat "0"%string k) ++ s)
  = Nat.iter k Decimal.D0 <$> NilEmpty.uint_of_string s.
Proof.
  induction k as [|k IH].
  - change (String.concat _ _ ++ s)%string with s.
    by destruct (NilEmpty.uint_of_string s).
  - rewrite zeros_cons.
    change (String "0" ?a ++ s)%string with (String "0" (a ++ s)).
    cbn [NilEmpty.uint_of_string].
    rewrite IH. cbn [Nat.iter]. by destruct (NilEmpty.uint_of_string s).
Qed.

Lemma of_uint_zeros k d : Nat.of_uint (Nat.iter k Decimal.D0 d) = Nat.of_uint d.
Proof. induction k as [|k IH]; [done|]. cbn [Nat.iter]. exact IH. Qed.

Lemma read_string_of_uint d :
  Nat.of_uint <$> NilEmpty.uint_of_string (NilZero.string_of_uint d)
  = Some (Nat.of_uint d).
Proof.
  destruct d; [reflexivity|..]; cbn [NilZero.string_of_uint];
    by rewrite NilEmpty.usu.
Qed.

Lemma pad6_read n : read_number (pad6 n) = Some n.
Proof.
  unfold read_number, pad6. rewrite read_zeros.
  pose proof (read_string_of_uint (Nat.to_uint n)) as H.
  destruct (NilEmpty.uint_of_string (NilZero.string_of_uint (Nat.to_uint n)))
    as [d|]; [|done].
  cbn [fmap option_fmap option_map] in *. rewrite of_uint_zeros.
  injection H as ->. by rewrite Unsigned.of_to.
Qed.

Lemma pad6_inj n m : pad6 n = pad6 m -> n = m.
Proof.
  intros H. pose proof (pad6_read n) as Hn. rewrite H, pad6_read in Hn.
  by simplify_eq.
Qed.

Lemma generate_chunk_id_inj p1 p2 n m :
  p1 ∈ id_prefixes -> p2 ∈ id_prefixes ->
  (_generate_chunk_id p1 n).1 = (_generate_chunk_id p2 m).1 ->
  p1 = p2 /\ n = m.
Proof.
  unfold id_prefixes, _generate_chunk_id. cbn [fst].
  intros H1 H2 Heq.
  assert (p1 = p2) as <-.
  { set_unfold. destruct H1 as [->|[->|[->|[]]]], H2 as [->|[->|[->|[]]]];
      try reflexivity; vm_compute in Heq; discriminate. }
  split; [done|].
  apply String.app_inj, String.app_inj, pad6_inj in Heq. lia.
Qed.

End ChunkIds.

Section Numbering.
Import Chunker.

Variable config : ChunkerConfig.

Ltac prefix_solve :=
  first [ by repeat constructor
        | intros ? ->%list_elem_of_singleton; by repeat constructor ].

Lemma numbered_nil ps counter : numbered ps counter [].
Proof. intros i c H. by rewrite lookup_nil in H. Qed.

Lemma numbered_app ps counter chunks more :
  numbered ps counter chunks ->
  numbered ps (counter + length chunks) more ->
  numbered ps counter (chunks ++ more).
Proof.
  intros H1 H2 i c Hi. apply lookup_app_Some in Hi as [Hi|[Hge Hi]].
  - by apply H1.
  - destruct (H2 _ _ Hi) as (prefix & Hp & ->). exists prefix. split; [done|].
    by replace (counter + length chunks + (i - length chunks)) with (counter + i)
      by lia.
Qed.

Lemma numbered_snoc ps counter chunks c prefix :
  prefix ∈ ps ->
  numbered ps counter chunks ->
  Chunk.chunk_id c = (_generate_chunk_id prefix (counter + length chunks)).1 ->
  numbered ps counter (chunks ++ [c]).
Proof.
  intros Hp H Hc. apply numbered_app; [done|].
  intros [|i] c' Hi; simplify_eq/=. exists prefix. split; [done|].
  rewrite Hc. by rewrite Nat.add_0_r.
Qed.

Lemma numbered_weaken ps ps' counter chunks :
  ps ⊆ ps' -> numbered ps counter chunks -> numbered ps' counter chunks.
Proof.
  intros Hsub H i c Hi. destruct (H _ _ Hi) as (prefix & Hp & ->).
  exists prefix. split; [by apply Hsub|done].
Qed.

Lemma numbered_fmap ps counter (f : Chunk.t -> Chunk.t) chunks :
  (forall c, Chunk.chunk_id (f c) = Chunk.chunk_id c) ->
  numbered ps counter chunks -> numbered ps counter (f <$> chunks).
Proof.
  intros Hf H i c Hi. rewrite list_lookup_fmap in Hi.
  destruct (chunks !! i) as [c0|] eqn:Hc0; simplify_eq/=.
  rewrite Hf. by apply H.
Qed.

Lemma numbered_NoDup ps counter chunks :
  ps ⊆ id_prefixes ->
  numbered ps counter chunks -> NoDup (Chunk.chunk_id <$> chunks).
Proof.
  intros Hsub H. apply NoDup_alt. intros i j id Hi Hj.
  rewrite list_lookup_fmap in Hi, Hj.
  destruct (chunks !! i) as [ci|] eqn:Hci; simplify_eq/=.
  destruct (chunks !! j) as [cj|] eqn:Hcj; simplify_eq/=.
  destruct (H _ _ Hci) as (p1 & Hp1 & Hid1).
  destruct (H _ _ Hcj) as (p2 & Hp2 & Hid2).
  rewrite Hid1, Hid2 in Hj.
  apply generate_chunk_id_inj in Hj as [_ Hj]; [lia|by apply Hsub..].
Qed.

(** [_split_long_qa] *)
Lemma split_step_numbered qa source_file counter st para :
  ss_counter st = counter + length (ss_chunks st) ->
  numbered ["qa"%string] counter (ss_chunks st) ->
  let st' := split_step config qa source_file st para in
  ss_counter st' = counter + length (ss_chunks st')
  /\ numbered ["qa"%string] counter (ss_chunks st').
Proof.
  intros Hc Hn. unfold split_step.
  destruct (strip para) as [|c0 para']; [done|].
  destruct (_ && _); cbn [ss_counter ss_chunks _generate_chunk_id snd]; [|done].
  rewrite length_app. cbn [length]. split; [lia|].
  apply (numbered_snoc _ _ _ _ "qa"%string); [prefix_solve|done|].
  cbn [qa_chunk Chunk.chunk_id]. by rewrite Hc.
Qed.

Lemma split_long_qa_numbered qa source_file counter :
  let r := _split_long_qa config qa source_file counter in
  r.2 = counter + length r.1 /\ numbered ["qa"%string] counter r.1.
Proof.
  unfold _split_long_qa.
  set (paragraphs := re_split _ _). cbv zeta.
  set (st0 := {| ss_chunks := []; ss_content := _; ss_parts := [];
                 ss_counter := counter |}).
  assert (forall paragraphs st,
    ss_counter st = counter + length (ss_chunks st) ->
    numbered ["qa"%string] counter (ss_chunks st) ->
    let st' := fold_left (split_step config qa source_file) paragraphs st in
    ss_counter st' = counter + length (ss_chunks st')
    /\ numbered ["qa"%string] counter (ss_chunks st')) as Hfold.
  { clear. induction paragraphs as [|para l IH]; intros st Hc Hn; [done|].
    cbn [fold_left].
    destruct (split_step_numbered qa source_file counter st para Hc Hn).
    by apply IH. }
  specialize (Hfold paragraphs st0). cbv zeta in Hfold.
  destruct Hfold as [Hc Hn]; [simpl; lia|apply numbered_nil|].
  destruct (ss_parts _) as [|p ps]; [done|].
  cbn [_generate_chunk_id fst snd]. rewrite length_app. cbn [length].
  split; [lia|].
  apply (numbered_snoc _ _ _ _ "qa"%string); [prefix_solve|done|].
  cbn [qa_chunk Chunk.chunk_id]. by rewrite Hc.
Qed.

Lemma chunk_qa_step_numbered source_file counter acc qa :
  acc.2 = counter + length acc.1 ->
  numbered ["qa"%string] counter acc.1 ->
  let r := chunk_qa_step config source_file acc qa in
  r.2 = counter + length r.1 /\ numbered ["qa"%string] counter r.1.
Proof.
  destruct acc as [chunks n]. cbn [fst snd]. intros -> Hn.
  unfold chunk_qa_step.
  destruct (_ <? _).
  - pose proof (split_long_qa_numbered qa source_file (counter + length chunks))
      as Hs.
    destruct (_split_long_qa _ _ _ _) as [subs n']. cbn [fst snd] in *.
    destruct Hs as [-> Hs]. rewrite length_app. split; [lia|].
    by apply numbered_app.
  - cbn [_generate_chunk_id fst snd]. rewrite length_app. cbn [length].
    split; [lia|].
    apply (numbered_snoc _ _ _ _ "qa"%string); [prefix_solve|done|]. done.
Qed.

Lemma chunk_qa_pairs_numbered qa_pairs source_file counter :
  let r := chunk_qa_pairs config qa_pairs source_file counter in
  r.2 = counter + length r.1 /\ numbered ["qa"%string] counter r.1.
Proof.
  unfold chunk_qa_pairs.
  assert (forall l acc,
    acc.2 = counter + length acc.1 ->
    numbered ["qa"%string] counter acc.1 ->
    let r := fold_left (chunk_qa_step config source_file) l acc in
    r.2 = counter + length r.1 /\ numbered ["qa"%string] counter r.1) as Hfold.
  { induction l as [|qa l IH]; intros acc Hc Hn; [done|]. cbn [fold_left].
    destruct (chunk_qa_step_numbered source_file counter acc qa Hc Hn).
    by apply IH. }
  apply Hfold; [simpl; lia|apply numbered_nil].
Qed.

(** [_force_split], [chunk_plain_text] and [chunk_markdown] *)
Lemma force_split_loop_numbered s source_file page_num counter fuel :
  forall start chunks n chunks' n',
  n = counter + length chunks ->
  numbered ["text"%string] counter chunks ->
  force_split_loop config fuel s source_file page_num start chunks n
  = Returns (chunks', n') ->
  n' = counter + length chunks' /\ numbered ["text"%string] counter chunks'.
Proof.
  induction fuel as [|fuel IH]; intros start chunks n chunks' n' Hc Hn;
    cbn [force_split_loop]; destruct (_ <? _)%Z; try done;
    try (intros ?; by simplify_eq).
  cbv zeta.
  destruct (if (_ <? _)%Z then _ else _) as [boundary|]; [|done].
  cbn [_generate_chunk_id]. apply IH.
  - rewrite length_app. cbn [length]. lia.
  - apply (numbered_snoc _ _ _ _ "text"%string); [prefix_solve|done|].
    cbn [text_chunk Chunk.chunk_id]. by rewrite Hc.
Qed.

Lemma force_split_numbered fuel s source_file page_num counter chunks n :
  _force_split config fuel s source_file page_num counter = Returns (chunks, n) ->
  n = counter + length chunks /\ numbered ["text"%string] counter chunks.
Proof.
  intros H.
  destruct (force_split_loop_numbered s source_file page_num counter fuel
              0%Z [] counter chunks n) as [-> Hn];
    [simpl; lia|apply numbered_nil|exact H|].
  done.
Qed.

Lemma plain_step_numbered fuel source_file page_num counter st para st' :
  pl_counter st = counter + length (pl_chunks st) ->
  numbered ["text"%string] counter (pl_chunks st) ->
  plain_step config fuel source_file page_num (Returns st) para = Returns st' ->
  pl_counter st' = counter + length (pl_chunks st')
  /\ numbered ["text"%string] counter (pl_chunks st').
Proof.
  intros Hc Hn. unfold plain_step.
  destruct (strip para) as [|c0 para'] eqn:Hs; [intros ?; by simplify_eq|].
  destruct (_ <? _).
  - destruct (pl_content st) as [|c1 content].
    + destruct (_force_split _ _ _ _ _ _) as [[subs n]| |] eqn:Hf; try done.
      apply force_split_numbered in Hf as [-> Hsubs].
      intros ?; simplify_eq. cbn [pl_counter pl_chunks].
      rewrite length_app. split; [lia|].
      apply numbered_app; [done|]. by rewrite <- Hc.
    + cbn [_generate_chunk_id].
      intros ?; simplify_eq. cbn [pl_counter pl_chunks].
      rewrite length_app. cbn [length]. split; [lia|].
      apply (numbered_snoc _ _ _ _ "text"%string); [prefix_solve|done|].
      cbn [text_chunk Chunk.chunk_id]. by rewrite Hc.
  - intros ?; by simplify_eq.
Qed.

Lemma plain_fold_numbered fuel source_file page_num counter paragraphs :
  forall st st',
  pl_counter st = counter + length (pl_chunks st) ->
  numbered ["text"%string] counter (pl_chunks st) ->
  fold_left (plain_step config fuel source_file page_num) paragraphs (Returns st)
  = Returns st' ->
  pl_counter st' = counter + length (pl_chunks st')
  /\ numbered ["text"%string] counter (pl_chunks st').
Proof.
  induction paragraphs as [|para l IH]; intros st st' Hc Hn; cbn [fold_left].
  - intros ?; by simplify_eq.
  - destruct (plain_step config fuel source_file page_num (Returns st) para)
      as [st1| |] eqn:Hstep.
    + destruct (plain_step_numbered _ _ _ _ _ _ _ Hc Hn Hstep). by apply IH.
    + assert (forall l, fold_left (plain_step config fuel source_file page_num)
                          l Raises = Raises) as ->
        by (induction l0; [done|assumption]).
      done.
    + assert (forall l, fold_left (plain_step config fuel source_file page_num)
                          l NoFuel = NoFuel) as ->
        by (induction l0; [done|assumption]).
      done.
Qed.

Lemma chunk_plain_text_numbered fuel s source_file page_num counter chunks n :
  chunk_plain_text config fuel s source_file page_num counter
  = Returns (chunks, n) ->
  n = counter + length chunks /\ numbered ["text"%string] counter chunks.
Proof.
  unfold chunk_plain_text.
  destruct (is_blank s).
  { intros ?; simplify_eq. split; [simpl; lia|apply numbered_nil]. }
  destruct (fold_left _ _ _) as [st| |] eqn:Hfold; try done.
  apply plain_fold_numbered with (counter := counter) in Hfold as [Hc Hn];
    [|simpl; lia|apply numbered_nil].
  destruct (strip (pl_content st)) as [|c0 stripped].
  - intros ?; by simplify_eq.
  - cbn [_generate_chunk_id]. intros ?; simplify_eq.
    rewrite length_app. cbn [length]. split; [lia|].
    apply (numbered_snoc _ _ _ _ "text"%string); [prefix_solve|done|].
    cbn [text_chunk Chunk.chunk_id]. by rewrite Hc.
Qed.

Lemma md_chunk_step_numbered fuel source_file page_num counter chunks n sec
    chunks' n' :
  n = counter + length chunks ->
  numbered ["text"; "md"]%string counter chunks ->
  md_chunk_step config fuel source_file page_num (Returns (chunks, n)) sec
  = Returns (chunks', n') ->
  n' = counter + length chunks'
  /\ numbered ["text"; "md"]%string counter chunks'.
Proof.
  intros Hc Hn. unfold md_chunk_step.
  destruct (section_text sec) as [|c0 t]; [intros ?; by simplify_eq|].
  destruct (_ <? _).
  - destruct (_force_split _ _ _ _ _ _) as [[subs m]| |] eqn:Hf; try done.
    apply force_split_numbered in Hf as [-> Hsubs].
    apply (numbered_weaken _ ["text"; "md"]%string) in Hsubs; [|prefix_solve].
    intros ?; simplify_eq. rewrite length_app.
    destruct sec.1 as [[|c1 title]|].
    + split; [lia|]. by apply numbered_app.
    + rewrite length_fmap. split; [lia|]. apply numbered_app; [done|].
      by apply numbered_fmap.
    + split; [lia|]. by apply numbered_app.
  - cbn [_generate_chunk_id]. intros ?; simplify_eq.
    rewrite length_app. cbn [length]. split; [lia|].
    apply (numbered_snoc _ _ _ _ "md"%string); [prefix_solve|done|]. done.
Qed.

Lemma md_fold_numbered fuel source_file page_num counter sections :
  forall chunks n chunks' n',
  n = counter + length chunks ->
  numbered ["text"; "md"]%string counter chunks ->
  fold_left (md_chunk_step config fuel source_file page_num) sections
    (Returns (chunks, n)) = Returns (chunks', n') ->
  n' = counter + length chunks'
  /\ numbered ["text"; "md"]%string counter chunks'.
Proof.
  induction sections as [|sec l IH]; intros chunks n chunks' n' Hc Hn;
    cbn [fold_left].
  - intros ?; by simplify_eq.
  - destruct (md_chunk_step config fuel source_file page_num
                (Returns (chunks, n)) sec) as [[chunks1 n1]| |] eqn:Hstep.
    + destruct (md_chunk_step_numbered _ _ _ _ _ _ _ _ _ Hc Hn Hstep).
      by apply IH.
    + assert (forall l, fold_left (md_chunk_step config fuel source_file page_num)
                          l Raises = Raises) as ->
        by (induction l0; [done|assumption]).
      done.
    + assert (forall l, fold_left (md_chunk_step config fuel source_file page_num)
                          l NoFuel = NoFuel) as ->
        by (induction l0; [done|assumption]).
      done.
Qed.

Lemma chunk_markdown_numbered fuel s source_file page_num counter chunks n :
  chunk_markdown config fuel s source_file page_num counter
  = Returns (chunks, n) ->
  n = counter + length chunks
  /\ numbered ["text"; "md"]%string counter chunks.
Proof.
  unfold chunk_markdown.
  destruct (is_blank s).
  { intros ?; simplify_eq. split; [simpl; lia|apply numbered_nil]. }
  destruct (md_falls_back _).
  - intros H. apply chunk_plain_text_numbered in H as [-> H].
    split; [done|]. eapply numbered_weaken; [|exact H]. prefix_solve.
  - apply md_fold_numbered; [simpl; lia|apply numbered_nil].
Qed.

(** X1. [chunk_qa_pairs] takes one identifier per chunk it returns: the
    counter advances by the number of chunks, the chunk at index [i]
    carries the identifier generated under the prefix [qa] from the
    counter value [counter + i], no two chunks of a call share an
    identifier, and neither do the chunks of two successive calls of
    which the second starts from the counter the first one left. *)
Theorem chunk_qa_pairs_ids (qa_pairs : list QAPair.t)
  (source_file : option text) (counter : nat) :
  let r := chunk_qa_pairs config qa_pairs source_file counter in
  r.2 = counter + length r.1
  /\ (forall i c, r.1 !! i = Some c ->
        Chunk.chunk_id c = (_generate_chunk_id "qa" (counter + i)).1
        /\ Chunk.chunk_id c = ("qa_" ++ pad6 (counter + i + 1))%string)
  /\ NoDup (Chunk.chunk_id <$> r.1)
  /\ (forall more source_file',
        NoDup (Chunk.chunk_id <$>
               r.1 ++ (chunk_qa_pairs config more source_file' r.2).1)).
Proof.
  intros r. subst r.
  destruct (chunk_qa_pairs_numbered qa_pairs source_file counter) as [Hc Hn].
  split; [done|]. split; [|split].
  - intros i c Hi. destruct (Hn _ _ Hi) as (prefix & ->%list_elem_of_singleton & ->).
    split; [done|]. cbn [_generate_chunk_id fst].
    by replace (S (counter + i)) with (counter + i + 1) by lia.
  - apply (numbered_NoDup ["qa"%string] counter); [prefix_solve|exact Hn].
  - intros more source_file'.
    destruct (chunk_qa_pairs_numbered more source_file'
                (chunk_qa_pairs config qa_pairs source_file counter).2)
      as [_ Hn'].
    apply (numbered_NoDup ["qa"%string] counter); [prefix_solve|].
    apply numbered_app; [exact Hn|]. rewrite <- Hc. exact Hn'.
Qed.

(** The pieces of [_force_split] are marked as such, and the chunks of
    [chunk_markdown] on a text with headings are numbered by kind. *)
Lemma force_split_loop_forced s source_file page_num fuel :
  forall start chunks n chunks' n',
  Forall (fun c => forced_piece c = true) chunks ->
  force_split_loop config fuel s source_file page_num start chunks n
  = Returns (chunks', n') ->
  Forall (fun c => forced_piece c = true) chunks'.
Proof.
  induction fuel as [|fuel IH]; intros start chunks n chunks' n' Hall;
    cbn [force_split_loop]; destruct (_ <? _)%Z; try done;
    try (intros ?; by simplify_eq).
  cbv zeta.
  destruct (if (_ <? _)%Z then _ else _) as [boundary|]; [|done].
  cbn [_generate_chunk_id]. apply IH.
  apply Forall_app. split; [done|]. by repeat constructor.
Qed.

Lemma forced_piece_tag_section title c :
  forced_piece (tag_section title c) = forced_piece c.
Proof.
  unfold forced_piece, tag_section. cbn [Chunk.metadata].
  by destruct (Chunk.metadata c) as [|[key [| | |]] l].
Qed.

Lemma md_numbered_app sections counter chunks more :
  md_numbered config sections counter chunks ->
  md_numbered config sections (counter + length chunks) more ->
  md_numbered config sections counter (chunks ++ more).
Proof.
  intros H1 H2 i c Hi. apply lookup_app_Some in Hi as [Hi|[Hge Hi]].
  - by apply H1.
  - destruct (H2 _ _ Hi) as [Hid Hsec]. split; [|done]. rewrite Hid.
    by replace (counter + length chunks + (i - length chunks)) with (counter + i)
      by lia.
Qed.

Lemma md_chunk_step_kinds fuel source_file page_num sections counter chunks n
    sec chunks' n' :
  sec ∈ sections ->
  n = counter + length chunks ->
  md_numbered config sections counter chunks ->
  md_chunk_step config fuel source_file page_num (Returns (chunks, n)) sec
  = Returns (chunks', n') ->
  md_numbered config sections counter chunks'.
Proof.
  intros Hsec Hc Hn. unfold md_chunk_step.
  destruct (section_text sec) as [|c0 t] eqn:Htext; [intros ?; by simplify_eq|].
  destruct (Nat.ltb_spec (max_chunk_size config) (length (c0 :: t))) as [Hlong|Hfits].
  - destruct (_force_split _ _ _ _ _ _) as [[subs m]| |] eqn:Hf; try done.
    pose proof Hf as [_ Hsubs]%force_split_numbered.
    apply force_split_loop_forced in Hf; [|constructor].
    intros ?; simplify_eq. apply md_numbered_app; [done|].
    assert (md_numbered config sections (counter + length chunks) subs) as Hmd.
    { intros i c Hi.
      assert (forced_piece c = true) as Hforced
        by (rewrite Forall_forall in Hf; apply Hf; by eapply list_elem_of_lookup_2).
      rewrite Hforced.
      destruct (Hsubs _ _ Hi) as (prefix & ->%list_elem_of_singleton & ->).
      split; [done|]. exists sec. by rewrite Htext. }
    destruct sec.1 as [[|c1 title]|]; [done| |done].
    intros i c Hi. rewrite list_lookup_fmap in Hi.
    destruct (subs !! i) as [c'|] eqn:Hc'; simplify_eq/=.
    rewrite forced_piece_tag_section. by apply Hmd.
  - cbn [_generate_chunk_id]. intros ?; simplify_eq.
    apply md_numbered_app; [done|].
    intros i c Hi. apply list_lookup_singleton_Some in Hi as [-> <-].
    rewrite Nat.add_0_r.
    destruct sec.1 as [[|c1 title]|] eqn:Htitle;
      unfold forced_piece; cbn [text_chunk Chunk.metadata Chunk.chunk_id
                                  Chunk.content String.eqb];
      (split; [done|]); exists sec; by rewrite Htext.
Qed.

Lemma md_fold_kinds fuel source_file page_num all counter sections :
  forall chunks n chunks' n',
  sections ⊆ all ->
  n = counter + length chunks ->
  md_numbered config all counter chunks ->
  fold_left (md_chunk_step config fuel source_file page_num) sections
    (Returns (chunks, n)) = Returns (chunks', n') ->
  md_numbered config all counter chunks'.
Proof.
  induction sections as [|sec l IH]; intros chunks n chunks' n' Hsub Hc Hn;
    cbn [fold_left].
  - intros ?; by simplify_eq.
  - destruct (md_chunk_step config fuel source_file page_num
                (Returns (chunks, n)) sec) as [[chunks1 n1]| |] eqn:Hstep.
    + assert (numbered ["text"; "md"]%string counter chunks) as Hnum.
      { intros i c Hi. destruct (Hn _ _ Hi) as [-> _].
        destruct (forced_piece c); eexists; (split; [|done]); by repeat constructor. }
      destruct (md_chunk_step_numbered _ _ _ _ _ _ _ _ _ Hc Hnum Hstep) as [Hc1 _].
      apply IH; [|done|].
      * intros x Hx. apply Hsub. by right.
      * apply (md_chunk_step_kinds fuel source_file page_num all counter
                 chunks n sec chunks1 n1); [apply Hsub; by left|done..].
    + assert (forall l, fold_left (md_chunk_step config fuel source_file page_num)
                          l Raises = Raises) as Hraises
        by (intros l'; induction l' as [|? ? IH']; [done|exact IH']).
      by rewrite Hraises.
    + assert (forall l, fold_left (md_chunk_step config fuel source_file page_num)
                          l NoFuel = NoFuel) as Hnofuel
        by (intros l'; induction l' as [|? ? IH']; [done|exact IH']).
      by rewrite Hnofuel.
Qed.

(** X2. When [chunk_plain_text] or [chunk_markdown] returns, the counter
    has advanced by the number of chunks returned and no two chunks share
    an identifier.  Every chunk of [chunk_plain_text] carries the
    identifier generated under [text] from the counter value
    [counter + i], and so does every chunk of [chunk_markdown] on a text
    that it hands over to [chunk_plain_text].  On a text with headings
    the chunk at index [i] of [chunk_markdown] carries the identifier
    generated from [counter + i] under [text] when it is a piece made by
    [_force_split], which comes from a section longer than
    [max_chunk_size], and under [md] otherwise, when it holds the text of
    a section that fits. *)
Theorem text_chunk_ids (fuel : nat) (s : text) (source_file : option text)
  (page_num : option Z) (counter : nat) :
  (forall chunks n,
     chunk_plain_text config fuel s source_file page_num counter
     = Returns (chunks, n) ->
     n = counter + length chunks
     /\ numbered ["text"%string] counter chunks
     /\ NoDup (Chunk.chunk_id <$> chunks))
  /\ (forall chunks n,
        chunk_markdown config fuel s source_file page_num counter
        = Returns (chunks, n) ->
        n = counter + length chunks
        /\ numbered ["text"; "md"]%string counter chunks
        /\ NoDup (Chunk.chunk_id <$> chunks)
        /\ (md_falls_back (markdown_sections s) = true ->
            numbered ["text"%string] counter chunks)
        /\ (md_falls_back (markdown_sections s) = false ->
            forall i c, chunks !! i = Some c ->
              Chunk.chunk_id c
              = (_generate_chunk_id (if forced_piece c then "text" else "md")
                   (counter + i)).1
              /\ exists sec,
                   sec ∈ markdown_sections s
                   /\ if forced_piece c
                      then max_chunk_size config < length (section_text sec)
                      else Chunk.content c = section_text sec
                           /\ length (section_text sec)
                              <= max_chunk_size config)).
Proof.
  split; intros chunks n H.
  - apply chunk_plain_text_numbered in H as [-> Hn].
    split; [done|]. split; [done|].
    apply (numbered_NoDup ["text"%string] counter); [prefix_solve|exact Hn].
  - pose proof H as [-> Hn]%chunk_markdown_numbered.
    split; [done|]. split; [done|]. split; [|split].
    + apply (numbered_NoDup ["text"; "md"]%string counter); [|exact Hn].
      intros p [->| ->%list_elem_of_singleton]%elem_of_cons; by repeat constructor.
    + intros Hback. unfold chunk_markdown in H. destruct (is_blank s).
      { simplify_eq. apply numbered_nil. }
      rewrite Hback in H. by apply chunk_plain_text_numbered in H as [_ H].
    + intros Hback. unfold chunk_markdown in H. destruct (is_blank s).
      { simplify_eq. intros i c Hi. by rewrite lookup_nil in Hi. }
      rewrite Hback in H.
      eapply (md_fold_kinds _ _ _ (markdown_sections s)) in H; [exact H|done| |].
      * simpl. lia.
      * intros i c Hi. by rewrite lookup_nil in Hi.
Qed.

End Numbering.

(** ** Overlap and split pairs *)

Section SplitProps.
Import Chunker.

Variable config : ChunkerConfig.

Local Abbreviation max_size := (max_chunk_size config).
Local Abbreviation overlap := (overlap_size config).

Lemma overlap_loop_bound sentences : forall acc,
  length acc <= overlap + 1 ->
  length (overlap_loop config acc sentences) <= overlap + 1.
Proof.
  induction sentences as [|sent l IH]; intros acc Hacc; cbn [overlap_loop];
    [done|].
  destruct (_ <=? _) eqn:Hfit; [|done].
  apply Nat.leb_le in Hfit. apply IH.
  rewrite !length_app. cbn [length]. unfold text, char in *. lia.
Qed.

Lemma get_overlap_text_bound parts :
  0 < overlap -> length (_get_overlap_text config parts) <= overlap + 1.
Proof.
  intros Hov. unfold _get_overlap_text.
  destruct (last parts) as [last_part|]; [|simpl; lia].
  destruct (_ <=? _) eqn:Hshort; [apply Nat.leb_le in Hshort; lia|].
  pose proof (overlap_loop_bound
                (rev (re_split (Chr (one_of terminators)) last_part)) []) as Hloop.
  pose proof (strip_length
                (overlap_loop config []
                   (rev (re_split (Chr (one_of terminators)) last_part)))) as Hs.
  destruct (strip _) as [|c0 stripped].
  - etransitivity; [by apply last_chars_length|lia].
  - etransitivity; [exact Hs|]. apply Hloop. simpl; lia.
Qed.

(** *** The length of the parts of a split pair *)

Lemma split_step_bound qa source_file P st para :
  0 < overlap ->
  length (strip para) <= P ->
  let B := Nat.max max_size (length (QAPair.question qa) + overlap + P + 8) in
  Forall (fun c => length (Chunk.content c) <= B) (ss_chunks st) ->
  (exists body, ss_content st = body ++ [LF; LF] /\ length body <= B) ->
  (ss_parts st = [] -> ss_content st = QAPair.question qa ++ [LF; LF]) ->
  let st' := split_step config qa source_file st para in
  Forall (fun c => length (Chunk.content c) <= B) (ss_chunks st')
  /\ (exists body, ss_content st' = body ++ [LF; LF] /\ length body <= B)
  /\ (ss_parts st' = [] -> ss_content st' = QAPair.question qa ++ [LF; LF]).
Proof.
  intros Hov Hpara B Hchunks (body & Hbody & Hlen) Hfirst. unfold split_step.
  destruct (strip para) as [|c0 para'] eqn:Hs; [by eauto|].
  rewrite <- Hs in *. clear Hs c0 para'.
  destruct (_ && _) eqn:Hcond; cbn [ss_chunks ss_content ss_parts].
  - split; [|split; [|done]].
    + apply Forall_app. split; [done|]. repeat constructor.
      cbn [qa_chunk Chunk.content]. rewrite Hbody.
      etransitivity; [apply strip_body_length|done].
    + exists (continued (QAPair.question qa)
              ++ _get_overlap_text config (ss_parts st) ++ strip para).
      split; [by rewrite <- !app_assoc|].
      pose proof (get_overlap_text_bound (ss_parts st) Hov).
      unfold continued. rewrite !length_app. cbn [length].
      unfold text, char in *. lia.
  - split; [done|]. split; [|intros H; by destruct (ss_parts st)].
    exists (ss_content st ++ strip para). split; [by rewrite <- app_assoc|].
    apply andb_false_iff in Hcond as [Hfit|Hparts].
    + apply Nat.ltb_ge in Hfit. unfold text, char in *. lia.
    + apply negb_false_iff, bool_decide_eq_true in Hparts.
      rewrite (Hfirst Hparts), !length_app. cbn [length].
      unfold text, char in *. lia.
Qed.

Lemma split_long_qa_bound qa source_file counter P :
  0 < overlap ->
  Forall (fun para => length (strip para) <= P)
         (re_split QAParser.paragraph_break (QAPair.answer qa)) ->
  Forall (fun c => length (Chunk.content c)
                   <= Nat.max max_size
                        (length (QAPair.question qa) + overlap + P + 8))
         (_split_long_qa config qa source_file counter).1.
Proof.
  intros Hov Hparas. unfold _split_long_qa.
  set (B := Nat.max _ _).
  set (st0 := {| ss_chunks := []; ss_content := _; ss_parts := [];
                 ss_counter := counter |}).
  assert (forall paragraphs st,
    Forall (fun para => length (strip para) <= P) paragraphs ->
    Forall (fun c => length (Chunk.content c) <= B) (ss_chunks st) ->
    (exists body, ss_content st = body ++ [LF; LF] /\ length body <= B) ->
    (ss_parts st = [] -> ss_content st = QAPair.question qa ++ [LF; LF]) ->
    let st' := fold_left (split_step config qa source_file) paragraphs st in
    Forall (fun c => length (Chunk.content c) <= B) (ss_chunks st')
    /\ (exists body, ss_content st' = body ++ [LF; LF] /\ length body <= B))
    as Hfold.
  { induction paragraphs as [|para l IH]; intros st Hl H1 H2 H3; [done|].
    cbn [fold_left]. apply Forall_cons in Hl as [Hpara Hl].
    destruct (split_step_bound qa source_file P st para Hov Hpara H1 H2 H3)
      as (? & ? & ?).
    by apply IH. }
  specialize (Hfold _ st0 Hparas). cbv zeta in Hfold.
  destruct Hfold as (Hchunks & body & Hbody & Hlen);
    [constructor| |done|].
  { exists (QAPair.question qa). split; [done|]. subst B.
    unfold text, char in *. lia. }
  destruct (ss_parts _) as [|p ps]; [done|].
  cbn [_generate_chunk_id fst]. apply Forall_app. split; [done|].
  repeat constructor. cbn [qa_chunk Chunk.content]. rewrite Hbody.
  etransitivity; [apply strip_body_length|done].
Qed.

(** *** The paragraphs of a split pair *)

Lemma split_step_parts qa source_file st para groups :
  Chunk.answer <$> ss_chunks st = (fun g => Some (join [LF; LF] g)) <$> groups ->
  Forall (fun g => g <> []) groups ->
  let st' := split_step config qa source_file st para in
  exists groups',
    Chunk.answer <$> ss_chunks st' = (fun g => Some (join [LF; LF] g)) <$> groups'
    /\ Forall (fun g => g <> []) groups'
    /\ concat groups' ++ ss_parts st'
       = (concat groups ++ ss_parts st) ++ kept_paragraphs [para].
Proof.
  intros Hans Hne. unfold split_step, kept_paragraphs.
  cbn [fmap list_fmap]. rewrite filter_cons, filter_nil.
  destruct (strip para) as [|c0 para'] eqn:Hs.
  { rewrite decide_False by (by intros H). exists groups.
    by rewrite app_nil_r. }
  rewrite decide_True by done. rewrite <- Hs. clear Hs c0 para'.
  destruct (_ && _) eqn:Hcond; cbn [_generate_chunk_id ss_chunks ss_parts].
  - apply andb_true_iff in Hcond as [_ Hparts].
    apply negb_true_iff, bool_decide_eq_false in Hparts.
    exists (groups ++ [ss_parts st]). split; [|split].
    + by rewrite !fmap_app, Hans.
    + apply Forall_app. split; [done|]. by repeat constructor.
    + rewrite concat_app. cbn [concat]. by rewrite app_nil_r.
  - exists groups. split; [done|]. split; [done|]. by rewrite app_assoc.
Qed.

Lemma kept_paragraphs_app l1 l2 :
  kept_paragraphs (l1 ++ l2) = kept_paragraphs l1 ++ kept_paragraphs l2.
Proof. unfold kept_paragraphs. by rewrite fmap_app, filter_app. Qed.

Lemma split_fold_parts qa source_file paragraphs : forall st groups,
  Chunk.answer <$> ss_chunks st = (fun g => Some (join [LF; LF] g)) <$> groups ->
  Forall (fun g => g <> []) groups ->
  let st' := fold_left (split_step config qa source_file) paragraphs st in
  exists groups',
    Chunk.answer <$> ss_chunks st' = (fun g => Some (join [LF; LF] g)) <$> groups'
    /\ Forall (fun g => g <> []) groups'
    /\ concat groups' ++ ss_parts st'
       = (concat groups ++ ss_parts st) ++ kept_paragraphs paragraphs.
Proof.
  induction paragraphs as [|para l IH]; intros st groups Hans Hne.
  - exists groups. unfold kept_paragraphs. simpl. by rewrite app_nil_r.
  - cbn [fold_left].
    destruct (split_step_parts qa source_file st para groups Hans Hne)
      as (groups1 & Hans1 & Hne1 & Hcat1).
    destruct (IH _ groups1 Hans1 Hne1) as (groups2 & Hans2 & Hne2 & Hcat2).
    exists groups2. split; [done|]. split; [done|].
    rewrite Hcat2, Hcat1. change (para :: l) with ([para] ++ l).
    by rewrite kept_paragraphs_app, app_assoc.
Qed.

(** *** The labels of the parts *)

Lemma split_step_labels qa source_file st para :
  (forall i c, ss_chunks st !! i = Some c ->
     Chunk.metadata c = [("is_split"%string, MBool true);
                         ("part"%string, MInt (Z.of_nat (i + 1)))]) ->
  forall i c, ss_chunks (split_step config qa source_file st para) !! i = Some c ->
    Chunk.metadata c = [("is_split"%string, MBool true);
                        ("part"%string, MInt (Z.of_nat (i + 1)))].
Proof.
  intros Hst. unfold split_step.
  destruct (strip para) as [|c0 para']; [done|].
  destruct (_ && _); cbn [ss_chunks]; [|done].
  intros i c [Hi|[Hge Hi]]%lookup_app_Some; [by apply Hst|].
  destruct (i - length (ss_chunks st)) as [|k] eqn:Hk; simplify_eq/=.
  by replace i with (length (ss_chunks st)) by lia.
Qed.

Lemma split_fold_labels qa source_file paragraphs : forall st,
  (forall i c, ss_chunks st !! i = Some c ->
     Chunk.metadata c = [("is_split"%string, MBool true);
                         ("part"%string, MInt (Z.of_nat (i + 1)))]) ->
  forall i c,
    ss_chunks (fold_left (split_step config qa source_file) paragraphs st) !! i
    = Some c ->
    Chunk.metadata c = [("is_split"%string, MBool true);
                        ("part"%string, MInt (Z.of_nat (i + 1)))].
Proof.
  induction paragraphs as [|para l IH]; intros st Hst; [done|].
  cbn [fold_left]. apply IH. by apply split_step_labels.
Qed.

Lemma split_fold_all (P : Chunk.t -> Prop) qa source_file :
  (forall chunk_id content answer metadata,
     P (qa_chunk qa source_file chunk_id content answer metadata)) ->
  forall paragraphs st,
    Forall P (ss_chunks st) ->
    Forall P (ss_chunks (fold_left (split_step config qa source_file)
                           paragraphs st)).
Proof.
  intros HP. induction paragraphs as [|para l IH]; intros st Hst; [done|].
  cbn [fold_left]. apply IH. unfold split_step.
  destruct (strip para) as [|c0 para']; [done|].
  destruct (_ && _); cbn [_generate_chunk_id ss_chunks]; [|done].
  apply Forall_app. split; [done|]. by repeat constructor.
Qed.

(** X3. The overlap text that [_get_overlap_text] takes from the parts
    of a chunk: nothing when there is no part; the last part itself when
    it is at most [overlap_size] long; and, when [overlap_size] is
    positive, never more than [overlap_size + 1] characters, the one
    further character being the full stop put after the last sentence
    taken. *)
Theorem get_overlap_text_length (parts : list text) :
  0 < overlap ->
  _get_overlap_text config [] = []
  /\ (forall last_part, last parts = Some last_part ->
        length last_part <= overlap ->
        _get_overlap_text config parts = last_part)
  /\ length (_get_overlap_text config parts) <= overlap + 1.
Proof.
  intros Hov. split; [done|]. split; [|by apply get_overlap_text_bound].
  intros last_part Hlast Hshort. unfold _get_overlap_text. rewrite Hlast.
  apply Nat.leb_le in Hshort. by rewrite Hshort.
Qed.

(** X4. A bound on the chunks of [chunk_qa_pairs] that covers the pairs
    it splits.  When [overlap_size] is positive, every question is at
    most [Q] characters long and every paragraph of every answer,
    stripped, at most [P], each chunk is at most
    [max (max_chunk_size, Q + overlap_size + P + 8)] characters long:
    a part of a split pair holds the question, the seven characters of
    the continuation mark, the overlap text and at least one paragraph,
    whatever the size of that paragraph. *)
Theorem chunk_qa_pairs_bounded (qa_pairs : list QAPair.t)
  (source_file : option text) (counter Q P : nat) :
  0 < overlap ->
  Forall (fun qa =>
            length (QAPair.question qa) <= Q
            /\ Forall (fun para => length (strip para) <= P)
                      (re_split QAParser.paragraph_break (QAPair.answer qa)))
         qa_pairs ->
  Forall (fun c => Chunk.char_count c <= Nat.max max_size (Q + overlap + P + 8))
         (chunk_qa_pairs config qa_pairs source_file counter).1.
Proof.
  intros Hov Hpairs. unfold chunk_qa_pairs.
  set (B := Nat.max _ _).
  assert (forall l acc,
    Forall (fun qa =>
              length (QAPair.question qa) <= Q
              /\ Forall (fun para => length (strip para) <= P)
                        (re_split QAParser.paragraph_break (QAPair.answer qa))) l ->
    Forall (fun c => Chunk.char_count c <= B) acc.1 ->
    Forall (fun c => Chunk.char_count c <= B)
           (fold_left (chunk_qa_step config source_file) l acc).1) as Hfold.
  { induction l as [|qa l IH]; intros [chunks n] Hl Hacc; [done|].
    cbn [fold_left]. apply Forall_cons in Hl as [[Hq Hparas] Hl].
    apply IH; [done|]. unfold chunk_qa_step.
    destruct (_ <? _) eqn:Hlong.
    - pose proof (split_long_qa_bound qa source_file n P Hov Hparas) as Hs.
      destruct (_split_long_qa _ _ _ _) as [subs n']. cbn [fst] in *.
      apply Forall_app. split; [done|].
      eapply Forall_impl; [exact Hs|]. intros c Hc. unfold Chunk.char_count.
      subst B. unfold text, char in *. lia.
    - apply Nat.ltb_ge in Hlong. cbn [_generate_chunk_id fst].
      apply Forall_app. split; [done|]. repeat constructor.
      unfold Chunk.char_count, QAPair.char_count in *.
      cbn [qa_chunk Chunk.content]. subst B. lia. }
  apply Hfold; [done|constructor].
Qed.

(** X5. [_split_long_qa] loses no paragraph and repeats none.  The
    answers of the chunks it returns are consecutive groups, none of
    them empty, of the paragraphs of the answer (stripped, blank ones
    left out), each group joined by blank lines; every chunk is a [qa]
    chunk with the question of the pair; and no chunk at all is returned
    exactly when the answer has no paragraph that is not blank. *)
Theorem split_long_qa_paragraphs (qa : QAPair.t) (source_file : option text)
  (counter : nat) :
  let chunks := (_split_long_qa config qa source_file counter).1 in
  let paragraphs :=
    kept_paragraphs (re_split QAParser.paragraph_break (QAPair.answer qa)) in
  (exists groups,
      concat groups = paragraphs
      /\ Forall (fun g => g <> []) groups
      /\ Chunk.answer <$> chunks = (fun g => Some (join [LF; LF] g)) <$> groups)
  /\ Forall (fun c => Chunk.question c = Some (QAPair.question qa)
                      /\ Chunk.chunk_type c = "qa"%string) chunks
  /\ (chunks = [] <-> paragraphs = []).
Proof.
  intros chunks paragraphs. subst chunks paragraphs. unfold _split_long_qa.
  set (st0 := {| ss_chunks := []; ss_content := _; ss_parts := [];
                 ss_counter := counter |}).
  destruct (split_fold_parts qa source_file
              (re_split QAParser.paragraph_break (QAPair.answer qa)) st0 [])
    as (groups & Hans & Hne & Hcat); [done|constructor|].
  cbn [concat ss_parts st0 app] in Hcat.
  pose proof (split_fold_all
                (fun c => Chunk.question c = Some (QAPair.question qa)
                          /\ Chunk.chunk_type c = "qa"%string)
                qa source_file (fun _ _ _ _ => conj eq_refl eq_refl)
                (re_split QAParser.paragraph_break (QAPair.answer qa)) st0
                (Forall_nil_2 _)) as Hall.
  set (st := fold_left _ _ st0) in *.
  assert (exists groups',
    concat groups'
    = kept_paragraphs (re_split QAParser.paragraph_break (QAPair.answer qa))
    /\ Forall (fun g => g <> []) groups'
    /\ Chunk.answer <$>
         (match ss_parts st with
          | [] => (ss_chunks st, ss_counter st)
          | _ :: _ =>
              let '(chunk_id, counter0) := _generate_chunk_id "qa" (ss_counter st) in
              (ss_chunks st ++
               [qa_chunk qa source_file chunk_id (strip (ss_content st))
                  (join [LF; LF] (ss_parts st))
                  [("is_split"%string, MBool (0 <? length (ss_chunks st)));
                   ("part"%string,
                    match ss_chunks st with
                    | [] => MNone
                    | _ :: _ => MInt (Z.of_nat (length (ss_chunks st) + 1))
                    end)]], counter0)
          end).1
       = (fun g => Some (join [LF; LF] g)) <$> groups') as Hgroups.
  { destruct (ss_parts st) as [|p ps] eqn:Hparts.
    - exists groups. rewrite app_nil_r in Hcat. done.
    - exists (groups ++ [p :: ps]). cbn [_generate_chunk_id fst].
      split; [|split].
      + rewrite concat_app. cbn [concat]. by rewrite app_nil_r.
      + apply Forall_app. split; [done|]. by repeat constructor.
      + by rewrite !fmap_app, Hans. }
  split; [exact Hgroups|]. split.
  - destruct (ss_parts st) as [|p ps]; [done|]. cbn [_generate_chunk_id fst].
    apply Forall_app. split; [done|]. by repeat constructor.
  - destruct Hgroups as (groups' & <- & Hne' & Hans').
    match goal with |- ?x = [] <-> _ => set (chunks := x) in * end.
    split.
    + intros Hnil. rewrite Hnil in Hans'. symmetry in Hans'.
      apply fmap_nil_inv in Hans'. by subst.
    + intros Hnil. destruct groups' as [|g groups'].
      * by apply fmap_nil_inv in Hans'.
      * apply Forall_cons in Hne' as [Hg _]. cbn [concat] in Hnil.
        by apply app_eq_nil in Hnil as [? _].
Qed.

Lemma split_fold_no_parts qa source_file paragraphs : forall st,
  (ss_parts st = [] -> ss_chunks st = []) ->
  ss_parts (fold_left (split_step config qa source_file) paragraphs st) = [] ->
  ss_chunks (fold_left (split_step config qa source_file) paragraphs st) = [].
Proof.
  induction paragraphs as [|para l IH]; intros st Hst; [done|].
  cbn [fold_left]. apply IH. unfold split_step.
  destruct (strip para) as [|c0 para']; [done|].
  destruct (_ && _); cbn [_generate_chunk_id ss_chunks ss_parts]; [done|].
  intros H. by destruct (ss_parts st).
Qed.

(** X6. The labels of the chunks of [_split_long_qa]: a pair that comes
    back as one chunk is not marked as split and has no part number;
    when two or more chunks come back, each is marked as split and the
    chunk at index [i] is part [i + 1]. *)
Theorem split_long_qa_labels (qa : QAPair.t) (source_file : option text)
  (counter : nat) :
  let chunks := (_split_long_qa config qa source_file counter).1 in
  (forall c, chunks = [c] ->
     Chunk.metadata c = [("is_split"%string, MBool false);
                         ("part"%string, MNone)])
  /\ (2 <= length chunks ->
      forall i c, chunks !! i = Some c ->
        Chunk.metadata c = [("is_split"%string, MBool true);
                            ("part"%string, MInt (Z.of_nat (i + 1)))]).
Proof.
  intros chunks. subst chunks. unfold _split_long_qa.
  set (st0 := {| ss_chunks := []; ss_content := _; ss_parts := [];
                 ss_counter := counter |}).
  pose proof (split_fold_labels qa source_file
                (re_split QAParser.paragraph_break (QAPair.answer qa)) st0)
    as Hlabels.
  set (st := fold_left _ _ st0) in *.
  assert (forall i c, ss_chunks st !! i = Some c ->
            Chunk.metadata c = [("is_split"%string, MBool true);
                                ("part"%string, MInt (Z.of_nat (i + 1)))])
    as Hst.
  { apply Hlabels. intros i c Hi. unfold st0 in Hi. cbn [ss_chunks] in Hi.
    by rewrite lookup_nil in Hi. }
  clear Hlabels.
  pose proof (split_fold_no_parts qa source_file
                (re_split QAParser.paragraph_break (QAPair.answer qa)) st0
                (fun _ => eq_refl)) as Hnone.
  fold st in Hnone.
  destruct (ss_parts st) as [|p ps]; cbn [_generate_chunk_id fst].
  - rewrite Hnone by done. split; [done|]. simpl. lia.
  - split.
    + intros c Hc. destruct (ss_chunks st) as [|c1 l].
      * by simplify_eq/=.
      * destruct l; simplify_eq/=.
    + rewrite length_app. cbn [length]. intros Hlen i c.
      intros [Hi|[Hge Hi]]%lookup_app_Some; [by apply Hst|].
      destruct (i - length (ss_chunks st)) as [|k] eqn:Hk; simplify_eq/=.
      replace i with (length (ss_chunks st)) by lia.
      destruct (ss_chunks st) as [|c1 l]; [simpl in Hlen; lia|]. done.
Qed.

End SplitProps.

(** ** Forced splitting, Markdown and filtering *)

Section ChunkerEdges.
Import Chunker.

Variable config : ChunkerConfig.

Local Abbreviation max_size := (max_chunk_size config).
Local Abbreviation overlap := (overlap_size config).

Lemma find_boundary_none s n : forall i,
  Forall (fun c => mem_char c (terminators ++ [LF]) = false) s ->
  (Z.of_nat n <= i + 1)%Z -> (i < Z.of_nat (length s))%Z ->
  find_boundary s i n = Some None.
Proof.
  induction n as [|n IH]; intros i Hs Hlo Hhi; cbn [find_boundary]; [done|].
  unfold py_index, text. destruct (Z.leb_spec 0 i); [|lia].
  destruct (s !! Z.to_nat i) as [c|] eqn:Hc.
  - cbn [mbind option_bind]. rewrite Forall_forall in Hs.
    rewrite (Hs c) by (by eapply list_elem_of_lookup_2).
    apply IH; [by apply Forall_forall|lia..].
  - apply lookup_ge_None in Hc. lia.
Qed.

Lemma force_split_loop_stuck s source_file page_num fuel :
  forall chunks counter,
  overlap = max_size -> 0 < max_size -> max_size < length s ->
  Forall (fun c => mem_char c (terminators ++ [LF]) = false) s ->
  force_split_loop config fuel s source_file page_num 0 chunks counter = NoFuel.
Proof.
  induction fuel as [|fuel IH]; intros chunks counter Hov Hmax Hlen Hs;
    cbn [force_split_loop].
  - destruct (Z.ltb_spec 0 (Z.of_nat (length s))); [done|lia].
  - destruct (Z.ltb_spec 0 (Z.of_nat (length s))); [|lia].
    cbv zeta. rewrite Z.add_0_l.
    destruct (Z.ltb_spec (Z.of_nat max_size) (Z.of_nat (length s))); [|lia].
    rewrite find_boundary_none; [|done|lia|lia].
    cbn [_generate_chunk_id]. rewrite Hov, Z.sub_diag.
    destruct (Z.ltb_spec (Z.of_nat max_size) (Z.of_nat (length s))); [|lia].
    by apply IH.
Qed.

(** X7. [_force_split] does not return when [overlap_size] equals
    [max_chunk_size]: on a text longer than [max_chunk_size] in which no
    sentence terminator or newline occurs, every pass of its loop emits
    the first [max_chunk_size] characters and sets [start] back to 0, so
    that no number of passes ends the loop. *)
Theorem force_split_does_not_return (s : text) (source_file : option text)
  (page_num : option Z) (counter : nat) :
  overlap = max_size -> 0 < max_size -> max_size < length s ->
  Forall (fun c => mem_char c (terminators ++ [LF]) = false) s ->
  forall fuel,
    _force_split config fuel s source_file page_num counter = NoFuel.
Proof.
  intros Hov Hmax Hlen Hs fuel. by apply force_split_loop_stuck.
Qed.

Lemma splitlines_aux_nonempty s : forall cur after_cr,
  cur <> [] -> splitlines_aux cur after_cr s <> [].
Proof.
  induction s as [|c s IH]; intros cur after_cr Hcur; cbn [splitlines_aux].
  - by destruct cur.
  - destruct (after_cr && _); [by apply IH|].
    destruct (mem_char c line_breaks); [done|].
    apply IH. by destruct cur.
Qed.

Lemma splitlines_nonempty s : s <> [] -> splitlines s <> [].
Proof.
  destruct s as [|c s]; [done|]. intros _.
  unfold splitlines. cbn [splitlines_aux andb].
  destruct (mem_char c line_breaks); [done|].
  by apply splitlines_aux_nonempty.
Qed.

Lemma md_step_plain st line :
  head (strip line) <> Some 0x23%N ->
  md_step st line
  = {| md_sections := md_sections st; md_title := md_title st;
       md_lines := md_lines st ++ [line] |}.
Proof.
  intros Hhead. unfold md_step.
  destruct (strip line) as [|c r]; [done|].
  destruct (N.eq_dec c 0x23%N) as [->|Hc]; [done|].
  destruct c as [|p]; [done|].
  do 6 (destruct p as [p|p|]; try done).
Qed.

Lemma md_fold_plain lines : forall st,
  Forall (fun line => head (strip line) <> Some 0x23%N) lines ->
  fold_left md_step lines st
  = {| md_sections := md_sections st; md_title := md_title st;
       md_lines := md_lines st ++ lines |}.
Proof.
  induction lines as [|line l IH]; intros st Hl; cbn [fold_left].
  - rewrite app_nil_r. by destruct st.
  - apply Forall_cons in Hl as [Hline Hl].
    rewrite md_step_plain by done. rewrite IH by done.
    cbn [md_sections md_title md_lines]. by rewrite <- app_assoc.
Qed.

(** X8. A text in which no line begins, once stripped, with [#] is not
    cut into Markdown sections: [chunk_markdown] does on it exactly what
    [chunk_plain_text] does, with the same chunks, identifiers and
    counter. *)
Theorem chunk_markdown_without_headings (fuel : nat) (s : text)
  (source_file : option text) (page_num : option Z) (counter : nat) :
  Forall (fun line => head (strip line) <> Some 0x23%N) (splitlines s) ->
  chunk_markdown config fuel s source_file page_num counter
  = chunk_plain_text config fuel s source_file page_num counter.
Proof.
  intros Hlines. unfold chunk_markdown.
  destruct (is_blank s) eqn:Hblank.
  { unfold chunk_plain_text. by rewrite Hblank. }
  assert (md_falls_back (markdown_sections s) = true) as ->; [|done].
  unfold markdown_sections. rewrite md_fold_plain by done.
  unfold md_flush. cbn [md_sections md_title md_lines app].
  assert (splitlines s <> []) as Hne.
  { apply splitlines_nonempty. intros ->. done. }
  by destruct (splitlines s).
Qed.

(** X9. [filter_short_chunks] keeps, in their order, exactly the chunks
    whose [char_count] reaches the threshold.  The threshold is
    [min_length] unless that is [None] or [0], in which case it is the
    configured [min_chunk_size]: asking for a minimum of [0] does not
    switch the filter off, and a chunk shorter than [min_chunk_size] is
    still dropped. *)
Theorem filter_short_chunks_threshold (chunks : list Chunk.t) :
  filter_short_chunks config chunks (Some 0%Z)
  = filter_short_chunks config chunks None
  /\ (forall c, Chunk.char_count c < min_chunk_size config ->
        c ∉ filter_short_chunks config chunks (Some 0%Z))
  /\ (forall min_length,
        filter_short_chunks config chunks min_length `sublist_of` chunks)
  /\ (forall n c, n <> 0%Z ->
        c ∈ filter_short_chunks config chunks (Some n)
        <-> c ∈ chunks /\ (n <= Z.of_nat (Chunk.char_count c))%Z)
  /\ (forall c,
        c ∈ filter_short_chunks config chunks None
        <-> c ∈ chunks /\ min_chunk_size config <= Chunk.char_count c).
Proof.
  split; [done|]. split; [|split; [|split]].
  - intros c Hshort Hin. unfold filter_short_chunks in Hin.
    apply list_elem_of_filter in Hin as [Hc _]. lia.
  - intros min_length. apply sublist_filter.
  - intros n c Hn. unfold filter_short_chunks.
    rewrite list_elem_of_filter. destruct n; [done|tauto..].
  - intros c. unfold filter_short_chunks. rewrite list_elem_of_filter.
    split; intros [? ?]; split; [done|lia|lia|done].
Qed.

End ChunkerEdges.

(** ** Chunk records and dictionaries *)

Section ChunkDict.
Import Chunk.

(** X10. [Chunk.from_dict] undoes [Chunk.to_dict]: every field of the
    chunk comes back as it was.  The dictionary carries the derived
    [char_count], which is the length of the content and which
    [from_dict] removes: the constructor alone refuses the dictionary of
    [to_dict].  [from_dict] succeeds exactly on a dictionary that has
    [chunk_id] and [content] and no key that is not a field, whether
    [char_count] is present or not. *)
Theorem chunk_dict_round_trip :
  (forall c, from_dict (to_dict c) = Some c)
  /\ (forall c, d_char_count (to_dict c) = Some (length (content c)))
  /\ (forall c, construct (to_dict c) = None)
  /\ (forall data,
        is_Some (from_dict data)
        <-> d_other data = [] /\ is_Some (d_chunk_id data)
            /\ is_Some (d_content data)).
Proof.
  split; [by intros []|]. split; [done|]. split; [done|].
  intros data. unfold from_dict, construct.
  cbn [pop_char_count d_other d_char_count d_chunk_id d_content].
  destruct (d_other data), (d_chunk_id data), (d_content data);
    split; try (intros [? ?]; done); try (intros (? & [? ?] & [? ?]); done);
    eauto.
Qed.

End ChunkDict.

(** ** Batch validation *)

Section ValidateChunks.
Import QualityValidator.

Variable config : QualityConfig.

Lemma validate_fold remove_invalid chunks : forall results valid_chunks,
  fold_left (validate_step config remove_invalid) chunks (results, valid_chunks)
  = (results ++ (validate_chunk config <$> chunks),
     valid_chunks
     ++ filter (fun c => is_valid (validate_chunk config c) = true) chunks).
Proof.
  induction chunks as [|c l IH]; intros results valid_chunks; cbn [fold_left].
  - by rewrite !app_nil_r.
  - rewrite filter_cons. unfold validate_step at 2.
    destruct (is_valid (validate_chunk config c)) eqn:Hvalid.
    + cbn [orb]. rewrite IH, decide_True by done.
      by rewrite <- !app_assoc.
    + rewrite decide_False by done. cbn [orb].
      destruct (negb remove_invalid); rewrite IH; by rewrite <- !app_assoc.
Qed.

(** X11. [validate_chunks] on an empty list raises: the summary it logs
    divides the number of valid chunks by the number of chunks.  On a
    list that is not empty it returns the result of [validate_chunk] for
    every chunk, in order, and with them either the chunks as they were
    given or, when [remove_invalid] is set, the valid ones in their
    order. *)
Theorem validate_chunks_result (remove_invalid : bool) :
  validate_chunks config [] remove_invalid = None
  /\ (forall chunks, chunks <> [] ->
        validate_chunks config chunks remove_invalid
        = Some (if remove_invalid
                then filter (fun c => is_valid (validate_chunk config c) = true)
                            chunks
                else chunks,
                validate_chunk config <$> chunks)).
Proof.
  split; [done|]. intros chunks Hne. unfold validate_chunks.
  rewrite validate_fold. cbn [app].
  destruct chunks as [|c l]; [done|]. cbn [length].
  by destruct remove_invalid.
Qed.

End ValidateChunks.

(** ** Exact deduplication: what is kept and what is removed *)

Section DedupAccounts.
Import Deduplicator.

Variable lower : text -> text.
Variable isword : char -> bool.
Variable md5_hexdigest : text -> string.

Local Abbreviation key :=
  (fun c => _compute_hash lower isword md5_hexdigest (Chunk.content c)).
Local Abbreviation dedup_step := (dedup_step lower isword md5_hexdigest).
Local Abbreviation _exact_dedup := (_exact_dedup lower isword md5_hexdigest).

Lemma dedup_sound_init : dedup_sound key [] dedup_init.
Proof.
  split; [|split; [|split]]; cbn [dedup_init unique_chunks seen_hashes duplicates].
  - intros c Hc. by apply elem_of_nil in Hc.
  - intros h e He. by rewrite lookup_empty in He.
  - intros a b Hab. by apply elem_of_nil in Hab.
  - simpl. lia.
Qed.

Lemma dedup_step_sound processed st c :
  dedup_sound key processed st ->
  dedup_sound key (processed ++ [c]) (dedup_step st c).
Proof.
  intros (Hsub & Hseen & Hpairs & Hcount).
  assert (forall x, x ∈ processed -> x ∈ processed ++ [c]) as Hmono
    by (intros x Hx; apply elem_of_app; by left).
  assert (c ∈ processed ++ [c]) as Hc
    by (apply elem_of_app; right; by apply list_elem_of_singleton).
  assert (forall a b,
            (exists ca cb, ca ∈ processed /\ cb ∈ processed
                           /\ Chunk.chunk_id ca = a /\ Chunk.chunk_id cb = b
                           /\ key ca = key cb) ->
            exists ca cb, ca ∈ processed ++ [c] /\ cb ∈ processed ++ [c]
                          /\ Chunk.chunk_id ca = a /\ Chunk.chunk_id cb = b
                          /\ key ca = key cb) as Hpmono.
  { intros a b (ca & cb & ? & ? & ? & ? & ?). exists ca, cb. eauto 10. }
  unfold Deduplicator.dedup_step.
  destruct (seen_hashes st !! key c) as [existing|] eqn:Hlook.
  - destruct (Hseen _ _ Hlook) as [Hex Hkey].
    destruct (_ <? _);
      (split; [|split; [|split]]);
      cbn [unique_chunks seen_hashes duplicates].
    + intros x [[_ Hx]%list_elem_of_filter| ->%list_elem_of_singleton]%elem_of_app;
        [by apply Hmono, Hsub|done].
    + intros h e. destruct (decide (h = key c)) as [->|Hne].
      * rewrite lookup_insert_eq. intros ?; by simplify_eq.
      * rewrite lookup_insert_ne by done. intros He.
        destruct (Hseen _ _ He). auto.
    + intros a b [Hab| Hab%list_elem_of_singleton]%elem_of_app;
        [by apply Hpmono, Hpairs|].
      simplify_eq. exists existing, c. eauto 10.
    + rewrite !length_app. cbn [length]. lia.
    + intros x Hx. by apply Hmono, Hsub.
    + intros h e He. destruct (Hseen _ _ He). auto.
    + intros a b [Hab| Hab%list_elem_of_singleton]%elem_of_app;
        [by apply Hpmono, Hpairs|].
      simplify_eq. exists c, existing. eauto 10.
    + rewrite !length_app. cbn [length]. lia.
  - split; [|split; [|split]]; cbn [unique_chunks seen_hashes duplicates].
    + intros x [Hx| ->%list_elem_of_singleton]%elem_of_app;
        [by apply Hmono, Hsub|done].
    + intros h e. destruct (decide (h = key c)) as [->|Hne].
      * rewrite lookup_insert_eq. intros ?; by simplify_eq.
      * rewrite lookup_insert_ne by done. intros He.
        destruct (Hseen _ _ He). auto.
    + intros a b Hab. by apply Hpmono, Hpairs.
    + rewrite !length_app. cbn [length]. lia.
Qed.

Lemma dedup_fold_sound chunks : forall processed st,
  dedup_sound key processed st ->
  dedup_sound key (processed ++ chunks) (fold_left dedup_step chunks st).
Proof.
  induction chunks as [|c l IH]; intros processed st Hst; cbn [fold_left].
  - by rewrite app_nil_r.
  - replace (processed ++ c :: l) with ((processed ++ [c]) ++ l)
      by (by rewrite <- app_assoc).
    by apply IH, dedup_step_sound.
Qed.

Lemma NoDup_fmap_elem_inj {A B} (f : A -> B) (l : list A) x y :
  NoDup (f <$> l) -> x ∈ l -> y ∈ l -> f x = f y -> x = y.
Proof.
  intros Hnd [i Hi]%list_elem_of_lookup [j Hj]%list_elem_of_lookup Hf.
  assert (i = j) as ->; [|by simplify_eq].
  eapply NoDup_lookup; [exact Hnd| |];
    rewrite list_lookup_fmap; [by rewrite Hi|by rewrite Hj, Hf].
Qed.

Lemma filter_others_length {A B} `{EqDecision B} (f : A -> B) (l : list A) e :
  NoDup (f <$> l) -> e ∈ l ->
  length (filter (fun x => f x ≠ f e) l) + 1 = length l.
Proof.
  induction l as [|x l IH]; intros Hnd He; [by apply elem_of_nil in He|].
  rewrite fmap_cons in Hnd. apply NoDup_cons in Hnd as [Hx Hnd].
  rewrite filter_cons. apply elem_of_cons in He as [->|He].
  - rewrite decide_False by (by intros H). cbn [length].
    assert (filter (fun y => f y ≠ f x) l = l) as ->; [|lia].
    clear IH Hnd. induction l as [|y l IH]; [done|].
    rewrite filter_cons. rewrite decide_True.
    + f_equal. apply IH. intros H. apply Hx. rewrite fmap_cons. by right.
    + intros E. apply Hx. rewrite fmap_cons, E. by left.
  - rewrite decide_True.
    + cbn [length]. specialize (IH Hnd He). lia.
    + intros E. apply Hx. rewrite E. by apply list_elem_of_fmap_2.
Qed.

Lemma dedup_full_init : dedup_full key [] dedup_init.
Proof.
  split; [|split; [|split; [|split; [|split]]]];
    cbn [dedup_init unique_chunks seen_hashes duplicates].
  - intros c Hc. by apply elem_of_nil in Hc.
  - intros h e He. by rewrite lookup_empty in He.
  - constructor.
  - intros c Hc. by apply elem_of_nil in Hc.
  - done.
  - intros a b Hab. by apply elem_of_nil in Hab.
Qed.

Lemma dedup_step_full processed st c :
  NoDup (Chunk.chunk_id <$> processed ++ [c]) ->
  dedup_full key processed st ->
  dedup_full key (processed ++ [c]) (dedup_step st c).
Proof.
  intros Hids (Hsub & Hseen & Hnd & Hcover & Hcount & Hpairs).
  rewrite fmap_app in Hids. apply NoDup_app in Hids as (_ & Hfresh & _).
  assert (Chunk.chunk_id c ∉ Chunk.chunk_id <$> processed) as Hc.
  { intros Hin. apply (Hfresh _ Hin). cbn. by left. }
  clear Hfresh.
  assert (Chunk.chunk_id c ∉ Chunk.chunk_id <$> unique_chunks st) as Hcu.
  { intros [x [Hid Hx]]%list_elem_of_fmap. apply Hc. rewrite Hid.
    by apply list_elem_of_fmap_2, Hsub. }
  assert (forall x, x ∈ processed -> x ∈ processed ++ [c]) as Hmono
    by (intros x Hx; apply elem_of_app; by left).
  assert (c ∈ processed ++ [c]) as Hcin
    by (apply elem_of_app; right; by apply list_elem_of_singleton).
  assert (forall a, a ∈ Chunk.chunk_id <$> processed ->
                    a ∈ Chunk.chunk_id <$> processed ++ [c]) as Himono
    by (intros a Ha; rewrite fmap_app; apply elem_of_app; by left).
  unfold Deduplicator.dedup_step.
  destruct (seen_hashes st !! key c) as [existing|] eqn:Hlook.
  - destruct (Hseen _ _ Hlook) as [Hex Hkey].
    destruct (_ <? _) eqn:Hlonger;
      (split; [|split; [|split; [|split; [|split]]]]);
      cbn [unique_chunks seen_hashes duplicates].
    + intros x [[_ Hx]%list_elem_of_filter| ->%list_elem_of_singleton]%elem_of_app;
        [by apply Hmono, Hsub|done].
    + intros h e. destruct (decide (h = key c)) as [->|Hne].
      * rewrite lookup_insert_eq. intros ?; simplify_eq. split; [|done].
        apply elem_of_app; right. by apply list_elem_of_singleton.
      * rewrite lookup_insert_ne by done. intros He.
        destruct (Hseen _ _ He) as [Hin Hk]. split; [|done].
        apply elem_of_app; left. apply list_elem_of_filter. split; [|done].
        intros Hid. apply Hne.
        assert (e = existing) as ->
          by (by apply (NoDup_fmap_elem_inj Chunk.chunk_id (unique_chunks st))).
        by rewrite <- Hk, <- Hkey.
    + rewrite fmap_app. apply NoDup_app. split; [|split].
      * eapply sublist_NoDup; [exact Hnd|]. apply fmap_sublist, sublist_filter.
      * intros a [x [-> [_ Hx]%list_elem_of_filter]]%list_elem_of_fmap
               Ha%list_elem_of_singleton.
        apply Hcu. rewrite <- Ha. by apply list_elem_of_fmap_2.
      * apply NoDup_singleton.
    + intros x [Hx| ->%list_elem_of_singleton]%elem_of_app.
      * destruct (Hcover _ Hx) as (x' & Hx' & Hlen).
        destruct (decide (key x = key c)) as [Hk|Hk].
        -- rewrite Hk, lookup_insert_eq. exists c. split; [done|].
           rewrite Hk, Hlook in Hx'. simplify_eq.
           apply Nat.ltb_lt in Hlonger. lia.
        -- rewrite lookup_insert_ne by done. eauto.
      * rewrite lookup_insert_eq. eauto.
    + rewrite !length_app. cbn [length].
      pose proof (filter_others_length Chunk.chunk_id (unique_chunks st)
                    existing Hnd Hex) as Hlen.
      set (n := length (filter _ (unique_chunks st))) in *. lia.
    + intros a b [Hab| Hab%list_elem_of_singleton]%elem_of_app.
      * destruct (Hpairs _ _ Hab) as [Ha Hna]. split; [by apply Himono|].
        rewrite fmap_app. intros [Hin| Hin%list_elem_of_singleton]%elem_of_app.
        -- apply Hna. apply list_elem_of_fmap in Hin as (x & -> & [_ Hx]%list_elem_of_filter).
           by apply list_elem_of_fmap_2.
        -- apply Hc. by rewrite <- Hin.
      * simplify_eq. split.
        -- by apply Himono, list_elem_of_fmap_2, Hsub.
        -- rewrite fmap_app.
           intros [Hin| Hin%list_elem_of_singleton]%elem_of_app.
           ++ apply list_elem_of_fmap in Hin as (x & Hid & [Hne _]%list_elem_of_filter).
              by apply Hne.
           ++ apply Hcu. rewrite <- Hin. by apply list_elem_of_fmap_2.
    + intros x Hx. by apply Hmono, Hsub.
    + done.
    + done.
    + intros x [Hx| ->%list_elem_of_singleton]%elem_of_app; [by apply Hcover|].
      exists existing. split; [done|]. apply Nat.ltb_ge in Hlonger. lia.
    + rewrite !length_app. cbn [length]. lia.
    + intros a b [Hab| Hab%list_elem_of_singleton]%elem_of_app.
      * destruct (Hpairs _ _ Hab) as [Ha Hna]. split; [by apply Himono|done].
      * simplify_eq. split; [by apply list_elem_of_fmap_2|done].
  - split; [|split; [|split; [|split; [|split]]]];
      cbn [unique_chunks seen_hashes duplicates].
    + intros x [Hx| ->%list_elem_of_singleton]%elem_of_app;
        [by apply Hmono, Hsub|done].
    + intros h e. destruct (decide (h = key c)) as [->|Hne].
      * rewrite lookup_insert_eq. intros ?; simplify_eq. split; [|done].
        apply elem_of_app; right. by apply list_elem_of_singleton.
      * rewrite lookup_insert_ne by done. intros He.
        destruct (Hseen _ _ He) as [Hin Hk]. split; [|done].
        apply elem_of_app; by left.
    + rewrite fmap_app. apply NoDup_app. split; [done|split].
      * intros a Ha Ha'%list_elem_of_singleton. apply Hcu. by rewrite <- Ha'.
      * apply NoDup_singleton.
    + intros x [Hx| ->%list_elem_of_singleton]%elem_of_app.
      * destruct (Hcover _ Hx) as (x' & Hx' & Hlen).
        rewrite lookup_insert_ne; [eauto|].
        intros Hk. rewrite <- Hk, Hlook in Hx'. done.
      * rewrite lookup_insert_eq. eauto.
    + rewrite !length_app. cbn [length]. lia.
    + intros a b Hab. destruct (Hpairs _ _ Hab) as [Ha Hna].
      split; [by apply Himono|].
      rewrite fmap_app. intros [Hin| Hin%list_elem_of_singleton]%elem_of_app;
        [done|]. apply Hc. by rewrite <- Hin.
Qed.

Lemma dedup_fold_full chunks : forall processed st,
  NoDup (Chunk.chunk_id <$> processed ++ chunks) ->
  dedup_full key processed st ->
  dedup_full key (processed ++ chunks) (fold_left dedup_step chunks st).
Proof.
  induction chunks as [|c l IH]; intros processed st Hids Hst; cbn [fold_left].
  - by rewrite app_nil_r.
  - replace (processed ++ c :: l) with ((processed ++ [c]) ++ l) in *
      by (by rewrite <- app_assoc).
    apply IH; [done|]. apply dedup_step_full; [|done].
    rewrite fmap_app in Hids. by apply NoDup_app in Hids as [? _].
Qed.

(** X12. Whatever the identifiers, the chunks [_exact_dedup] keeps are
    chunks of its input, no two of them have the same content hash, and
    every pair of identifiers it reports names two chunks of the input
    that have the same hash; at most one pair is reported per chunk. *)
Theorem exact_dedup_sound (chunks : list Chunk.t) :
  let r := _exact_dedup chunks in
  (forall c, c ∈ r.1 -> c ∈ chunks)
  /\ NoDup (key <$> r.1)
  /\ (forall a b, (a, b) ∈ r.2 ->
        exists ca cb, ca ∈ chunks /\ cb ∈ chunks
                      /\ Chunk.chunk_id ca = a /\ Chunk.chunk_id cb = b
                      /\ key ca = key cb)
  /\ length r.2 <= length chunks.
Proof.
  intros r. subst r. unfold Deduplicator._exact_dedup. cbn [fst snd].
  destruct (dedup_fold_sound chunks [] dedup_init dedup_sound_init)
    as (Hsub & _ & Hpairs & Hcount).
  destruct (dedup_fold_inv lower isword md5_hexdigest chunks dedup_init
              (dedup_inv_init lower isword md5_hexdigest)) as [Hnd _].
  done.
Qed.

(** X13. When the identifiers of the input are pairwise different,
    [_exact_dedup] accounts for every chunk: the chunks kept and the
    pairs reported add up to the input; every chunk of the input has
    among the kept chunks one with its hash that is at least as long;
    the kept chunks have pairwise different identifiers; and the first
    identifier of a reported pair, the removed one, is an identifier of
    the input that no kept chunk carries. *)
Theorem exact_dedup_accounts (chunks : list Chunk.t) :
  NoDup (Chunk.chunk_id <$> chunks) ->
  let r := _exact_dedup chunks in
  length r.1 + length r.2 = length chunks
  /\ (forall c, c ∈ chunks ->
        exists c', c' ∈ r.1 /\ key c' = key c
                   /\ length (Chunk.content c) <= length (Chunk.content c'))
  /\ NoDup (Chunk.chunk_id <$> r.1)
  /\ (forall a b, (a, b) ∈ r.2 ->
        a ∈ Chunk.chunk_id <$> chunks /\ a ∉ Chunk.chunk_id <$> r.1).
Proof.
  intros Hids r. subst r. unfold Deduplicator._exact_dedup. cbn [fst snd].
  destruct (dedup_fold_full chunks [] dedup_init Hids dedup_full_init)
    as (Hsub & Hseen & Hnd & Hcover & Hcount & Hpairs).
  split; [done|]. split; [|done].
  intros c Hc. destruct (Hcover _ Hc) as (c' & Hc' & Hlen).
  destruct (Hseen _ _ Hc') as [Hin Hk]. eauto.
Qed.

End DedupAccounts.

(** ** The quality check: validation, then deduplication *)

Section QualityCheck.
Import QualityValidator Deduplicator.

Variable config : QualityConfig.
Variable lower : text -> text.
Variable isword : char -> bool.
Variable md5_hexdigest : text -> string.

Local Abbreviation key :=
  (fun c => _compute_hash lower isword md5_hexdigest (Chunk.content c)).

(** X14. The two steps of the quality check, [validate_chunks] with
    [remove_invalid] set and then [deduplicate] on what it returns: every
    chunk that is left is a chunk of the input that [validate_chunk]
    finds valid, no two of them have the same content hash, there is one
    validation result per chunk of the input, and when the identifiers
    of the input are pairwise different the chunks left and the pairs
    reported add up to the valid chunks. *)
Theorem quality_check_steps (dedup_threshold : Q) (chunks valid : list Chunk.t)
  (results : list ValidationResult) :
  validate_chunks config chunks true = Some (valid, results) ->
  let r := deduplicate lower isword md5_hexdigest dedup_threshold valid None in
  Forall (fun c => c ∈ chunks /\ is_valid (validate_chunk config c) = true) r.1
  /\ NoDup (key <$> r.1)
  /\ results = validate_chunk config <$> chunks
  /\ (NoDup (Chunk.chunk_id <$> chunks) ->
      length r.1 + length r.2
      = length (filter (fun c => is_valid (validate_chunk config c) = true)
                       chunks)).
Proof.
  intros Hv r. subst r.
  destruct chunks as [|c0 l] eqn:Hchunks; [done|]. rewrite <- Hchunks in *.
  assert (chunks <> []) as Hne by (by rewrite Hchunks).
  clear Hchunks c0 l. unfold validate_chunks in Hv.
  rewrite validate_fold in Hv. cbn [app] in Hv.
  destruct (length chunks) eqn:Hlen; [done|]. simplify_eq.
  unfold deduplicate, Deduplicator._exact_dedup. cbn [fst snd].
  rewrite app_nil_r.
  set (valid := filter _ chunks).
  destruct (dedup_fold_sound lower isword md5_hexdigest valid [] dedup_init
              (dedup_sound_init lower isword md5_hexdigest))
    as (Hsub & _ & _ & _).
  destruct (dedup_fold_inv lower isword md5_hexdigest valid dedup_init
              (dedup_inv_init lower isword md5_hexdigest)) as [Hnd _].
  split; [|split; [done|split; [done|]]].
  - apply Forall_forall. intros c Hc%Hsub. cbn [app] in Hc.
    apply list_elem_of_filter in Hc as [? ?]. done.
  - intros Hids.
    assert (NoDup (Chunk.chunk_id <$> valid)) as Hvids.
    { eapply sublist_NoDup; [exact Hids|]. apply fmap_sublist, sublist_filter. }
    destruct (dedup_fold_full lower isword md5_hexdigest valid [] dedup_init
                Hvids (dedup_full_init lower isword md5_hexdigest))
      as (_ & _ & _ & _ & Hcount & _).
    exact Hcount.
Qed.

End QualityCheck.

(** ** QAParser: headings as questions *)

Section HeadingProps.
Import QAParser.

Variable decimal_value : char -> option N.

Local Abbreviation heading_of_match := (heading_of_match decimal_value).
Local Abbreviation parse_headings := (parse_headings decimal_value).
Local Abbreviation step_marker_pattern := (step_marker_pattern decimal_value).

Lemma heading_of_match_total s m :
  match_of heading_pattern s m -> is_Some (heading_of_match s m).
Proof.
  intros Hm. unfold QAParser.heading_of_match.
  destruct (match_of_sets 1 heading_pattern s m eq_refl Hm) as [t ->].
  cbn [fmap option_fmap option_map mbind option_bind].
  by destruct (re_match _ _).
Qed.

Lemma heading_of_match_Some s m q :
  heading_of_match s m = Some (Some q) ->
  qp_start q = m_start m /\ qp_end q = m_end m /\ qp_num q = None
  /\ qp_question q = strip (group0 s m)
  /\ exists t, group s m 1 = Some t
               /\ re_match step_marker_pattern (strip t) = None.
Proof.
  unfold QAParser.heading_of_match.
  destruct (group s m 1) as [t|]; [|done].
  cbn [fmap option_fmap option_map mbind option_bind].
  destruct (re_match _ _) eqn:Hstep; [done|].
  intros [= <-]. cbn. eauto 10.
Qed.

Lemma headings_qchain s ms found lo :
  mapM (heading_of_match s) ms = Some found ->
  chain lo (length s) ms ->
  qchain (length s) (Z.of_nat lo) (omap id found).
Proof.
  intros Hmap. apply mapM_Some in Hmap. revert lo.
  induction Hmap as [|m oq ms found Hm _ IH]; intros lo Hchain; [done|].
  destruct Hchain as (H1 & H2 & H3 & H4).
  specialize (IH _ H4). cbn [omap list_omap].
  destruct oq as [q|]; cbn.
  - apply heading_of_match_Some in Hm as (-> & -> & _).
    repeat split; [lia..|done].
  - eapply qchain_mono; [|exact IH]. lia.
Qed.

(** The pairs of the loop that the marker scan and [parse_headings]
    share come from the positions it is given. *)
Lemma pairs_loop_origin s l : forall lo,
  qchain (length s) lo l ->
  Forall (fun p => QAPair.answer p <> []
                   /\ QAPair.end_pos p <= length s
                   /\ exists q next,
                        q ∈ l
                        /\ QAPair.question p = qp_question q
                        /\ QAPair.question_num p = qp_num q
                        /\ QAPair.start_pos p = qp_start q
                        /\ QAPair.end_pos p = next
                        /\ QAPair.answer p
                           = _clean_answer_text (strip (slice s (qp_end q) next)))
         (pairs_loop s l).
Proof.
  induction l as [|q l IH]; intros lo Hchain; cbn [pairs_loop]; [constructor|].
  destruct Hchain as (H1 & H2 & H3 & H4).
  assert (Forall (fun p => QAPair.answer p <> []
                   /\ QAPair.end_pos p <= length s
                   /\ exists q0 next,
                        q0 ∈ q :: l
                        /\ QAPair.question p = qp_question q0
                        /\ QAPair.question_num p = qp_num q0
                        /\ QAPair.start_pos p = qp_start q0
                        /\ QAPair.end_pos p = next
                        /\ QAPair.answer p
                           = _clean_answer_text (strip (slice s (qp_end q0) next)))
                 (pairs_loop s l)) as Hrest.
  { eapply Forall_impl; [exact (IH _ H4)|].
    intros p (? & ? & q0 & next & ? & ?). split; [done|]. split; [done|].
    exists q0, next. split; [by right|done]. }
  set (answer_end := match l with next :: _ => qp_start next | [] => length s end).
  assert (answer_end <= length s) as Hend.
  { subst answer_end. destruct l as [|next l']; [done|].
    destruct H4 as (? & ? & ? & _). lia. }
  destruct (_clean_answer_text _) as [|c a] eqn:Hclean; [done|].
  constructor; [|done].
  cbn [QAPair.answer QAPair.end_pos QAPair.question QAPair.question_num
       QAPair.start_pos].
  split; [done|]. split; [done|].
  exists q, answer_end. split; [by left|]. by rewrite Hclean.
Qed.

Lemma parse_headings_Some s source_file page_num l :
  parse_headings s source_file page_num = Some l ->
  is_blank s = true /\ l = []
  \/ exists found,
       mapM (heading_of_match (_normalize_text s))
            (finditer heading_pattern (_normalize_text s)) = Some found
       /\ l = (fun qa =>
                 {| QAPair.question := QAPair.question qa;
                    QAPair.answer := QAPair.answer qa;
                    QAPair.question_num := QAPair.question_num qa;
                    QAPair.source_file := source_file;
                    QAPair.page_num := page_num;
                    QAPair.start_pos := QAPair.start_pos qa;
                    QAPair.end_pos := QAPair.end_pos qa |})
              <$> pairs_loop (_normalize_text s) (omap id found).
Proof.
  unfold QAParser.parse_headings.
  destruct (is_blank s); [intros [= <-]; by left|].
  intros H. apply bind_Some in H as (found & Hfound & H). right.
  exists found. split; [done|].
  destruct (omap id found); by simplify_eq.
Qed.

(** X15. [parse_headings] always returns.  The pairs it returns lie in
    the normalized text one after the other without overlapping; each has
    a non-empty answer, no question number, and the [source_file] and
    [page_num] it was called with. *)
Theorem parse_headings_pairs (s : text) (source_file : option text)
  (page_num : option Z) :
  exists l,
    parse_headings s source_file page_num = Some l
    /\ well_placed l
    /\ Forall (fun p => QAPair.answer p <> []
                        /\ QAPair.question_num p = None
                        /\ QAPair.source_file p = source_file
                        /\ QAPair.page_num p = page_num
                        /\ QAPair.end_pos p <= length (_normalize_text s)) l.
Proof.
  assert (is_Some (parse_headings s source_file page_num)) as [l Hl].
  { unfold QAParser.parse_headings. destruct (is_blank s); [done|].
    assert (is_Some (mapM (heading_of_match (_normalize_text s))
                       (finditer heading_pattern (_normalize_text s))))
      as [found ->].
    { apply mapM_is_Some. eapply Forall_impl; [apply finditer_match_of|].
      intros m Hm. by apply heading_of_match_total. }
    cbn [mbind option_bind]. by destruct (omap id found). }
  exists l. split; [done|].
  apply parse_headings_Some in Hl as [[_ ->]|(found & Hfound & ->)].
  { split; [split; constructor|constructor]. }
  pose proof (headings_qchain _ _ _ 0 Hfound (finditer_chain _ _)) as Hq.
  split.
  - apply well_placed_fmap; [done|].
    apply (pchain_well_placed (Z.to_nat (Z.of_nat 0))).
    by apply pairs_loop_pchain.
  - apply Forall_fmap. eapply Forall_impl; [exact (pairs_loop_origin _ _ _ Hq)|].
    intros p (Hans & Hend & q & next & Hin & _ & Hnum & _). cbn.
    split; [done|]. split; [|done]. rewrite Hnum.
    apply list_elem_of_omap in Hin as (oq & Hoq & Hid). cbn in Hid. subst oq.
    apply mapM_Some in Hfound.
    destruct (proj1 (list_elem_of_lookup _ _) Hoq) as [i Hi].
    destruct (Forall2_lookup_r _ _ _ _ _ Hfound Hi) as (m & _ & Hm).
    by apply heading_of_match_Some in Hm as (_ & _ & -> & _).
Qed.

Lemma run_bol_rep p hi r x y :
  y ∈ run (Seq Bol (Seq (Rep true 1 hi p) r)) x ->
  (exists c s', rest x.1 = c :: s' /\ p c = true) /\ pos x.1 < pos y.1.
Proof.
  cbn [run]. intros (z & Hy & Hz)%list_elem_of_bind.
  destruct (at_bol x.1); [|by apply elem_of_nil in Hz].
  apply list_elem_of_singleton in Hz as ->.
  apply list_elem_of_bind in Hy as (z & Hy & Hz).
  apply list_elem_of_fmap in Hz as (st & -> & Hst).
  apply (proj1 (elem_of_rev_iff _ _)) in Hst.
  apply run_reaches, reaches_pos in Hy. cbn [fst] in Hy.
  destruct (rest x.1) as [|c s'] eqn:Hrest; cbn [runs drop] in Hst;
    [by apply elem_of_nil in Hst|].
  rewrite drop_0 in Hst.
  destruct (p c) eqn:Hc; [|by apply elem_of_nil in Hst].
  destruct (negb _); [|by apply elem_of_nil in Hst]. cbn [andb] in Hst.
  apply runs_reaches, reaches_pos in Hst; [|done]. cbn [pos step] in Hst.
  split; [eauto|lia].
Qed.

Lemma lstrip_by_keeps_last p w c :
  p c = false -> exists w', lstrip_by p (w ++ [c]) = w' ++ [c].
Proof.
  intros Hc. induction w as [|x w IH]; cbn [app lstrip_by].
  - rewrite Hc. by exists [].
  - destruct (p x); [exact IH|]. by exists (x :: w).
Qed.

Lemma strip_keeps_head c r :
  isspace c = false -> exists r', strip (c :: r) = c :: r'.
Proof.
  intros Hc. unfold strip, rstrip_by. cbn [lstrip_by]. rewrite Hc.
  cbn [rev]. destruct (lstrip_by_keeps_last isspace (rev r) c Hc) as [w' ->].
  exists (rev w'). by rewrite rev_app_distr.
Qed.

Lemma heading_match_hash s m :
  match_of heading_pattern s m -> exists r, group0 s m = 0x23%N :: r.
Proof.
  intros (st & y & [Hrest Hlen] & Hy & ->).
  apply head_Some_elem_of in Hy.
  apply (run_bol_rep (is_char 0x23) (Some 6) _ (st, []) y) in Hy
    as [(c & s' & Hc & Hhash) Hpos].
  cbn [fst] in *. unfold group0, slice. cbn [m_start m_end].
  rewrite <- Hrest, Hc. apply N.eqb_eq in Hhash as <-.
  destruct (pos y.1 - pos st) as [|k] eqn:Hk; [lia|]. cbn [take]. eauto.
Qed.

(** X16. [parse_headings] takes no question from a heading whose text
    matches the step marker pattern.  Every pair it returns comes from a
    match of the heading pattern in the normalized text: the pair starts
    where the match starts, its question is the whole matched heading,
    stripped, so that it begins with the [#] of the heading, and the
    text captured after the [#] signs, stripped, does not match the
    step marker pattern. *)
Theorem parse_headings_skips_steps (s : text) (source_file : option text)
  (page_num : option Z) (l : list QAPair.t) :
  parse_headings s source_file page_num = Some l ->
  Forall (fun p =>
            exists m t,
              m ∈ finditer heading_pattern (_normalize_text s)
              /\ QAPair.start_pos p = m_start m
              /\ QAPair.question p = strip (group0 (_normalize_text s) m)
              /\ head (QAPair.question p) = Some 0x23%N
              /\ group (_normalize_text s) m 1 = Some t
              /\ re_match step_marker_pattern (strip t) = None) l.
Proof.
  intros [[_ ->]|(found & Hfound & ->)]%parse_headings_Some; [constructor|].
  pose proof (headings_qchain _ _ _ 0 Hfound (finditer_chain _ _)) as Hq.
  apply Forall_fmap. eapply Forall_impl; [exact (pairs_loop_origin _ _ _ Hq)|].
  intros p (_ & _ & q & next & Hin & Hquestion & _ & Hstart & _).
  unfold compose. cbn [QAPair.question QAPair.start_pos].
  apply list_elem_of_omap in Hin as (oq & Hoq & Hid). cbn in Hid. subst oq.
  apply mapM_Some in Hfound.
  destruct (proj1 (list_elem_of_lookup _ _) Hoq) as [i Hi].
  destruct (Forall2_lookup_r _ _ _ _ _ Hfound Hi) as (m & Hmi & Hm).
  apply heading_of_match_Some in Hm as (Hs & _ & _ & Hqq & t & Ht & Hstep).
  assert (m ∈ finditer heading_pattern (_normalize_text s)) as Hmin
    by (by eapply list_elem_of_lookup_2).
  exists m, t. split; [done|]. split; [congruence|]. split; [congruence|].
  split; [|done].
  rewrite Hquestion, Hqq.
  pose proof (finditer_match_of heading_pattern (_normalize_text s)) as Hall.
  rewrite Forall_forall in Hall.
  destruct (heading_match_hash _ _ (Hall _ Hmin)) as [r Hr].
  destruct (strip_keeps_head 0x23%N r eq_refl) as [r' Hr'].
  unfold text, char in *. by rewrite Hr, Hr'.
Qed.

End HeadingProps.

(** ** QAParser: what the strategies put into a pair *)

Section StripFacts.

Lemma lstrip_by_idemp p s : lstrip_by p (lstrip_by p s) = lstrip_by p s.
Proof.
  induction s as [|c s IH]; [done|]. cbn [lstrip_by].
  destruct (p c) eqn:Hc; [exact IH|]. cbn [lstrip_by]. by rewrite Hc.
Qed.

Lemma rstrip_by_idemp p s : rstrip_by p (rstrip_by p s) = rstrip_by p s.
Proof. unfold rstrip_by. by rewrite rev_involutive, lstrip_by_idemp. Qed.

Lemma lstrip_by_head p s c r : lstrip_by p s = c :: r -> p c = false.
Proof.
  induction s as [|x s IH]; [done|]. cbn [lstrip_by].
  destruct (p x) eqn:Hx; [exact IH|]. intros ?; by simplify_eq.
Qed.

Lemma rstrip_by_keeps_head p c r :
  p c = false -> exists r', rstrip_by p (c :: r) = c :: r'.
Proof.
  intros Hc. unfold rstrip_by. cbn [rev].
  destruct (lstrip_by_keeps_last p (rev r) c Hc) as [w' ->].
  exists (rev w'). by rewrite rev_app_distr.
Qed.

Lemma strip_idemp s : strip (strip s) = strip s.
Proof.
  unfold strip. destruct (lstrip_by isspace s) as [|c r] eqn:Hl; [done|].
  pose proof (lstrip_by_head _ _ _ _ Hl) as Hc.
  destruct (rstrip_by_keeps_head isspace c r Hc) as [r' Hr'].
  rewrite Hr' at 1. cbn [lstrip_by]. rewrite Hc, <- Hr'.
  apply rstrip_by_idemp.
Qed.

Lemma join_nonempty sep p parts : p <> [] -> join sep (p :: parts) <> [].
Proof. intros Hp. cbn [join]. destruct parts; [done|]. by destruct p. Qed.

End StripFacts.

Section StrategyProps.
Import QAParser.

Variable decimal_value : char -> option N.
Variable isdigit_char : char -> bool.

Local Abbreviation _parse_by_question_markers :=
  (_parse_by_question_markers decimal_value isdigit_char).
Local Abbreviation _parse_by_paragraphs := (_parse_by_paragraphs decimal_value).
Local Abbreviation para_step := (para_step decimal_value).
Local Abbreviation is_question := (is_question decimal_value).

Lemma clean_answer_text_stripped s :
  strip (_clean_answer_text s) = _clean_answer_text s.
Proof. unfold _clean_answer_text. apply strip_idemp. Qed.

Lemma para_step_answers st para :
  Forall (fun p => QAPair.answer p <> []
                   /\ is_question (QAPair.question p) = true) (ps_pairs st) ->
  Forall (fun part => part <> []) (ps_answer_parts st) ->
  (forall q, ps_question st = Some q -> is_question q = true) ->
  let st' := para_step st para in
  Forall (fun p => QAPair.answer p <> []
                   /\ is_question (QAPair.question p) = true) (ps_pairs st')
  /\ Forall (fun part => part <> []) (ps_answer_parts st')
  /\ (forall q, ps_question st' = Some q -> is_question q = true)
  /\ Forall (fun p => QAPair.answer p <> []
                      /\ is_question (QAPair.question p) = true) (flush_pair st').
Proof.
  intros Hpairs Hparts Hq.
  assert (forall st,
    Forall (fun p => QAPair.answer p <> []
                     /\ is_question (QAPair.question p) = true) (ps_pairs st) ->
    Forall (fun part => part <> []) (ps_answer_parts st) ->
    (forall q, ps_question st = Some q -> is_question q = true) ->
    Forall (fun p => QAPair.answer p <> []
                     /\ is_question (QAPair.question p) = true) (flush_pair st))
    as Hflush.
  { clear. intros st Hpairs Hparts Hq. unfold flush_pair.
    destruct (ps_question st) as [q|]; [|done].
    destruct (ps_answer_parts st) as [|part parts]; [done|].
    apply Forall_app. split; [done|].
    repeat constructor; cbn [QAPair.answer QAPair.question].
    - apply join_nonempty. by apply Forall_inv in Hparts.
    - by apply Hq. }
  assert (let st' := para_step st para in
    Forall (fun p => QAPair.answer p <> []
                     /\ is_question (QAPair.question p) = true) (ps_pairs st')
    /\ Forall (fun part => part <> []) (ps_answer_parts st')
    /\ (forall q, ps_question st' = Some q -> is_question q = true)) as Hst'.
  { unfold QAParser.para_step.
    destruct (strip para) as [|c para'] eqn:Hs; [done|].
    destruct (is_question (c :: para')) eqn:Hquestion;
      cbn [ps_pairs ps_answer_parts ps_question].
    - split; [by apply Hflush|]. split; [constructor|].
      intros q ?; by simplify_eq.
    - split; [done|]. split; [|done].
      destruct (ps_question st); [|done].
      apply Forall_app. split; [done|]. by repeat constructor. }
  cbv zeta in *. destruct Hst' as (? & ? & ?). split; [done|].
  split; [done|]. split; [done|]. by apply Hflush.
Qed.

(** X17. The marker scan returns no pair with an empty answer: the
    answer of each of its pairs is not empty, has no white space at
    either end, and ends within the text.  The paragraph fallback
    returns no pair with an empty answer either, and the question of
    each of its pairs is a paragraph that the question test accepts. *)
Theorem strategies_answers_not_empty :
  (forall s l,
     _parse_by_question_markers s = Some l ->
     Forall (fun p => QAPair.answer p <> []
                      /\ strip (QAPair.answer p) = QAPair.answer p
                      /\ QAPair.end_pos p <= length s) l)
  /\ (forall s,
        Forall (fun p => QAPair.answer p <> []
                         /\ is_question (QAPair.question p) = true)
               (_parse_by_paragraphs s)).
Proof.
  split.
  - intros s l. unfold QAParser._parse_by_question_markers. intros H.
    apply bind_Some in H as (qs & Hqs & H).
    apply collect_positions_bounds in Hqs.
    destruct qs as [|q qs]; [injection H as <-; constructor|].
    injection H as <-.
    eapply Forall_impl.
    + eapply pairs_loop_origin, unique_loop_qchain.
      apply sort_by_start_Forall, Hqs.
    + intros p (Hne & Hend & q0 & next & _ & _ & _ & _ & _ & Heq).
      cbv beta. split; [done|]. split; [|done].
      rewrite Heq. apply clean_answer_text_stripped.
  - intros s. unfold QAParser._parse_by_paragraphs.
    set (st0 := {| ps_pairs := []; ps_question := None; ps_answer_parts := [];
                   ps_start := 0; ps_position := 0 |}).
    assert (forall l st,
      Forall (fun p => QAPair.answer p <> []
                       /\ is_question (QAPair.question p) = true) (ps_pairs st) ->
      Forall (fun part => part <> []) (ps_answer_parts st) ->
      (forall q, ps_question st = Some q -> is_question q = true) ->
      Forall (fun p => QAPair.answer p <> []
                       /\ is_question (QAPair.question p) = true) (flush_pair st) ->
      Forall (fun p => QAPair.answer p <> []
                       /\ is_question (QAPair.question p) = true)
             (flush_pair (fold_left para_step l st))) as Hfold.
    { induction l as [|para l IH]; intros st H1 H2 H3 H4; [done|].
      cbn [fold_left].
      destruct (para_step_answers st para H1 H2 H3) as (? & ? & ? & ?).
      by apply IH. }
    apply Hfold; [constructor|constructor|done|constructor].
Qed.

End StrategyProps.

(** ** QAParser: [merge_short_qas] on a parse result *)

Section MergePlacement.
Import QAParser.

Lemma pchain_raise lo lo' l :
  pchain lo l -> Forall (fun q => lo' <= QAPair.start_pos q) l -> pchain lo' l.
Proof.
  destruct l as [|p l]; [done|]. cbn [pchain].
  intros (_ & ? & ?) [? _]%Forall_cons. done.
Qed.

Lemma well_placed_pchain l : well_placed l -> pchain 0 l.
Proof.
  intros [Hwf Hss]. induction Hss as [|p l Hss IH Hall]; [done|].
  apply Forall_cons in Hwf as [Hp Hwf]. cbn [pchain].
  split; [lia|]. split; [done|]. eapply pchain_raise; [by apply IH|done].
Qed.

Lemma merge_loop_pchain min_length l : forall current lo,
  pchain lo (current :: l) -> pchain lo (merge_loop min_length current l).
Proof.
  induction l as [|qa l IH]; intros current lo Hchain; cbn [merge_loop]; [done|].
  destruct Hchain as (H1 & H2 & H3 & H4 & H5).
  destruct (_ <? _).
  - apply IH. cbn [pchain absorb_next QAPair.start_pos QAPair.end_pos].
    split; [done|]. split; [lia|done].
  - cbn [pchain]. split; [done|]. split; [done|]. apply IH.
    cbn [pchain]. done.
Qed.

Lemma merge_loop_length min_length l : forall current,
  length (merge_loop min_length current l) <= S (length l).
Proof.
  induction l as [|qa l IH]; intros current; cbn [merge_loop length]; [done|].
  destruct (_ <? _); [specialize (IH (absorb_next current qa))
                     |specialize (IH qa); cbn [length]]; lia.
Qed.

Lemma merge_loop_ends min_length l : forall current,
  (exists p rest, merge_loop min_length current l = p :: rest
                  /\ QAPair.question p = QAPair.question current
                  /\ QAPair.start_pos p = QAPair.start_pos current)
  /\ QAPair.end_pos <$> last (merge_loop min_length current l)
     = QAPair.end_pos <$> last (current :: l).
Proof.
  induction l as [|qa l IH]; intros current; cbn [merge_loop].
  - split; [by exists current, []|done].
  - destruct (_ <? _).
    + destruct (IH (absorb_next current qa)) as [(p & rest & -> & Hq & Hs) Hlast].
      split; [by exists p, rest|].
      rewrite Hlast. by destruct l.
    + destruct (IH qa) as [(p & rest & Hloop & _) Hlast].
      split; [by eexists _, _|].
      rewrite Hloop in *. cbn [last] in *. rewrite Hlast. done.
Qed.

Lemma merge_loop_long min_length l : forall current,
  Forall (fun p => min_length <= QAPair.char_count p) (current :: l) ->
  merge_loop min_length current l = current :: l.
Proof.
  induction l as [|qa l IH]; intros current Hall; cbn [merge_loop]; [done|].
  apply Forall_cons in Hall as [Hc Hall].
  destruct (Nat.ltb_spec (QAPair.char_count current) min_length); [lia|].
  by rewrite IH.
Qed.

(** X18. [merge_short_qas] on pairs that lie one after the other without
    overlapping, as [parse] returns them: the merged pairs still lie one
    after the other without overlapping, there are not more of them, the
    first one keeps the question and the start of the first pair, the
    last one ends where the last pair ended, and nothing is changed when
    every pair reaches the minimum length. *)
Theorem merge_short_qas_placement (qa_pairs : list QAPair.t) (min_length : nat) :
  well_placed qa_pairs ->
  let merged := merge_short_qas qa_pairs min_length in
  well_placed merged
  /\ length merged <= length qa_pairs
  /\ QAPair.question <$> head merged = QAPair.question <$> head qa_pairs
  /\ QAPair.start_pos <$> head merged = QAPair.start_pos <$> head qa_pairs
  /\ QAPair.end_pos <$> last merged = QAPair.end_pos <$> last qa_pairs
  /\ (Forall (fun p => min_length <= QAPair.char_count p) qa_pairs ->
      merged = qa_pairs).
Proof.
  intros Hwp merged. subst merged. destruct qa_pairs as [|qa l]; [done|].
  cbn [merge_short_qas].
  destruct (merge_loop_ends min_length l qa) as [(p & rest & Hloop & Hq & Hs) Hlast].
  split; [|split; [|split; [|split; [|split]]]].
  - eapply pchain_well_placed, merge_loop_pchain. by apply well_placed_pchain.
  - apply merge_loop_length.
  - rewrite Hloop. cbn. by rewrite Hq.
  - rewrite Hloop. cbn. by rewrite Hs.
  - exact Hlast.
  - apply merge_loop_long.
Qed.

End MergePlacement.

(** ** Deduplicator: the similarity phase *)

Section SimilarityProps.
Import Deduplicator.

Variable lower : text -> text.
Variable isword : char -> bool.

Local Abbreviation _extract_features := (_extract_features lower isword).
Local Abbreviation _similarity_dedup := (_similarity_dedup lower isword).
Local Abbreviation sim_inner := (sim_inner lower isword).
Local Abbreviation sim_outer := (sim_outer lower isword).

Lemma pos_of_nat_Z u : 0 < u -> Z.pos (Pos.of_nat u) = Z.of_nat u.
Proof. intros Hu. rewrite <- positive_nat_Z, Nat2Pos.id; [done|lia]. Qed.

Lemma jaccard_score_comm `{Countable A} (a b : gset A) :
  jaccard_score a b = jaccard_score b a.
Proof.
  unfold jaccard_score. rewrite andb_comm.
  assert (a ∩ b = b ∩ a) as ->
    by (apply set_eq; intros x; rewrite !elem_of_intersection; tauto).
  by assert (a ∪ b = b ∪ a) as ->
    by (apply set_eq; intros x; rewrite !elem_of_union; tauto).
Qed.

Lemma jaccard_score_range `{Countable A} (a b : gset A) :
  Forall (fun q => (0 <= q)%Q /\ (q <= 1)%Q) (jaccard_score a b).
Proof.
  unfold jaccard_score. destruct (_ && _); [|constructor].
  repeat constructor; destruct (Nat.ltb_spec 0 (size (a ∪ b))) as [Hu|Hu];
    try done.
  - unfold Qle. cbn. lia.
  - unfold Qle. cbn. rewrite pos_of_nat_Z by done.
    assert (size (a ∩ b) <= size (a ∪ b)); [|lia].
    apply subseteq_size. intros x [Hx _]%elem_of_intersection.
    apply elem_of_union. by left.
Qed.

Lemma jaccard_score_self `{Countable A} (a : gset A) :
  jaccard_score a a = [] /\ a = ∅
  \/ (exists q, jaccard_score a a = [q] /\ (q == 1)%Q) /\ a <> ∅.
Proof.
  unfold jaccard_score. destruct (decide (a = ∅)) as [->|Hne].
  - left. split; [|done]. by rewrite bool_decide_eq_false_2 by (by intros ?).
  - right. split; [|done]. rewrite bool_decide_eq_true_2 by done. cbn [andb].
    assert (size a <> 0) as Hpos.
    { apply size_non_empty_iff. intros E. apply Hne. by apply leibniz_equiv. }
    assert (a ∩ a = a) as ->
      by (apply set_eq; intros x; rewrite !elem_of_intersection; tauto).
    assert (a ∪ a = a) as ->
      by (apply set_eq; intros x; rewrite !elem_of_union; tauto).
    destruct (Nat.ltb_spec 0 (size a)); [|lia].
    eexists. split; [done|]. unfold Qeq. cbn. rewrite pos_of_nat_Z by lia. lia.
Qed.

Lemma mean_range (scores : list Q) :
  Forall (fun q => (0 <= q)%Q /\ (q <= 1)%Q) scores ->
  (0 <= fold_right Qplus 0 scores)%Q
  /\ (fold_right Qplus 0 scores <= inject_Z (Z.of_nat (length scores)))%Q.
Proof.
  induction 1 as [|q l [Hq0 Hq1] _ [IH0 IH1]]; cbn [fold_right length].
  - split; apply Qle_refl.
  - split.
    + apply Qle_trans with (0 + 0)%Q; [done|by apply Qplus_le_compat].
    + rewrite Nat2Z.inj_succ, <- Z.add_1_l, inject_Z_plus.
      by apply Qplus_le_compat.
Qed.

Lemma mean_ones (scores : list Q) :
  scores <> [] -> Forall (fun q => (q == 1)%Q) scores ->
  (fold_right Qplus 0 scores / inject_Z (Z.of_nat (length scores)) == 1)%Q.
Proof.
  intros Hne Hall.
  assert (fold_right Qplus 0 scores == inject_Z (Z.of_nat (length scores)))%Q
    as ->.
  { clear Hne. induction Hall as [|q l Hq _ IH]; cbn [fold_right length].
    - reflexivity.
    - rewrite Nat2Z.inj_succ, <- Z.add_1_l, inject_Z_plus, Hq, IH. reflexivity. }
  apply Qmult_inv_r. destruct scores; [done|].
  cbn [length]. unfold Qeq. cbn. lia.
Qed.

(** X19. The similarity of two feature sets lies between 0 and 1 and
    does not depend on their order.  A feature set compared with itself
    scores 1 when it has at least one word, and 0 when its sets are all
    empty: two texts that normalize to nothing are not similar to each
    other. *)
Theorem compute_similarity_range (features1 features2 : features) :
  (0 <= _compute_similarity features1 features2)%Q
  /\ (_compute_similarity features1 features2 <= 1)%Q
  /\ _compute_similarity features1 features2
     = _compute_similarity features2 features1
  /\ (f_words features1 <> ∅ ->
      (_compute_similarity features1 features1 == 1)%Q)
  /\ (f_words features1 = ∅ -> f_char_bigrams features1 = ∅ ->
      f_bigrams features1 = ∅ ->
      _compute_similarity features1 features1 = 0%Q).
Proof.
  assert (forall f1 f2,
    Forall (fun q => (0 <= q)%Q /\ (q <= 1)%Q)
      (jaccard_score (f_words f1) (f_words f2)
       ++ jaccard_score (f_char_bigrams f1) (f_char_bigrams f2)
       ++ jaccard_score (f_bigrams f1) (f_bigrams f2))) as Hrange.
  { intros f1 f2. repeat (apply Forall_app; split); apply jaccard_score_range. }
  split; [|split; [|split; [|split]]].
  - unfold _compute_similarity. specialize (Hrange features1 features2).
    destruct (_ ++ _) as [|q l] eqn:Hscores; [apply Qle_refl|].
    apply mean_range in Hrange as [H0 _].
    apply Qle_shift_div_l; [|by rewrite Qmult_0_l].
    unfold Qlt. cbn. lia.
  - unfold _compute_similarity. specialize (Hrange features1 features2).
    destruct (_ ++ _) as [|q l] eqn:Hscores; [done|].
    apply mean_range in Hrange as [_ H1].
    apply Qle_shift_div_r; [unfold Qlt; cbn; lia|]. by rewrite Qmult_1_l.
  - unfold _compute_similarity.
    by rewrite (jaccard_score_comm (f_words features1)),
      (jaccard_score_comm (f_char_bigrams features1)),
      (jaccard_score_comm (f_bigrams features1)).
  - intros Hwords. unfold _compute_similarity.
    set (scores := _ ++ _).
    assert (scores <> [] /\ Forall (fun q => (q == 1)%Q) scores) as [Hne Hall].
    { subst scores.
      destruct (jaccard_score_self (f_words features1))
        as [[_ ?]|[(q & -> & Hq) _]]; [done|].
      split; [done|]. constructor; [done|].
      apply Forall_app. split.
      - destruct (jaccard_score_self (f_char_bigrams features1))
          as [[-> _]|[(q' & -> & Hq') _]]; by repeat constructor.
      - destruct (jaccard_score_self (f_bigrams features1))
          as [[-> _]|[(q' & -> & Hq') _]]; by repeat constructor. }
    pose proof (mean_ones scores Hne Hall) as Hmean.
    by destruct scores.
  - intros H1 H2 H3. unfold _compute_similarity. rewrite H1, H2, H3.
    destruct (jaccard_score_self (∅ : gset text)) as [[-> _]|[_ ?]]; [|done].
    destruct (jaccard_score_self (∅ : gset (text * text))) as [[-> _]|[_ ?]];
      done.
Qed.

(** X20. The preference of [_should_keep_first] never rejects both
    chunks: when it does not keep the first of two chunks it keeps the
    first once they are swapped.  A [qa] chunk is preferred to a chunk
    of another type whatever their lengths, and between two chunks of
    the same type, the same length and as many metadata entries the
    first is kept. *)
Theorem should_keep_first_preference (chunk1 chunk2 : Chunk.t) :
  (_should_keep_first chunk1 chunk2 = false ->
   _should_keep_first chunk2 chunk1 = true)
  /\ (Chunk.chunk_type chunk1 = "qa"%string ->
      Chunk.chunk_type chunk2 <> "qa"%string ->
      _should_keep_first chunk1 chunk2 = true
      /\ _should_keep_first chunk2 chunk1 = false)
  /\ (Chunk.chunk_type chunk1 = Chunk.chunk_type chunk2 ->
      length (Chunk.content chunk1) = length (Chunk.content chunk2) ->
      length (Chunk.metadata chunk1) = length (Chunk.metadata chunk2) ->
      _should_keep_first chunk1 chunk2 = true).
Proof.
  unfold _should_keep_first. cbv zeta.
  split; [|split].
  - destruct (String.eqb (Chunk.chunk_type chunk1) "qa"),
      (String.eqb (Chunk.chunk_type chunk2) "qa"); cbn [andb negb]; try done;
      destruct (Qle_bool (inject_Z (Z.of_nat (length (Chunk.content chunk1)))) _),
        (Qle_bool (inject_Z (Z.of_nat (length (Chunk.content chunk2)))) _);
      cbn [negb]; try done;
      destruct (length (Chunk.metadata chunk2) <? length (Chunk.metadata chunk1)),
        (length (Chunk.metadata chunk1) <? length (Chunk.metadata chunk2));
      done.
  - intros -> Hne%String.eqb_neq. rewrite Hne. done.
  - intros -> Hlen ->. rewrite Hlen, Nat.ltb_irrefl.
    destruct (String.eqb _ _); cbn [andb negb];
      destruct (Qle_bool _ _) eqn:Hle; cbn [negb]; try done;
      exfalso; apply not_true_iff_false in Hle; apply Hle, Qle_bool_iff;
      unfold Qle; cbn; lia.
Qed.

Lemma filter_all {A} (P : A -> Prop) `{forall x, Decision (P x)} (l : list A) :
  Forall P l -> filter P l = l.
Proof.
  induction 1 as [|x l Hx _ IH]; [done|].
  by rewrite filter_cons, decide_True, IH.
Qed.

Lemma compute_similarity_le_1 f1 f2 : (_compute_similarity f1 f2 <= 1)%Q.
Proof.
  unfold _compute_similarity.
  assert (Forall (fun q => (0 <= q)%Q /\ (q <= 1)%Q)
    (jaccard_score (f_words f1) (f_words f2)
     ++ jaccard_score (f_char_bigrams f1) (f_char_bigrams f2)
     ++ jaccard_score (f_bigrams f1) (f_bigrams f2))) as Hrange
    by (repeat (apply Forall_app; split); apply jaccard_score_range).
  destruct (_ ++ _) as [|q l] eqn:Hscores; [done|].
  apply mean_range in Hrange as [_ H1].
  apply Qle_shift_div_r; [unfold Qlt; cbn; lia|]. by rewrite Qmult_1_l.
Qed.

Lemma sim_inner_inv threshold chunk_features chunk1 others : forall st,
  (forall a b, (a, b) ∈ sim_duplicates st -> a ∈ to_remove st) ->
  let st' := sim_inner threshold chunk_features chunk1 others st in
  (forall a b, (a, b) ∈ sim_duplicates st' -> a ∈ to_remove st')
  /\ to_remove st ⊆ to_remove st'
  /\ ((1 < threshold)%Q -> st' = st).
Proof.
  induction others as [|chunk2 l IH]; intros st Hst; cbn [sim_inner]; [done|].
  destruct (bool_decide _); [by apply IH|].
  destruct (Qle_bool threshold _) eqn:Hsim.
  - assert (~ (1 < threshold)%Q) as Hthr.
    { apply Qle_bool_iff in Hsim. intros Hlt.
      apply (Qlt_irrefl 1). eapply Qlt_le_trans; [exact Hlt|].
      eapply Qle_trans; [exact Hsim|]. apply compute_similarity_le_1. }
    destruct (_should_keep_first chunk1 chunk2).
    + set (st1 := {| to_remove := _; sim_duplicates := _ |}).
      destruct (IH st1) as (H1 & H2 & _).
      { subst st1. cbn [to_remove sim_duplicates].
        intros a b [Hab| Hab%list_elem_of_singleton]%elem_of_app.
        - apply elem_of_union. left. by eapply Hst.
        - simplify_eq. apply elem_of_union. right. by apply elem_of_singleton. }
      split; [done|]. split; [|done].
      intros x Hx. apply H2. subst st1. cbn [to_remove].
      apply elem_of_union. by left.
    + cbn [to_remove sim_duplicates]. split; [|split; [|done]].
      * intros a b [Hab| Hab%list_elem_of_singleton]%elem_of_app.
        -- apply elem_of_union. left. by eapply Hst.
        -- simplify_eq. apply elem_of_union. right. by apply elem_of_singleton.
      * intros x Hx. apply elem_of_union. by left.
  - by apply IH.
Qed.

Lemma sim_outer_inv threshold chunk_features chunks : forall st,
  (forall a b, (a, b) ∈ sim_duplicates st -> a ∈ to_remove st) ->
  let st' := sim_outer threshold chunk_features chunks st in
  (forall a b, (a, b) ∈ sim_duplicates st' -> a ∈ to_remove st')
  /\ ((1 < threshold)%Q -> st' = st).
Proof.
  induction chunks as [|chunk1 l IH]; intros st Hst; cbn [sim_outer]; [done|].
  destruct (bool_decide _); [by apply IH|].
  destruct (sim_inner_inv threshold chunk_features chunk1 l st Hst)
    as (H1 & _ & H3).
  destruct (IH _ H1) as [H4 H5]. split; [done|].
  intros Hthr. by rewrite H5, H3.
Qed.

(** X21. [_similarity_dedup] returns a list of at most one chunk as it
    is.  On any list, what it keeps is a sublist of the input, in the
    input's order, and the first identifier of every pair it reports,
    the removed one, is carried by no kept chunk.  With a threshold
    above 1 it removes nothing, since no similarity exceeds 1. *)
Theorem similarity_dedup_removals (chunks : list Chunk.t) (threshold : Q) :
  let r := _similarity_dedup chunks threshold in
  (length chunks <= 1 -> r = (chunks, []))
  /\ r.1 `sublist_of` chunks
  /\ (forall a b, (a, b) ∈ r.2 -> a ∉ Chunk.chunk_id <$> r.1)
  /\ ((1 < threshold)%Q -> r = (chunks, [])).
Proof.
  intros r. subst r. unfold Deduplicator._similarity_dedup.
  destruct (Nat.leb_spec (length chunks) 1) as [Hlen|Hlen].
  { split; [done|]. split; [done|]. split; [|done].
    intros a b Hab. by apply elem_of_nil in Hab. }
  set (chunk_features := fold_left _ chunks ∅).
  destruct (sim_outer_inv threshold chunk_features chunks
              {| to_remove := ∅; sim_duplicates := [] |}) as [Hpairs Hthr].
  { intros a b Hab. by apply elem_of_nil in Hab. }
  cbn [fst snd]. split; [lia|]. split; [apply sublist_filter|]. split.
  - intros a b Hab [c [-> [Hc _]%list_elem_of_filter]]%list_elem_of_fmap.
    apply Hc. by eapply Hpairs.
  - intros Hlt. rewrite (Hthr Hlt). cbn [to_remove sim_duplicates].
    f_equal. apply filter_all, Forall_forall.
    intros c _ Hc. by apply elem_of_empty in Hc.
Qed.

End SimilarityProps.

(** ** QualityValidator: scores and the number of issues *)

Section ScoreProps.
Import QualityValidator.

Variable config : QualityConfig.

Lemma Qle_bool_false a b : Qle_bool a b = false -> (b < a)%Q.
Proof.
  intros H. apply Qnot_le_lt. intros Hle. apply Qle_bool_iff in Hle. congruence.
Qed.

Lemma ratio_range n d : n <= d -> 0 < d -> (0 <= ratio n d)%Q /\ (ratio n d <= 1)%Q.
Proof.
  intros Hn Hd. unfold ratio, Qle. cbn.
  rewrite <- positive_nat_Z, Nat2Pos.id by lia. lia.
Qed.

Lemma ratio_nonneg n d : (0 <= ratio n d)%Q.
Proof. unfold ratio, Qle. cbn. lia. Qed.

Lemma qmin_range a : (0 <= a)%Q -> (0 <= qmin a 1)%Q /\ (qmin a 1 <= 1)%Q.
Proof.
  intros Ha. unfold qmin. destruct (Qle_bool a 1) eqn:H.
  - apply Qle_bool_iff in H. done.
  - split; [done|apply Qle_refl].
Qed.

Lemma check_garbled_range s :
  (0 <= _check_garbled s)%Q /\ (_check_garbled s <= 1)%Q.
Proof.
  unfold _check_garbled. destruct s as [|c s]; [done|]. cbv zeta.
  match goal with |- context [ratio ?n ?d] =>
    destruct (ratio_range n d) as [H0 H1]
  end; [apply length_filter|simpl; lia|].
  split; lra.
Qed.

Lemma check_special_chars_range s :
  (0 <= _check_special_chars s)%Q /\ (_check_special_chars s <= 1)%Q.
Proof.
  unfold _check_special_chars. destruct s as [|c s]; [done|].
  apply ratio_range; [apply length_filter|simpl; lia].
Qed.

Lemma check_repetition_range s :
  (0 <= _check_repetition s)%Q /\ (_check_repetition s <= 1)%Q.
Proof.
  unfold _check_repetition. destruct (_ <? _); [done|].
  apply qmin_range, ratio_nonneg.
Qed.

Lemma overall_score_range scores issues :
  (0 <= _calculate_overall_score scores issues)%Q
  /\ (_calculate_overall_score scores issues <= 1)%Q.
Proof.
  unfold _calculate_overall_score. cbv zeta.
  set (base := (_ - inject_Z _ * _)%Q). unfold qmax, qmin.
  destruct (Qle_bool 1 base) eqn:H1.
  - done.
  - apply Qle_bool_false in H1.
    destruct (Qle_bool base 0) eqn:H0; [done|].
    apply Qle_bool_false in H0. split; lra.
Qed.

Lemma overall_score_many_issues scores issues :
  (forall key q, scores !! key = Some q -> (0 <= q)%Q) ->
  5 <= length issues ->
  (_calculate_overall_score scores issues <= 5 # 10)%Q.
Proof.
  intros Hpos Hmany. unfold _calculate_overall_score. cbv zeta.
  assert (5 <= inject_Z (Z.of_nat (length issues)))%Q as Hk.
  { unfold Qle. cbn. lia. }
  set (k := inject_Z _) in *.
  destruct (scores !! "garbled_ratio"%string) as [g|] eqn:Hg;
    [apply Hpos in Hg|];
    (destruct (scores !! "repetition_ratio"%string) as [r|] eqn:Hr;
       [apply Hpos in Hr|]);
    (destruct (scores !! "special_char_ratio"%string) as [sp|] eqn:Hs;
       [apply Hpos in Hs|]);
    match goal with |- (qmax 0 (qmin 1 ?base) <= _)%Q =>
      assert (base <= 5 # 10)%Q as Hbase by lra; set (b := base) in *
    end;
    unfold qmax, qmin;
    (destruct (Qle_bool 1 b) eqn:H1;
       [apply Qle_bool_iff in H1; lra|]);
    (destruct (Qle_bool b 0) eqn:H0; [done|exact Hbase]).
Qed.

Lemma qa_completeness_length chunk : length (_check_qa_completeness chunk) <= 2.
Proof.
  unfold _check_qa_completeness. rewrite length_app.
  destruct (Chunk.question chunk) as [[|c q]|], (Chunk.answer chunk) as [[|d a]|];
    repeat match goal with |- context [if ?b then _ else _] => destruct b end;
    cbn [length]; lia.
Qed.

(** X22. Every score that [validate_chunk] stores lies between 0 and 1.
    It raises at most six issues, and a chunk with five or more issues
    is never valid: each issue costs a tenth of the overall score and
    the three ratios only lower it further, which leaves at most 0.5. *)
Theorem validate_chunk_scores (chunk : Chunk.t) :
  let r := validate_chunk config chunk in
  (forall key q, scores r !! key = Some q -> (0 <= q)%Q /\ (q <= 1)%Q)
  /\ length (issues r) <= 6
  /\ (5 <= length (issues r) -> is_valid r = false).
Proof.
  intros r. subst r. unfold validate_chunk.
  destruct (is_blank (Chunk.content chunk)).
  { cbn [scores issues is_valid length]. split; [|split; [lia|done]].
    intros key q [_ <-]%lookup_singleton_Some. done. }
  cbv zeta.
  set (iss := (if String.eqb _ _ then _ else _) : list issue).
  set (sc := <["special_char_ratio"%string:=_]> _).
  cbn [scores issues is_valid].
  assert (forall key q, sc !! key = Some q -> (0 <= q)%Q /\ (q <= 1)%Q) as Hsc.
  { subst sc. intros key q.
    intros [[_ <-]|[_ H]]%lookup_insert_Some; [apply check_special_chars_range|].
    apply lookup_insert_Some in H as [[_ <-]|[_ H]];
      [apply check_repetition_range|].
    apply lookup_insert_Some in H as [[_ <-]|[_ H]];
      [apply check_garbled_range|].
    by rewrite lookup_empty in H. }
  split; [|split].
  - intros key q [[_ <-]|[_ H]]%lookup_insert_Some;
      [apply overall_score_range|exact (Hsc _ _ H)].
  - subst iss. pose proof (qa_completeness_length chunk).
    repeat match goal with |- context [if ?b then _ else _] => destruct b end;
      rewrite ?length_app; cbn [length]; lia.
  - intros Hmany.
    pose proof (overall_score_many_issues sc iss
                  (fun key q H => proj1 (Hsc key q H)) Hmany) as Hlow.
    destruct iss as [|i iss']; [simpl in Hmany; lia|]. cbn [length Nat.eqb orb].
    destruct (Qle_bool _ _) eqn:Hle; [|done].
    apply Qle_bool_iff in Hle. lra.
Qed.

End ScoreProps.

(** ** Deduplicator: duplicates across files *)

Section CrossFile.
Import Deduplicator.

Variable lower : text -> text.
Variable isword : char -> bool.
Variable md5_hexdigest : text -> string.

Local Abbreviation key :=
  (fun c => _compute_hash lower isword md5_hexdigest (Chunk.content c)).
Local Abbreviation find_duplicates_across_files :=
  (find_duplicates_across_files lower isword md5_hexdigest).

Lemma group_append_listed {K V} `{EqDecision K} (k : K) (v : V) groups k' v' :
  listed (group_append k v groups) k' v'
  <-> listed groups k' v' \/ (k' = k /\ v' = v).
Proof.
  unfold listed. induction groups as [|[k0 vs0] groups IH]; cbn [group_append].
  - split.
    + intros (vs & Hin%list_elem_of_singleton & Hv). simplify_eq.
      apply list_elem_of_singleton in Hv. by right.
    + intros [(vs & Hin & _)|[-> ->]]; [by apply elem_of_nil in Hin|].
      exists [v]. split; by apply list_elem_of_singleton.
  - destruct (decide (k0 = k)) as [->|Hne].
    + split.
      * intros (vs & [Hin|Hin]%elem_of_cons & Hv).
        -- simplify_eq. apply elem_of_app in Hv as [Hv|Hv%list_elem_of_singleton].
           ++ left. exists vs0. split; [by left|done].
           ++ by right.
        -- left. exists vs. split; [by right|done].
      * intros [(vs & [Hin|Hin]%elem_of_cons & Hv)|[-> ->]].
        -- simplify_eq. exists (vs0 ++ [v]). split; [by left|].
           apply elem_of_app. by left.
        -- exists vs. split; [by right|done].
        -- exists (vs0 ++ [v]). split; [by left|].
           apply elem_of_app. right. by apply list_elem_of_singleton.
    + split.
      * intros (vs & [Hin|Hin]%elem_of_cons & Hv).
        -- simplify_eq. left. exists vs0. split; [by left|done].
        -- destruct (proj1 IH) as [(vs1 & ? & ?)|?]; [by exists vs| |by right].
           left. exists vs1. split; [by right|done].
      * intros [(vs & [Hin|Hin]%elem_of_cons & Hv)|Hnew].
        -- simplify_eq. exists vs0. split; [by left|done].
        -- destruct (proj2 IH) as (vs1 & ? & ?); [left; by exists vs|].
           exists vs1. split; [by right|done].
        -- destruct (proj2 IH) as (vs1 & ? & ?); [by right|].
           exists vs1. split; [by right|done].
Qed.

Lemma group_append_keys {K V} `{EqDecision K} (k : K) (v : V) groups :
  groups.*1 ⊆ (group_append k v groups).*1
  /\ (NoDup groups.*1 -> NoDup (group_append k v groups).*1)
  /\ (forall k', k' ∈ (group_append k v groups).*1 -> k' ∈ groups.*1 \/ k' = k).
Proof.
  induction groups as [|[k0 vs0] groups (IH1 & IH2 & IH3)]; cbn [group_append].
  - split; [intros x Hx; by apply elem_of_nil in Hx|].
    split; [intros _; apply NoDup_singleton|].
    intros k' ->%list_elem_of_singleton. by right.
  - destruct (decide (k0 = k)) as [->|Hne]; cbn [fmap list_fmap fst].
    + split; [by intros x Hx|]. split; [done|]. intros k' Hk'. by left.
    + split; [|split].
      * intros x [->|Hx]%elem_of_cons; [by left|]. right. by apply IH1.
      * intros [Hk0 Hnd]%NoDup_cons. apply NoDup_cons. split; [|by apply IH2].
        intros [?|?]%IH3; done.
      * intros k' [->|[?|?]%IH3]%elem_of_cons; [left; by left|left; by right|by right].
Qed.

Lemma group_append_nonempty {K V} `{EqDecision K} (k : K) (v : V) groups :
  Forall (fun g => g.2 <> []) groups ->
  Forall (fun g => g.2 <> []) (group_append k v groups).
Proof.
  induction 1 as [|[k0 vs0] groups Hg Hall IH]; cbn [group_append].
  - by repeat constructor.
  - destruct (decide (k0 = k)).
    + constructor; [|done]. cbn [snd]. intros H0. by destruct vs0.
    + by constructor.
Qed.

Lemma NoDup_keys_unique {K V} (groups : list (K * list V)) k vs vs' :
  NoDup groups.*1 -> (k, vs) ∈ groups -> (k, vs') ∈ groups -> vs = vs'.
Proof.
  intros Hnd H1 H2.
  assert ((k, vs) = (k, vs')) as Heq; [|by simplify_eq].
  by apply (NoDup_fmap_elem_inj fst groups).
Qed.

Lemma size_list_to_set_many `{Countable A} (l : list A) :
  1 < size (list_to_set l : gset A)
  <-> exists x y, x ∈ l /\ y ∈ l /\ x <> y.
Proof.
  split.
  - intros Hsize.
    destruct (size_pos_elem_of (list_to_set l : gset A)) as [x Hx]; [lia|].
    destruct (size_pos_elem_of ((list_to_set l : gset A) ∖ {[x]})) as [y Hy].
    { rewrite size_difference by (by apply singleton_subseteq_l).
      rewrite size_singleton. lia. }
    apply elem_of_difference in Hy as [Hy Hne].
    exists x, y. rewrite elem_of_list_to_set in Hx, Hy.
    split; [done|]. split; [done|].
    intros ->. apply Hne. by apply elem_of_singleton.
  - intros (x & y & Hx & Hy & Hne).
    assert (size ({[x; y]} : gset A) <= size (list_to_set l : gset A)) as Hle.
    { apply subseteq_size. intros z [->%elem_of_singleton| ->%elem_of_singleton]%elem_of_union;
        by apply elem_of_list_to_set. }
    rewrite size_union in Hle; [by rewrite !size_singleton in Hle|].
    intros z ->%elem_of_singleton ?%elem_of_singleton. done.
Qed.

Lemma content_groups_spec chunks : forall groups,
  let groups' :=
    fold_left (fun groups chunk => group_append (key chunk) chunk groups)
              chunks groups in
  (NoDup groups.*1 -> NoDup groups'.*1)
  /\ (forall h c, listed groups' h c
                  <-> listed groups h c \/ (c ∈ chunks /\ key c = h)).
Proof.
  induction chunks as [|chunk l IH]; intros groups; cbn [fold_left].
  - split; [done|]. intros h c. split; [by left|].
    intros [?|[Hc _]]; [done|by apply elem_of_nil in Hc].
  - destruct (IH (group_append (key chunk) chunk groups)) as [IH1 IH2].
    split.
    + intros Hnd. by apply IH1, group_append_keys.
    + intros h c. rewrite IH2, group_append_listed. split.
      * intros [[?|[-> ->]]|[? ?]]; [by left|right|right].
        -- split; [by left|done].
        -- split; [by right|done].
      * intros [?|[[->|?]%elem_of_cons <-]]; [left; by left|left; by right|].
        right. done.
Qed.

Lemma file_fold_listed group : forall dups file id,
  listed (fold_left (fun dups chunk =>
                       match file_of chunk with
                       | Some file => group_append file (Chunk.chunk_id chunk) dups
                       | None => dups
                       end) group dups) file id
  <-> listed dups file id
      \/ exists c, c ∈ group /\ file_of c = Some file /\ Chunk.chunk_id c = id.
Proof.
  induction group as [|chunk l IH]; intros dups file id; cbn [fold_left].
  - split; [by left|]. intros [?|(c & Hc & _)]; [done|by apply elem_of_nil in Hc].
  - rewrite IH. destruct (file_of chunk) as [f|] eqn:Hf.
    + rewrite group_append_listed. split.
      * intros [[?|[-> ->]]|(c & ? & ? & ?)]; [by left|right|right].
        -- exists chunk. split; [by left|done].
        -- exists c. split; [by right|done].
      * intros [?|(c & [->|?]%elem_of_cons & Hfile & Hid)];
          [left; by left| |right; by exists c].
        left. right. rewrite Hf in Hfile. by simplify_eq.
    + split.
      * intros [?|(c & ? & ? & ?)]; [by left|right].
        exists c. split; [by right|done].
      * intros [?|(c & [->|?]%elem_of_cons & Hfile & Hid)];
          [by left|congruence|right; by exists c].
Qed.

Lemma cross_file_step_listed dups item file id :
  listed (cross_file_step dups item) file id
  <-> listed dups file id
      \/ (1 < length item.2
          /\ 1 < size (list_to_set (omap file_of item.2) : gset text)
          /\ exists c, c ∈ item.2 /\ file_of c = Some file
                       /\ Chunk.chunk_id c = id).
Proof.
  unfold cross_file_step. cbv zeta.
  destruct (Nat.leb_spec (length item.2) 1) as [Hlen|Hlen].
  { split; [by left|]. intros [?|[? _]]; [done|lia]. }
  destruct (Nat.ltb_spec 1 (size (list_to_set (omap file_of item.2) : gset text)))
    as [Hfiles|Hfiles].
  - rewrite file_fold_listed. split; intros [?|?]; [by left|right|by left|right];
      tauto.
  - split; [by left|]. intros [?|(_ & ? & _)]; [done|lia].
Qed.

Lemma cross_file_fold_listed groups : forall dups file id,
  listed (fold_left cross_file_step groups dups) file id
  <-> listed dups file id
      \/ exists item, item ∈ groups
            /\ 1 < length item.2
            /\ 1 < size (list_to_set (omap file_of item.2) : gset text)
            /\ exists c, c ∈ item.2 /\ file_of c = Some file
                         /\ Chunk.chunk_id c = id.
Proof.
  induction groups as [|item l IH]; intros dups file id; cbn [fold_left].
  - split; [by left|]. intros [?|(item & Hi & _)]; [done|by apply elem_of_nil in Hi].
  - rewrite IH, cross_file_step_listed. split.
    + intros [[?|?]|(it & ? & ?)]; [by left|right|right].
      * exists item. split; [by left|done].
      * exists it. split; [by right|done].
    + intros [?|(it & [->|?]%elem_of_cons & ?)];
        [left; by left|left; by right|right; by exists it].
Qed.

Lemma cross_file_fold_shape groups : forall dups,
  NoDup dups.*1 -> Forall (fun e => e.2 <> []) dups ->
  NoDup (fold_left cross_file_step groups dups).*1
  /\ Forall (fun e => e.2 <> []) (fold_left cross_file_step groups dups).
Proof.
  induction groups as [|item l IH]; intros dups Hnd Hne; cbn [fold_left]; [done|].
  apply IH; unfold cross_file_step; cbv zeta;
    destruct (_ <=? _); try done; destruct (_ <? _); try done;
    revert dups Hnd Hne; generalize (item.2);
    induction l0 as [|chunk g IHg]; intros dups Hnd Hne; cbn [fold_left];
      try done;
    destruct (file_of chunk); try (by apply IHg);
    apply IHg; try (by apply group_append_keys); by apply group_append_nonempty.
Qed.

(** X23. What [find_duplicates_across_files] lists.  An identifier is
    listed under a file exactly when it is the identifier of a chunk of
    that file and some chunk of another file has the same content hash;
    chunks without a source file are never listed and never count as
    another file.  Every file appears once in the result, with at least
    one identifier. *)
Theorem find_duplicates_across_files_lists (chunks : list Chunk.t) :
  (forall file id,
     listed (find_duplicates_across_files chunks) file id
     <-> exists c c' file',
           c ∈ chunks /\ c' ∈ chunks
           /\ Chunk.chunk_id c = id /\ file_of c = Some file
           /\ key c' = key c
           /\ file_of c' = Some file' /\ file' <> file)
  /\ NoDup (find_duplicates_across_files chunks).*1
  /\ Forall (fun e => e.2 <> []) (find_duplicates_across_files chunks).
Proof.
  unfold Deduplicator.find_duplicates_across_files.
  destruct (content_groups_spec chunks []) as [Hkeys Hgroups].
  set (groups := fold_left _ chunks []) in *. cbv zeta in *.
  assert (NoDup groups.*1) as Hnd by (apply Hkeys; constructor).
  clear Hkeys.
  assert (forall h g c, (h, g) ∈ groups -> c ∈ g <-> c ∈ chunks /\ key c = h)
    as Hgroup.
  { intros h g c Hg. split.
    - intros Hc. destruct (proj1 (Hgroups h c)) as [(vs & Hin & _)|?];
        [by exists g|by apply elem_of_nil in Hin|done].
    - intros Hc. destruct (proj2 (Hgroups h c)) as (g' & Hg' & Hcg');
        [by right|].
      by rewrite (NoDup_keys_unique groups h g g' Hnd Hg Hg'). }
  split; [|by apply cross_file_fold_shape; [constructor|constructor]].
  intros file id. rewrite cross_file_fold_listed. split.
  - intros [(vs & Hin & _)|([h g] & Hg & Hlen & Hfiles & c & Hc & Hfile & Hid)];
      [by apply elem_of_nil in Hin|].
    cbn [snd] in *.
    apply size_list_to_set_many in Hfiles as (f1 & f2 & Hf1 & Hf2 & Hne).
    apply list_elem_of_omap in Hf1 as (c1 & Hc1 & Hfile1).
    apply list_elem_of_omap in Hf2 as (c2 & Hc2 & Hfile2).
    apply (Hgroup h g) in Hc as [Hc Hkey]; [|done].
    apply (Hgroup h g) in Hc1 as [Hc1 Hkey1]; [|done].
    apply (Hgroup h g) in Hc2 as [Hc2 Hkey2]; [|done].
    destruct (decide (f1 = file)) as [->|Hf1].
    + exists c, c2, f2. rewrite Hkey, Hkey2. eauto 10.
    + exists c, c1, f1. rewrite Hkey, Hkey1. eauto 10.
  - intros (c & c' & file' & Hc & Hc' & Hid & Hfile & Hkey & Hfile' & Hne).
    right. destruct (proj2 (Hgroups (key c) c)) as (g & Hg & Hcg); [by right|].
    assert (c' ∈ g) as Hcg' by (by apply (Hgroup (key c) g)).
    exists (key c, g). cbn [snd]. split; [done|]. split; [|split].
    + destruct g as [|x [|y g]]; [by apply elem_of_nil in Hcg| |simpl; lia].
      apply list_elem_of_singleton in Hcg, Hcg'. subst. congruence.
    + apply size_list_to_set_many. exists file, file'.
      split; [|split; [|done]]; apply list_elem_of_omap; eauto.
    + eauto.
Qed.

End CrossFile.

(** ** QAParser: normalization *)

Section RunFacts.

Lemma runs_last p s : forall st,
  rest st = s ->
  exists st', last (runs p None st s) = Some st'
              /\ pos st' = pos st + prefix_len p s
              /\ length (runs p None st s) = S (prefix_len p s).
Proof.
  induction s as [|c s IH]; intros st Hrest; cbn [runs prefix_len].
  - exists st. split; [done|]. split; [lia|done].
  - destruct (p c); cbn [andb negb bool_decide fmap option_fmap option_map].
    + rewrite bool_decide_eq_false_2 by done. cbn [negb].
      destruct (IH (step st c s) eq_refl) as (st' & Hlast & Hpos & Hlen).
      exists st'. split; [|split].
      * destruct (runs p None (step st c s) s) eqn:Hr; [done|]. done.
      * rewrite Hpos. cbn [pos step]. lia.
      * cbn [length]. by rewrite Hlen.
    + exists st. split; [done|]. split; [lia|done].
Qed.

Lemma last_drop_lt {A} (l : list A) k :
  k < length l -> last (drop k l) = last l.
Proof.
  intros Hk. rewrite !last_lookup, lookup_drop, length_drop. f_equal. lia.
Qed.

Lemma rep_head p lo st :
  match head (run (Rep true lo None p) (st, [])) with
  | Some y => pos y.1 = pos st + prefix_len p (rest st)
              /\ lo <= prefix_len p (rest st)
  | None => prefix_len p (rest st) < lo
  end.
Proof.
  cbn [run fst snd].
  destruct (runs_last p (rest st) st eq_refl) as (st' & Hlast & Hpos & Hlen).
  set (states := runs p None st (rest st)) in *.
  destruct (decide (lo <= prefix_len p (rest st))) as [Hle|Hgt].
  - assert (last (drop lo states) = Some st') as Hl.
    { rewrite last_drop_lt by lia. done. }
    destruct (drop lo states) as [|x l] eqn:Hd using rev_ind; [done|].
    rewrite last_snoc in Hl. simplify_eq.
    rewrite rev_unit. cbn. done.
  - rewrite drop_ge by lia. cbn. lia.
Qed.

Lemma split_spans_nonempty s cur ms : split_spans s cur ms <> [].
Proof. by destruct ms. Qed.

Lemma join_cons sep x l : l <> [] -> join sep (x :: l) = x ++ sep ++ join sep l.
Proof. by destruct l. Qed.

Lemma slice_snoc s cur i c s' :
  cur <= i -> drop i s = c :: s' -> slice s cur (S i) = slice s cur i ++ [c].
Proof.
  intros Hcur Hdrop. unfold slice.
  replace (S i - cur) with (S (i - cur)) by lia.
  assert (drop cur s !! (i - cur) = Some c) as Hc.
  { rewrite lookup_drop. replace (cur + (i - cur)) with i by lia.
    rewrite <- (Nat.add_0_r i), <- lookup_drop, Hdrop. done. }
  by rewrite (take_S_r _ _ _ Hc).
Qed.

Lemma slice_empty s i : slice s i i = [].
Proof. unfold slice. by rewrite Nat.sub_diag. Qed.

Lemma split_join_collapse p lo repl s :
  1 <= lo ->
  forall s_rest st skip cur,
    rest st = s_rest -> drop (pos st) s = s_rest -> pos st <= length s ->
    (skip = 0 /\ cur <= pos st) \/ (0 < skip /\ cur = pos st + skip) ->
    join repl (split_spans s cur
                 (finditer_aux (Rep true lo None p) skip st s_rest))
    = (if skip =? 0 then slice s cur (pos st) else [])
      ++ collapse_aux p lo repl skip s_rest.
Proof.
  intros Hlo. induction s_rest as [|c s' IH]; intros st skip cur Hrest Hdrop Hpos Hcur.
  - assert (pos st = length s) as Hend.
    { apply (f_equal length) in Hdrop. rewrite length_drop in Hdrop.
      simpl in Hdrop. lia. }
    cbn [finditer_aux collapse_aux]. rewrite app_nil_r.
    destruct skip as [|k].
    + pose proof (rep_head p lo st) as Hhead. rewrite Hrest in Hhead.
      destruct (head _); [cbn [prefix_len] in Hhead; lia|].
      cbn [split_spans join Nat.eqb]. unfold slice. rewrite Hend.
      by rewrite take_ge by (rewrite length_drop; lia).
    + cbn [split_spans join Nat.eqb]. apply drop_ge. lia.
  - assert (pos st < length s) as Hlt.
    { apply (f_equal length) in Hdrop. rewrite length_drop in Hdrop.
      simpl in Hdrop. lia. }
    assert (drop (pos (step st c s')) s = s') as Hdrop'.
    { cbn [pos step]. rewrite <- (Nat.add_1_r (pos st)).
      rewrite <- drop_drop, Hdrop. done. }
    cbn [finditer_aux].
    destruct skip as [|k].
    + pose proof (rep_head p lo st) as Hhead. rewrite Hrest in Hhead.
      destruct Hcur as [[_ Hcur]|[? _]]; [|lia].
      destruct (head _) as [y|].
      * destruct Hhead as [Hy Hn]. cbn [split_spans m_start m_end].
        rewrite join_cons by apply split_spans_nonempty.
        cbn [Nat.eqb collapse_aux].
        destruct (Nat.leb_spec lo (prefix_len p (c :: s'))); [|lia].
        rewrite Hy.
        replace (pos st + prefix_len p (c :: s') - pos st - 1)
          with (prefix_len p (c :: s') - 1) by lia.
        rewrite (IH (step st c s') _ (pos st + prefix_len p (c :: s')));
          [|done|done|cbn [pos step]; lia|cbn [pos step]; lia].
        f_equal. f_equal.
        destruct (prefix_len p (c :: s') - 1) eqn:Hk; cbn [Nat.eqb]; [|done].
        cbn [pos step]. replace (pos st + prefix_len p (c :: s')) with (S (pos st))
          by lia.
        by rewrite slice_empty.
      * cbn [Nat.sub Nat.eqb collapse_aux].
        destruct (Nat.leb_spec lo (prefix_len p (c :: s'))); [lia|].
        rewrite (IH (step st c s') 0 cur);
          [|done|done|cbn [pos step]; lia|cbn [pos step]; lia].
        cbn [Nat.eqb pos step].
        rewrite (slice_snoc s cur (pos st) c s') by done.
        by rewrite <- app_assoc.
    + destruct Hcur as [[? _]|[_ Hcur]]; [lia|].
      cbn [Nat.eqb collapse_aux app]. rewrite Nat.sub_succ, Nat.sub_0_r.
      rewrite (IH (step st c s') k cur);
        [|done|done|cbn [pos step]; lia|cbn [pos step]; lia].
      destruct k; cbn [Nat.eqb]; [|done].
      cbn [pos step]. replace cur with (S (pos st)) by lia.
      by rewrite slice_empty.
Qed.

Lemma re_sub_collapse p lo repl s :
  1 <= lo -> re_sub (Rep true lo None p) repl s = collapse p lo repl s.
Proof.
  intros Hlo. unfold re_sub, re_split, finditer, collapse.
  rewrite (split_join_collapse p lo repl s Hlo s (MState 0 None s) 0 0);
    [|done|done|cbn; lia|cbn; lia].
  cbn [Nat.eqb pos]. by rewrite slice_empty.
Qed.

End RunFacts.

Section CollapseFacts.

Variable p : char -> bool.
Variable lo : nat.
Variable repl : text.

Hypothesis lo_pos : 1 <= lo.
Hypothesis repl_short : length repl < lo.

Lemma collapse_aux_skip s : forall k,
  collapse_aux p lo repl k s = collapse_aux p lo repl 0 (drop k s).
Proof.
  induction s as [|c s IH]; intros k; [by destruct k|].
  destruct k as [|k]; [done|]. cbn [collapse_aux drop]. apply IH.
Qed.

Lemma prefix_len_le s : prefix_len p s <= length s.
Proof.
  clear lo_pos repl_short.
  induction s as [|c s IH]; cbn [prefix_len length]; [done|].
  destruct (p c); lia.
Qed.

Lemma prefix_len_drop s : prefix_len p (drop (prefix_len p s) s) = 0.
Proof.
  induction s as [|c s IH]; [done|]. cbn [prefix_len].
  destruct (p c) eqn:Hc; cbn [drop]; [exact IH|]. cbn [prefix_len]. by rewrite Hc.
Qed.

Lemma prefix_len_app_le w u : prefix_len p (w ++ u) <= length w + prefix_len p u.
Proof.
  clear lo_pos repl_short.
  induction w as [|c w IH]; [done|]. cbn [app prefix_len length].
  destruct (p c); lia.
Qed.

Lemma collapse_head s :
  prefix_len p s = 0 -> prefix_len p (collapse p lo repl s) = 0.
Proof.
  unfold collapse. destruct s as [|c s]; [done|]. cbn [collapse_aux].
  intros Hn. rewrite Hn. destruct (Nat.leb_spec lo 0); [lia|].
  cbn [prefix_len] in *. by destruct (p c).
Qed.

Lemma collapse_keeps_short_run s :
  prefix_len p s < lo ->
  prefix_len p (collapse p lo repl s) = prefix_len p s.
Proof.
  unfold collapse. induction s as [|c s IH]; [done|]. intros Hn.
  cbn [collapse_aux]. destruct (Nat.leb_spec lo (prefix_len p (c :: s))); [lia|].
  cbn [prefix_len] in *. destruct (p c); [|done]. rewrite IH; [done|lia].
Qed.

Lemma collapse_short_runs s : short_runs p lo (collapse p lo repl s).
Proof.
  remember (length s) as m eqn:Hm. revert s Hm.
  induction m as [m IH] using lt_wf_ind. intros s Hm.
  destruct s as [|c s];
    [intros i; unfold collapse; cbn [collapse_aux]; rewrite drop_nil;
     cbn [prefix_len]; lia|].
  unfold collapse. cbn [collapse_aux].
  destruct (Nat.leb_spec lo (prefix_len p (c :: s))) as [Hlong|Hshort].
  - rewrite collapse_aux_skip.
    replace (drop (prefix_len p (c :: s) - 1) s)
      with (drop (prefix_len p (c :: s)) (c :: s))
      by (destruct (prefix_len p (c :: s)) as [|n] eqn:Hn; [lia|];
          cbn [drop]; f_equal; lia).
    set (tail := drop (prefix_len p (c :: s)) (c :: s)).
    fold (collapse p lo repl tail).
    assert (short_runs p lo (collapse p lo repl tail)) as Htail.
    { apply (IH (length tail)); [|done]. subst tail m.
      rewrite length_drop. cbn [length]. lia. }
    assert (prefix_len p (collapse p lo repl tail) = 0) as Hhead
      by apply collapse_head, prefix_len_drop.
    intros i. destruct (decide (i < length repl)) as [Hi|Hi].
    + rewrite drop_app_le by lia.
      eapply Nat.le_lt_trans; [apply prefix_len_app_le|].
      rewrite Hhead, length_drop. lia.
    + rewrite drop_app_ge by lia. apply Htail.
  - intros [|i].
    + rewrite drop_0. fold (collapse p lo repl s).
      cbn [prefix_len] in *. destruct (p c); [|lia].
      rewrite collapse_keeps_short_run; lia.
    + cbn [drop]. apply (IH (length s)); [subst m; cbn; lia|done].
Qed.

Lemma collapse_id s : short_runs p lo s -> collapse p lo repl s = s.
Proof.
  clear lo_pos repl_short.
  unfold collapse. induction s as [|c s IH]; intros Hs; [done|].
  cbn [collapse_aux]. pose proof (Hs 0) as H0. rewrite drop_0 in H0.
  destruct (Nat.leb_spec lo (prefix_len p (c :: s))); [lia|].
  f_equal. apply IH. intros i. apply (Hs (S i)).
Qed.

Lemma collapse_aux_elem s : forall k c,
  c ∈ collapse_aux p lo repl k s -> c ∈ s \/ c ∈ repl.
Proof.
  induction s as [|x s IH]; intros k c; cbn [collapse_aux];
    [by intros ?%elem_of_nil|].
  destruct k as [|k].
  - destruct (_ <=? _).
    + intros [?|[?|?]%IH]%elem_of_app; [by right|left; by right|by right].
    + intros [->|[?|?]%IH]%elem_of_cons; [left; by left|left; by right|by right].
  - intros [?|?]%IH; [left; by right|by right].
Qed.

End CollapseFacts.

Section NormalizeProps.
Import QAParser.

Lemma strip_elem c s : c ∈ strip s -> c ∈ s.
Proof.
  destruct (strip_segment s) as (a & b & ->).
  intros Hc. eapply subseteq_drop, subseteq_take, Hc.
Qed.

Lemma replace_crlf_other c s :
  c <> 13%N -> replace_crlf (c :: s) = c :: replace_crlf s.
Proof.
  intros Hc. destruct c as [|q]; [done|].
  do 4 (destruct q as [q|q|]; try done).
Qed.

Lemma replace_crlf_id s : 13%N ∉ s -> replace_crlf s = s.
Proof.
  induction s as [|c s IH]; [done|]. intros Hs.
  rewrite replace_crlf_other by (intros ->; apply Hs; by left).
  f_equal. apply IH. intros H. apply Hs. by right.
Qed.

Lemma replace_cr_id s : 13%N ∉ s -> replace_cr s = s.
Proof.
  unfold replace_cr. induction s as [|c s IH]; [done|]. intros Hs.
  cbn [fmap list_fmap]. destruct (N.eqb_spec c 13) as [->|_].
  - exfalso. apply Hs. by left.
  - f_equal. apply IH. intros H. apply Hs. by right.
Qed.

Lemma replace_cr_free s : 13%N ∉ replace_cr s.
Proof.
  unfold replace_cr. intros (c & Hc & _)%list_elem_of_fmap.
  destruct (N.eqb_spec c 13); [done|congruence].
Qed.

Lemma normalize_text_collapse s :
  _normalize_text s
  = strip (collapse (is_char LF) 3 [LF; LF] (replace_cr (replace_crlf s))).
Proof. unfold _normalize_text. by rewrite re_sub_collapse by lia. Qed.

(** X24. The text that [_normalize_text] returns holds no carriage
    return and no three newlines in a row, and has no white space at
    either end; normalizing it again changes nothing. *)
Theorem normalize_text_idempotent (s : text) :
  let normalized := _normalize_text s in
  (13%N ∉ normalized)
  /\ short_runs (is_char LF) 3 normalized
  /\ strip normalized = normalized
  /\ _normalize_text normalized = normalized.
Proof.
  intros normalized. subst normalized. rewrite !normalize_text_collapse.
  set (t := replace_cr (replace_crlf s)).
  set (u := collapse (is_char LF) 3 [LF; LF] t).
  assert (13%N ∉ strip u) as Hcr.
  { intros Hc%strip_elem. subst u. unfold collapse in Hc.
    apply collapse_aux_elem in Hc as [Hc|Hc].
    - by apply replace_cr_free in Hc.
    - apply elem_of_cons in Hc as [?|Hc]; [done|].
      by apply list_elem_of_singleton in Hc. }
  assert (short_runs (is_char LF) 3 (strip u)) as Hruns.
  { destruct (strip_segment u) as (a & b & ->).
    apply short_runs_take, short_runs_drop.
    subst u. apply collapse_short_runs; simpl; lia. }
  split; [done|]. split; [done|]. split; [apply strip_idemp|].
  rewrite replace_crlf_id, replace_cr_id by done.
  rewrite collapse_id by done. apply strip_idemp.
Qed.

End NormalizeProps.
(** ** Runs on concrete inputs *)

Section Witnesses.
Import Examples.

(** C5, as stated, fails: of two chunks with identical content neither
    is kept when a longer chunk with their hash follows, and two removed
    pairs are reported. *)
Lemma exact_dedup_longer_third_copy :
  Chunk.chunk_id chunk_a <> Chunk.chunk_id chunk_b
  /\ Chunk.content chunk_a = Chunk.content chunk_b
  /\ Deduplicator._exact_dedup ascii_lower ascii_isword example_digest
       [chunk_a; chunk_b; chunk_a_longer]
     = ([chunk_a_longer],
        [("text_000002"%string, "text_000001"%string);
         ("text_000001"%string, "text_000003"%string)])
  /\ ~ (exists kept pair,
          Deduplicator._exact_dedup ascii_lower ascii_isword example_digest
            [chunk_a; chunk_b; chunk_a_longer] = (kept, [pair])
          /\ (chunk_a ∈ kept \/ chunk_b ∈ kept)).
Proof.
  split; [intros H; vm_compute in H; discriminate|].
  split; [reflexivity|]. split; [vm_compute; reflexivity|].
  intros (kept & pair & H & _). vm_compute in H. discriminate.
Qed.

Lemma exact_dedup_identical_content_witness :
  Deduplicator._exact_dedup ascii_lower ascii_isword example_digest
    [chunk_other; chunk_a; chunk_b]
  = ([chunk_other; chunk_a], [("text_000002"%string, "text_000001"%string)])
  /\ chunk_a ∈ (Deduplicator._exact_dedup ascii_lower ascii_isword
                  example_digest ([chunk_other] ++ chunk_a :: [] ++ chunk_b :: [])).1
  /\ chunk_b ∉ (Deduplicator._exact_dedup ascii_lower ascii_isword
                  example_digest ([chunk_other] ++ chunk_a :: [] ++ chunk_b :: [])).1.
Proof.
  split; [vm_compute; reflexivity|].
  assert (Chunk.chunk_id chunk_a <> Chunk.chunk_id chunk_b) as Hid
    by (intros H; vm_compute in H; discriminate).
  destruct (exact_dedup_identical_content ascii_lower ascii_isword
              example_digest [chunk_other] [] [] chunk_a chunk_b Hid eq_refl)
    as (Hkept & Hnot & _).
  - intros c Hc. apply list_elem_of_singleton in Hc as ->. split.
    + intros H. vm_compute in H. discriminate.
    + intros H. repeat (apply elem_of_cons in H as [H|H]; [vm_compute in H; discriminate|]).
      by apply elem_of_nil in H.
  - split; [exact Hkept|exact Hnot].
Defined.

Lemma parse_unstructured_empty_witness :
  QAParser._parse_by_question_markers ascii_decimal_value ascii_isdigit
    (QAParser._normalize_text unstructured_text) = Some []
  /\ QAParser._parse_by_code_blocks ascii_decimal_value ascii_isword
       (QAParser._normalize_text unstructured_text) = Some []
  /\ QAParser.parse ascii_decimal_value ascii_isdigit ascii_isword
       unstructured_text None None = Some [].
Proof.
  assert (QAParser._parse_by_question_markers ascii_decimal_value ascii_isdigit
            (QAParser._normalize_text unstructured_text) = Some []) as H1
    by (vm_compute; reflexivity).
  assert (QAParser._parse_by_code_blocks ascii_decimal_value ascii_isword
            (QAParser._normalize_text unstructured_text) = Some []) as H2
    by (vm_compute; reflexivity).
  split; [exact H1|]. split; [exact H2|].
  refine (proj1 (parse_unstructured_empty ascii_decimal_value ascii_isdigit
                   ascii_isword unstructured_text None None H1 H2 _)).
  vm_compute; reflexivity.
Defined.

(** C9. [parse] raises on a question whose number has 4301 digits:
    [int] refuses the string.  With one digit less it returns the pair. *)
Lemma parse_long_number_raises :
  QAParser.parse ascii_decimal_value ascii_isdigit ascii_isword
    long_number_question None None = None
  /\ length <$> QAParser.parse ascii_decimal_value ascii_isdigit ascii_isword
                  (drop 1 long_number_question) None None = Some 1.
Proof. split; vm_compute; reflexivity. Qed.

Lemma parse_pairs_ordered_witness :
  exists p q,
    QAParser.parse ascii_decimal_value ascii_isdigit ascii_isword
      two_questions None None = Some [p; q]
    /\ Forall (fun p => QAPair.start_pos p <= QAPair.end_pos p) [p; q]
    /\ (forall i p' q', [p; q] !! i = Some p' -> [p; q] !! S i = Some q' ->
          QAPair.end_pos p' <= QAPair.start_pos q')
    /\ StronglySorted
         (fun p q => QAPair.start_pos p <= QAPair.start_pos q) [p; q].
Proof.
  eexists _, _. split; [vm_compute; reflexivity|].
  apply (parse_pairs_ordered ascii_decimal_value ascii_isdigit ascii_isword
           two_questions None None).
  vm_compute. reflexivity.
Defined.

(** C1. Under the default configuration (1500 and 100) a paragraph of
    2000 characters that follows accumulated text is emitted whole, and
    so is a pair whose answer is one paragraph of 4000 characters: both
    chunks are longer than [max_chunk_size + overlap_size]. *)
Lemma chunk_length_exceeds_bound :
  (exists chunks counter,
      Chunker.chunk_plain_text Chunker.default_config 0
        oversized_paragraph_text None None 0 = Returns (chunks, counter)
      /\ Chunk.char_count <$> chunks = [2; 2000]
      /\ Exists (fun c => Chunker.max_chunk_size Chunker.default_config
                          + Chunker.overlap_size Chunker.default_config
                          < Chunk.char_count c) chunks)
  /\ (exists chunks counter,
        Chunker.chunk_qa_pairs Chunker.default_config [oversized_qa] None 0
        = (chunks, counter)
        /\ Chunk.char_count <$> chunks = [4004]
        /\ Exists (fun c => Chunker.max_chunk_size Chunker.default_config
                            + Chunker.overlap_size Chunker.default_config
                            < Chunk.char_count c) chunks).
Proof.
  split.
  - eexists _, _. split; [vm_compute; reflexivity|].
    split; [vm_compute; reflexivity|].
    apply Exists_cons_tl, Exists_cons_hd.
    apply Nat.ltb_lt. vm_compute. reflexivity.
  - eexists _, _. split; [vm_compute; reflexivity|].
    split; [vm_compute; reflexivity|].
    apply Exists_cons_hd. apply Nat.ltb_lt. vm_compute. reflexivity.
Qed.

(** The plain-text bound is reached: two paragraphs of ten characters
    under [max_chunk_size = 10] and [overlap_size = 3]. *)
Lemma chunk_lengths_bounded_witness :
  exists chunks counter,
    Chunker.chunk_plain_text small_config 0 two_full_paragraphs None None 0
    = Returns (chunks, counter)
    /\ Forall (fun c => Chunk.char_count c <= 10 + 3 + 2) chunks.
Proof.
  refine (proj1 (proj2 (proj2 (chunk_lengths_bounded small_config)))
            0 two_full_paragraphs None None 0 _ _).
  - vm_compute. lia.
  - vm_compute. reflexivity.
Defined.


Lemma get_overlap_text_length_witness :
  0 < Chunker.overlap_size small_config
  /\ length (Chunker._get_overlap_text small_config [two_sentences]) <= 3 + 1.
Proof.
  assert (0 < Chunker.overlap_size small_config) as Hov by (vm_compute; lia).
  split; [exact Hov|].
  exact (proj2 (proj2 (get_overlap_text_length small_config [two_sentences] Hov))).
Defined.

Lemma chunk_qa_pairs_bounded_witness :
  Forall (fun c => Chunk.char_count c <= Nat.max 10 (2 + 3 + 10 + 8))
         (Chunker.chunk_qa_pairs small_config [two_paragraph_qa] None 0).1.
Proof.
  apply (chunk_qa_pairs_bounded small_config [two_paragraph_qa] None 0 2 10).
  - vm_compute. lia.
  - repeat constructor; vm_compute; by intros [=].
Defined.

Lemma force_split_does_not_return_witness :
  Chunker._force_split full_overlap_config 7 (of_string "aaaaa") None None 0
  = NoFuel.
Proof.
  apply (force_split_does_not_return full_overlap_config (of_string "aaaaa")
           None None 0).
  - reflexivity.
  - vm_compute. lia.
  - vm_compute. lia.
  - repeat constructor.
Defined.

Lemma chunk_markdown_without_headings_witness :
  Chunker.chunk_markdown Chunker.default_config 0 two_lines None None 0
  = Chunker.chunk_plain_text Chunker.default_config 0 two_lines None None 0.
Proof.
  apply chunk_markdown_without_headings.
  repeat constructor; vm_compute; by intros [=].
Defined.

Lemma exact_dedup_accounts_witness :
  NoDup (Chunk.chunk_id <$> [chunk_a; chunk_b])
  /\ length (Deduplicator._exact_dedup ascii_lower ascii_isword example_digest
               [chunk_a; chunk_b]).1
     + length (Deduplicator._exact_dedup ascii_lower ascii_isword example_digest
                 [chunk_a; chunk_b]).2
     = 2.
Proof.
  assert (NoDup (Chunk.chunk_id <$> [chunk_a; chunk_b])) as Hids.
  { apply NoDup_cons. split; [|apply NoDup_singleton].
    intros H%list_elem_of_singleton. vm_compute in H. discriminate. }
  split; [exact Hids|].
  exact (proj1 (exact_dedup_accounts ascii_lower ascii_isword example_digest
                  [chunk_a; chunk_b] Hids)).
Defined.

Lemma quality_check_steps_witness :
  exists valid results,
    QualityValidator.validate_chunks QualityValidator.default_config
      [chunk_a; chunk_b] true = Some (valid, results)
    /\ results
       = QualityValidator.validate_chunk QualityValidator.default_config
         <$> [chunk_a; chunk_b].
Proof.
  eexists _, _.
  assert (QualityValidator.validate_chunks QualityValidator.default_config
            [chunk_a; chunk_b] true
          = Some ([chunk_a; chunk_b],
                  QualityValidator.validate_chunk QualityValidator.default_config
                  <$> [chunk_a; chunk_b])) as Hv by (vm_compute; reflexivity).
  split; [exact Hv|].
  exact (proj1 (proj2 (proj2
           (quality_check_steps QualityValidator.default_config
              ascii_lower ascii_isword example_digest (95 # 100)
              [chunk_a; chunk_b] _ _ Hv)))).
Defined.

Lemma parse_headings_skips_steps_witness :
  QAParser.parse_headings ascii_decimal_value step_and_title None None
  = Some [QAPair.mk (of_string "# Title") (of_string "body") None None None 16 28]
  /\ Forall (fun p => head (QAPair.question p) = Some 0x23%N)
            [QAPair.mk (of_string "# Title") (of_string "body")
               None None None 16 28].
Proof.
  assert (QAParser.parse_headings ascii_decimal_value step_and_title None None
          = Some [QAPair.mk (of_string "# Title") (of_string "body")
                    None None None 16 28]) as Hparse
    by (vm_compute; reflexivity).
  split; [exact Hparse|].
  eapply Forall_impl;
    [exact (parse_headings_skips_steps ascii_decimal_value step_and_title
              None None _ Hparse)|].
  intros p (m & t & _ & _ & _ & Hhead & _). exact Hhead.
Defined.

Lemma merge_short_qas_placement_witness :
  well_placed [QAParser.short_pair_1; QAParser.short_pair_2]
  /\ well_placed
       (QAParser.merge_short_qas [QAParser.short_pair_1; QAParser.short_pair_2] 50).
Proof.
  assert (well_placed [QAParser.short_pair_1; QAParser.short_pair_2]) as Hwp.
  { split; repeat constructor; vm_compute; lia. }
  split; [exact Hwp|].
  exact (proj1 (merge_short_qas_placement _ 50 Hwp)).
Defined.

End Witnesses.

